(** * MiniLang: lexer, parser, IR generator and bytecode VM

    A shallow embedding of the C++ sources of the mini-language compiler
    (Token.cpp, Lexer.cpp, Parser.cpp, IRGenerator.cpp, VM.cpp, Compiler.cpp
    and their headers), followed by the properties of the pipeline.

    Conventions.
    - [size_t] values are integers in [Z]; an addition or a subtraction that
      the C++ code performs on [size_t] is [size_t_add] or [size_t_sub],
      which wrap around at [2 ^ 64].
    - [uint8_t] values are integers in [Z]; [static_cast<uint8_t>] is [to_u8].
    - [int] values are integers in [Z]; [static_cast<int>] is [to_int].
    - [double] is the kernel's binary64 type [float].
    - [std::unique_ptr<T>] is [option T] ([None] is the null pointer).
    - [std::vector<T>] is [list T] in index order ([back()] is the last
      element); [std::stack<T>] is [list T] with the top at the head.
    - Functions of the C and C++ standard libraries whose result is not
      determined by the repository ([std::stod], [std::fmod] and
      [std::format] on a [double]) are section variables.
    - The one exception that can leave a function of the repository
      uncaught, the [std::out_of_range] of [std::stod], is the result
      [None] of [std::stod] and of every function it leaves. *)

From Stdlib Require Import ZArith List String Ascii Bool Lia PrimFloat FloatOps SpecFloat.
From Stdlib Require Import FloatAxioms.
From Stdlib Require Import DecimalString Sorted.
Import ListNotations.

Local Open Scope string_scope.
Local Open Scope list_scope.
Local Open Scope Z_scope.

(** ** Machine integers *)

(** [a + b] and [a - b] on [size_t], for [a] and [b] in range: one
    wrap-around at most. *)
Definition size_t_add (a b : Z) : Z :=
  if 2 ^ 64 <=? a + b then a + b - 2 ^ 64 else a + b.
Definition size_t_sub (a b : Z) : Z :=
  if a <? b then a - b + 2 ^ 64 else a - b.
Definition to_u8 (z : Z) : Z := z mod 256.
Definition size {A : Type} (v : list A) : Z := Z.of_nat (List.length v).

(** [v[i]] on a vector; [None] is an access out of range (undefined
    behaviour in C++). *)
Definition at_index {A : Type} (v : list A) (i : Z) : option A :=
  if i <? 0 then None else nth_error v (Z.to_nat i).

(** [v.back()] and [v.pop_back()]. *)
Definition back {A : Type} (v : list A) : option A := last (map Some v) None.
Definition pop_back {A : Type} (v : list A) : list A := removelast v.

(** [std::format("{}", n)] for an integer. *)
Definition format_int (z : Z) : string := NilZero.string_of_int (Z.to_int z).

(** [static_cast<int>] of a [size_t]: the value modulo [2 ^ 32], read as a
    32-bit integer in two's complement. *)
Definition to_int (z : Z) : Z := (z + 2 ^ 31) mod 2 ^ 32 - 2 ^ 31.

(** ** Token.hpp *)

Module TokenType.
Inductive t : Set :=
  | NUMBER | STRING | IDENTIFIER
  | LET | FN | IF | ELSE | WHILE | RETURN | TRUE | FALSE | PRINT
  | PLUS | MINUS | STAR | SLASH | PERCENT
  | AND | OR | BANG
  | EQUAL_EQUAL | BANG_EQUAL | LESS | LESS_EQUAL | GREATER | GREATER_EQUAL
  | EQUAL
  | LPAREN | RPAREN | LBRACE | RBRACE | COMMA | SEMICOLON
  | EOF_TOKEN | ERROR.

Definition eq_dec (a b : t) : {a = b} + {a <> b}.
Proof. decide equality. Defined.

Definition eqb (a b : t) : bool := if eq_dec a b then true else false.
End TokenType.

(** [std::variant<std::monostate, double, std::string, bool>] of a token. *)
Inductive TokenLiteral : Set :=
  | LitNone
  | LitDouble (d : float)
  | LitString (s : string)
  | LitBool (b : bool).

Record Token : Set := mkToken {
  tok_type : TokenType.t;
  lexeme : string;
  line : Z;
  column : Z;
  literal : TokenLiteral
}.

(** ** Token.cpp *)

(** [Token::typeString] *)
Definition typeString (t : Token) : string :=
  match tok_type t with
  | TokenType.NUMBER => "NUMBER"
  | TokenType.STRING => "STRING"
  | TokenType.IDENTIFIER => "IDENTIFIER"
  | TokenType.LET => "LET"
  | TokenType.FN => "FN"
  | TokenType.IF => "IF"
  | TokenType.ELSE => "ELSE"
  | TokenType.WHILE => "WHILE"
  | TokenType.RETURN => "RETURN"
  | TokenType.TRUE => "TRUE"
  | TokenType.FALSE => "FALSE"
  | TokenType.PRINT => "PRINT"
  | TokenType.PLUS => "PLUS"
  | TokenType.MINUS => "MINUS"
  | TokenType.STAR => "STAR"
  | TokenType.SLASH => "SLASH"
  | TokenType.PERCENT => "PERCENT"
  | TokenType.AND => "AND"
  | TokenType.OR => "OR"
  | TokenType.BANG => "BANG"
  | TokenType.EQUAL_EQUAL => "EQUAL_EQUAL"
  | TokenType.BANG_EQUAL => "BANG_EQUAL"
  | TokenType.LESS => "LESS"
  | TokenType.LESS_EQUAL => "LESS_EQUAL"
  | TokenType.GREATER => "GREATER"
  | TokenType.GREATER_EQUAL => "GREATER_EQUAL"
  | TokenType.EQUAL => "EQUAL"
  | TokenType.LPAREN => "LPAREN"
  | TokenType.RPAREN => "RPAREN"
  | TokenType.LBRACE => "LBRACE"
  | TokenType.RBRACE => "RBRACE"
  | TokenType.COMMA => "COMMA"
  | TokenType.SEMICOLON => "SEMICOLON"
  | TokenType.EOF_TOKEN => "EOF"
  | TokenType.ERROR => "ERROR"
  end.

(** ** AST.hpp *)

(** [std::variant<double, std::string, bool, std::monostate>] of a literal. *)
Inductive LiteralValue : Set :=
  | LDouble (d : float)
  | LString (s : string)
  | LBool (b : bool)
  | LMonostate.

Local Unset Elimination Schemes.

Inductive Expr : Set :=
  | BinaryExpr (left : option Expr) (op : Token) (right : option Expr)
  | UnaryExpr (op : Token) (right : option Expr)
  | LiteralExpr (value : LiteralValue)
  | VariableExpr (name : Token)
  | AssignExpr (name : Token) (value : option Expr)
  | CallExpr (callee : option Expr) (paren : Token) (arguments : list (option Expr))
  | GroupingExpr (expression : option Expr).

Inductive Stmt : Set :=
  | ExpressionStmt (expression : option Expr)
  | LetStmt (name : Token) (initializer : option Expr)
  | FunctionStmt (name : Token) (params : list Token) (body : list (option Stmt))
  | IfStmt (condition : option Expr) (thenBranch elseBranch : option Stmt)
  | WhileStmt (condition : option Expr) (body : option Stmt)
  | ReturnStmt (keyword : Token) (value : option Expr)
  | PrintStmt (expression : option Expr)
  | BlockStmt (statements : list (option Stmt)).

Local Set Elimination Schemes.

Definition Program : Set := list (option Stmt).

(** ** IRGenerator.hpp: opcodes, values, chunks *)

Inductive OpCode : Set :=
  | OP_CONSTANT | OP_NIL | OP_TRUE | OP_FALSE
  | OP_ADD | OP_SUBTRACT | OP_MULTIPLY | OP_DIVIDE | OP_MODULO | OP_NEGATE
  | OP_EQUAL | OP_NOT_EQUAL | OP_LESS | OP_LESS_EQUAL | OP_GREATER | OP_GREATER_EQUAL
  | OP_NOT | OP_AND | OP_OR
  | OP_GET_LOCAL | OP_SET_LOCAL | OP_GET_GLOBAL | OP_SET_GLOBAL
  | OP_POP
  | OP_JUMP | OP_JUMP_IF_FALSE | OP_LOOP | OP_CALL | OP_RETURN
  | OP_PRINT.

(** [static_cast<int>(opcode)]: the position in the enumeration. *)
Definition opcode_int (op : OpCode) : Z :=
  match op with
  | OP_CONSTANT => 0 | OP_NIL => 1 | OP_TRUE => 2 | OP_FALSE => 3
  | OP_ADD => 4 | OP_SUBTRACT => 5 | OP_MULTIPLY => 6 | OP_DIVIDE => 7
  | OP_MODULO => 8 | OP_NEGATE => 9
  | OP_EQUAL => 10 | OP_NOT_EQUAL => 11 | OP_LESS => 12 | OP_LESS_EQUAL => 13
  | OP_GREATER => 14 | OP_GREATER_EQUAL => 15
  | OP_NOT => 16 | OP_AND => 17 | OP_OR => 18
  | OP_GET_LOCAL => 19 | OP_SET_LOCAL => 20 | OP_GET_GLOBAL => 21 | OP_SET_GLOBAL => 22
  | OP_POP => 23
  | OP_JUMP => 24 | OP_JUMP_IF_FALSE => 25 | OP_LOOP => 26 | OP_CALL => 27
  | OP_RETURN => 28
  | OP_PRINT => 29
  end.

Definition OpCode_eq_dec (a b : OpCode) : {a = b} + {a <> b}.
Proof. decide equality. Defined.

Module ValueType.
Inductive t : Set := NIL | BOOL | NUMBER | STRING.
End ValueType.

(** A runtime value: the tag and the variant payload of [struct Value] are
    built together by its four constructors, so they always agree. *)
Inductive Value : Set :=
  | VNil
  | VBool (b : bool)
  | VNumber (n : float)
  | VString (s : string).

Definition value_type (v : Value) : ValueType.t :=
  match v with
  | VNil => ValueType.NIL
  | VBool _ => ValueType.BOOL
  | VNumber _ => ValueType.NUMBER
  | VString _ => ValueType.STRING
  end.

Definition isBool (v : Value) : bool := match v with VBool _ => true | _ => false end.
Definition isNumber (v : Value) : bool := match v with VNumber _ => true | _ => false end.
Definition isString (v : Value) : bool := match v with VString _ => true | _ => false end.
Definition isNil (v : Value) : bool := match v with VNil => true | _ => false end.

Record Instruction : Set := mkInstruction {
  opcode : OpCode;
  operand : Z;
  constant : Value
}.

Record Chunk : Set := mkChunk {
  code : list Instruction;
  lines : list Z;
  constants : list Value
}.

Definition empty_chunk : Chunk := mkChunk [] [] [].

Module ChunkOps.

Definition write (op : OpCode) (ln : Z) (operand : Z) (c : Chunk) : Chunk :=
  mkChunk (code c ++ [mkInstruction op operand VNil]) (lines c ++ [ln]) (constants c).

Definition addConstant (value : Value) (c : Chunk) : Z * Chunk :=
  let c' := mkChunk (code c) (lines c) (constants c ++ [value]) in
  (size_t_sub (size (constants c')) 1, c').

Definition writeConstant (constant : Value) (ln : Z) (c : Chunk) : Chunk :=
  let '(index, c') := addConstant constant c in
  write OP_CONSTANT ln (to_u8 index) c'.

End ChunkOps.

Record Local : Set := mkLocal {
  local_name : string;
  depth : Z;
  isCaptured : bool
}.

(** ** IRGenerator.cpp *)

Module IRGen.

(** The fields of [class IRGenerator]. *)
Record IRGenerator : Set := mkIRGenerator {
  m_chunk : Chunk;
  m_locals : list Local;
  m_scopeDepth : Z;
  m_hadError : bool;
  m_error : string
}.


Definition with_chunk (c : Chunk) (g : IRGenerator) : IRGenerator :=
  mkIRGenerator c (m_locals g) (m_scopeDepth g) (m_hadError g) (m_error g).

Definition with_locals (l : list Local) (g : IRGenerator) : IRGenerator :=
  mkIRGenerator (m_chunk g) l (m_scopeDepth g) (m_hadError g) (m_error g).

Definition with_scopeDepth (d : Z) (g : IRGenerator) : IRGenerator :=
  mkIRGenerator (m_chunk g) (m_locals g) d (m_hadError g) (m_error g).

(** [IRGenerator::error] *)
Definition error (message : string) (g : IRGenerator) : IRGenerator :=
  mkIRGenerator (m_chunk g) (m_locals g) (m_scopeDepth g) true message.

(** [IRGenerator::emitByte] *)
Definition emitByte (op : OpCode) (operand : Z) (g : IRGenerator) : IRGenerator :=
  with_chunk (ChunkOps.write op 0 operand (m_chunk g)) g.

(** [IRGenerator::emitJump] *)
Definition emitJump (op : OpCode) (g : IRGenerator) : IRGenerator :=
  with_chunk (ChunkOps.write op 0 255 (m_chunk g)) g.

(** [IRGenerator::emitLoop] *)
Definition emitLoop (loopStart : Z) (g : IRGenerator) : IRGenerator :=
  let offset := size_t_sub (size (code (m_chunk g))) loopStart in
  if 255 <? offset then error "Loop body too large." g
  else with_chunk (ChunkOps.write OP_LOOP 0 (to_u8 offset) (m_chunk g)) g.

(** [code[offset].operand = v]; an offset out of range leaves the vector
    as it is (the generator only patches instructions it has emitted). *)
Fixpoint set_operand (cd : list Instruction) (offset : nat) (v : Z) : list Instruction :=
  match cd, offset with
  | [], _ => []
  | i :: rest, O => mkInstruction (opcode i) v (constant i) :: rest
  | i :: rest, S k => i :: set_operand rest k v
  end.

(** [IRGenerator::patchJump] *)
Definition patchJump (offset : Z) (g : IRGenerator) : IRGenerator :=
  let jump := size_t_sub (size_t_sub (size (code (m_chunk g))) 1) offset in
  if 255 <? jump then error "Jump too far." g
  else
    let c := m_chunk g in
    with_chunk (mkChunk (set_operand (code c) (Z.to_nat offset) (to_u8 jump))
                        (lines c) (constants c)) g.

(** [IRGenerator::beginScope] *)
Definition beginScope (g : IRGenerator) : IRGenerator :=
  with_scopeDepth (size_t_add (m_scopeDepth g) 1) g.

(** The loop of [IRGenerator::endScope]; every iteration removes one local,
    so [length (m_locals g)] iterations are enough. *)
Fixpoint endScope_loop (fuel : nat) (g : IRGenerator) : IRGenerator :=
  match fuel with
  | O => g
  | S k =>
      match back (m_locals g) with
      | None => g
      | Some l =>
          if m_scopeDepth g <? depth l then
            let g1 := emitByte OP_POP 0 g in
            endScope_loop k (with_locals (pop_back (m_locals g1)) g1)
          else g
      end
  end.

(** [IRGenerator::endScope] *)
Definition endScope (g : IRGenerator) : IRGenerator :=
  let g1 := with_scopeDepth (size_t_sub (m_scopeDepth g) 1) g in
  endScope_loop (List.length (m_locals g1)) g1.

(** The reverse scan of [declareVariable] over [rbegin .. rend]: [rl] is the
    locals vector read from its end. *)
Fixpoint declared_in_scope (rl : list Local) (scopeDepth : Z) (name : string) : bool :=
  match rl with
  | [] => false
  | it :: rest =>
      if negb (depth it =? scopeDepth) then false
      else if String.eqb (local_name it) name then true
      else declared_in_scope rest scopeDepth name
  end.

(** [IRGenerator::declareVariable] *)
Definition declareVariable (name : string) (g : IRGenerator) : IRGenerator :=
  if m_scopeDepth g =? 0 then g
  else if declared_in_scope (rev (m_locals g)) (m_scopeDepth g) name then
    error (String.append "Variable '"
             (String.append name "' already declared in this scope.")) g
  else with_locals (m_locals g ++ [mkLocal name (m_scopeDepth g) false]) g.

(** The scan of [resolveLocal]: [rl] is the locals vector read from its end
    and [i] the index of its first element. *)
Fixpoint resolve_from (rl : list Local) (i : Z) (name : string) : Z :=
  match rl with
  | [] => -1
  | l :: rest =>
      if String.eqb (local_name l) name then i else resolve_from rest (i - 1) name
  end.

(** [IRGenerator::resolveLocal]: [int i = static_cast<int>(m_locals.size())
    - 1], then the scan from [m_locals[i]] down to [m_locals[0]]. With fewer
    than [2 ^ 31] locals the cast changes nothing and the scan starts at the
    last local; from there on it starts at a truncated index, or not at all
    when that index is negative. (When the cast gives [INT_MIN] the [- 1]
    overflows [int], which C++ leaves undefined; here the scan does not
    start. The properties of the result are stated below [2 ^ 31] locals.) *)
Definition resolveLocal (name : string) (g : IRGenerator) : Z :=
  let i := to_int (size (m_locals g)) - 1 in
  resolve_from (rev (firstn (Z.to_nat (i + 1)) (m_locals g))) i name.

(** [m_locals.back().depth = m_scopeDepth] *)
Fixpoint set_back_depth (l : list Local) (d : Z) : list Local :=
  match l with
  | [] => []
  | [x] => [mkLocal (local_name x) d (isCaptured x)]
  | x :: rest => x :: set_back_depth rest d
  end.

(** [IRGenerator::markInitialized] *)
Definition markInitialized (g : IRGenerator) : IRGenerator :=
  match m_locals g with
  | [] => g
  | _ => with_locals (set_back_depth (m_locals g) (m_scopeDepth g)) g
  end.

(** The [switch] of [compileBinaryExpr], after both operands. *)
Definition emitBinaryOp (op : Token) (g : IRGenerator) : IRGenerator :=
  match tok_type op with
  | TokenType.PLUS => emitByte OP_ADD 0 g
  | TokenType.MINUS => emitByte OP_SUBTRACT 0 g
  | TokenType.STAR => emitByte OP_MULTIPLY 0 g
  | TokenType.SLASH => emitByte OP_DIVIDE 0 g
  | TokenType.PERCENT => emitByte OP_MODULO 0 g
  | TokenType.EQUAL_EQUAL => emitByte OP_EQUAL 0 g
  | TokenType.BANG_EQUAL => emitByte OP_NOT 0 (emitByte OP_EQUAL 0 g)
  | TokenType.LESS => emitByte OP_LESS 0 g
  | TokenType.LESS_EQUAL => emitByte OP_NOT 0 (emitByte OP_GREATER 0 g)
  | TokenType.GREATER => emitByte OP_GREATER 0 g
  | TokenType.GREATER_EQUAL => emitByte OP_NOT 0 (emitByte OP_LESS 0 g)
  | TokenType.AND => emitByte OP_AND 0 g
  | TokenType.OR => emitByte OP_OR 0 g
  | _ => error (String.append "Unknown binary operator: " (lexeme op)) g
  end.

(** The [switch] of [compileUnaryExpr], after the operand. *)
Definition emitUnaryOp (op : Token) (g : IRGenerator) : IRGenerator :=
  match tok_type op with
  | TokenType.MINUS => emitByte OP_NEGATE 0 g
  | TokenType.BANG => emitByte OP_NOT 0 g
  | _ => error (String.append "Unknown unary operator: " (lexeme op)) g
  end.

(** [IRGenerator::compileLiteralExpr] *)
Definition compileLiteralExpr (value : LiteralValue) (g : IRGenerator) : IRGenerator :=
  match value with
  | LDouble d => with_chunk (ChunkOps.writeConstant (VNumber d) 0 (m_chunk g)) g
  | LString s => with_chunk (ChunkOps.writeConstant (VString s) 0 (m_chunk g)) g
  | LBool true => emitByte OP_TRUE 0 g
  | LBool false => emitByte OP_FALSE 0 g
  | LMonostate => emitByte OP_NIL 0 g
  end.

(** [IRGenerator::compileVariableExpr] *)
Definition compileVariableExpr (name : Token) (g : IRGenerator) : IRGenerator :=
  let local := resolveLocal (lexeme name) g in
  if negb (local =? -1) then emitByte OP_GET_LOCAL (to_u8 local) g
  else error (String.append "Undefined variable: " (lexeme name)) g.

(** The part of [compileAssignExpr] after the value has been compiled. *)
Definition emitAssign (name : Token) (g : IRGenerator) : IRGenerator :=
  let local := resolveLocal (lexeme name) g in
  if negb (local =? -1) then emitByte OP_SET_LOCAL (to_u8 local) g
  else error (String.append "Undefined variable: " (lexeme name)) g.

(** [IRGenerator::compileExpr] on a non-null pointer, with the
    [compile*Expr] functions it dispatches to. *)
Fixpoint compileExprNode (expr : Expr) (g : IRGenerator) {struct expr} : IRGenerator :=
  let compileExpr (p : option Expr) (g : IRGenerator) : IRGenerator :=
    match p with
    | None => emitByte OP_NIL 0 g
    | Some e => compileExprNode e g
    end in
  match expr with
  | BinaryExpr l op r => emitBinaryOp op (compileExpr r (compileExpr l g))
  | UnaryExpr op r => emitUnaryOp op (compileExpr r g)
  | LiteralExpr v => compileLiteralExpr v g
  | VariableExpr name => compileVariableExpr name g
  | AssignExpr name value => emitAssign name (compileExpr value g)
  | CallExpr callee _ arguments =>
      let g1 := compileExpr callee g in
      let g2 := fold_left (fun g arg => compileExpr arg g) arguments g1 in
      emitByte OP_CALL (to_u8 (size arguments)) g2
  | GroupingExpr e => compileExpr e g
  end.

(** [IRGenerator::compileExpr] *)
Definition compileExpr (expr : option Expr) (g : IRGenerator) : IRGenerator :=
  match expr with
  | None => emitByte OP_NIL 0 g
  | Some e => compileExprNode e g
  end.

(** [IRGenerator::compileFunctionStmt]: only the name is used. *)
Definition compileFunctionStmt (name : Token) (params : list Token)
    (body : list (option Stmt)) (g : IRGenerator) : IRGenerator :=
  emitByte OP_NIL 0 (markInitialized (declareVariable (lexeme name) g)).

(** [IRGenerator::compileStmt] on a non-null pointer, with the
    [compile*Stmt] functions it dispatches to. *)
Fixpoint compileStmtNode (stmt : Stmt) (g : IRGenerator) {struct stmt} : IRGenerator :=
  let compileStmt (p : option Stmt) (g : IRGenerator) : IRGenerator :=
    match p with
    | None => g
    | Some s => compileStmtNode s g
    end in
  match stmt with
  | ExpressionStmt e => emitByte OP_POP 0 (compileExpr e g)
  | LetStmt name initializer =>
      let g1 := declareVariable (lexeme name) g in
      let g2 := match initializer with
                | Some _ => compileExpr initializer g1
                | None => emitByte OP_NIL 0 g1
                end in
      markInitialized g2
  | FunctionStmt name params body => compileFunctionStmt name params body g
  | IfStmt condition thenBranch elseBranch =>
      let g1 := emitJump OP_JUMP_IF_FALSE (compileExpr condition g) in
      let thenJump := size_t_sub (size (code (m_chunk g1))) 1 in
      let g2 := emitJump OP_JUMP (compileStmt thenBranch g1) in
      let elseJump := size_t_sub (size (code (m_chunk g2))) 1 in
      let g3 := patchJump thenJump g2 in
      let g4 := match elseBranch with
                | Some _ => compileStmt elseBranch g3
                | None => g3
                end in
      patchJump elseJump g4
  | WhileStmt condition body =>
      let loopStart := size (code (m_chunk g)) in
      let g1 := emitJump OP_JUMP_IF_FALSE (compileExpr condition g) in
      let exitJump := size_t_sub (size (code (m_chunk g1))) 1 in
      let g2 := emitLoop loopStart (compileStmt body g1) in
      patchJump exitJump g2
  | ReturnStmt _ value =>
      let g1 := match value with
                | Some _ => compileExpr value g
                | None => emitByte OP_NIL 0 g
                end in
      emitByte OP_RETURN 0 g1
  | PrintStmt e => emitByte OP_PRINT 0 (compileExpr e g)
  | BlockStmt statements =>
      endScope (fold_left (fun g s => compileStmt s g) statements (beginScope g))
  end.

(** [IRGenerator::compileStmt] *)
Definition compileStmt (stmt : option Stmt) (g : IRGenerator) : IRGenerator :=
  match stmt with
  | None => g
  | Some s => compileStmtNode s g
  end.

(** The state a top-level entry point starts from. *)
Definition reset (g : IRGenerator) : IRGenerator :=
  mkIRGenerator empty_chunk [] 0 false "".

(** The [for] loop of [IRGenerator::compile]: [inl g] when the loop ran to
    its end, [inr g] when it left through [return m_chunk]. *)
Fixpoint compile_loop (program : Program) (g : IRGenerator) : IRGenerator + IRGenerator :=
  match program with
  | [] => inl g
  | stmt :: rest =>
      let g1 := compileStmt stmt g in
      if m_hadError g1 then inr g1 else compile_loop rest g1
  end.

(** [IRGenerator::compile]: the returned chunk and the generator afterwards. *)
Definition compile (program : Program) (g : IRGenerator) : Chunk * IRGenerator :=
  match compile_loop program (beginScope (reset g)) with
  | inr g1 => (m_chunk g1, g1)
  | inl g1 =>
      let g2 := emitByte OP_RETURN 0 (endScope g1) in
      (m_chunk g2, g2)
  end.

(** [IRGenerator::compileExpression] *)
Definition compileExpression (expr : option Expr) (g : IRGenerator) : Chunk * IRGenerator :=
  let g1 := emitByte OP_RETURN 0 (endScope (compileExpr expr (beginScope (reset g)))) in
  (m_chunk g1, g1).

(** A default-constructed [IRGenerator]. *)
Definition new : IRGenerator := mkIRGenerator empty_chunk [] 0 false "".

End IRGen.

(** ** VM.hpp, VM.cpp *)

Module InterpretResult.
Inductive t : Set := OK | COMPILE_ERROR | RUNTIME_ERROR.
End InterpretResult.

(** [std::string] helpers used by [valueToString]. *)
Module Str.

(** [s.find(c)] *)
Fixpoint find (c : ascii) (s : string) : option nat :=
  match s with
  | EmptyString => None
  | String a rest =>
      if Ascii.eqb a c then Some O
      else match find c rest with Some i => Some (S i) | None => None end
  end.

(** [s.find_last_not_of(c)] *)
Fixpoint find_last_not_of (c : ascii) (s : string) : option nat :=
  match s with
  | EmptyString => None
  | String a rest =>
      match find_last_not_of c rest with
      | Some i => Some (S i)
      | None => if Ascii.eqb a c then None else Some O
      end
  end.

(** [s.erase(pos)]: keeps the first [pos] characters. *)
Definition erase (pos : nat) (s : string) : string := String.substring 0 pos s.

(** [s.back()] *)
Fixpoint back (s : string) : option ascii :=
  match s with
  | EmptyString => None
  | String a EmptyString => Some a
  | String _ rest => back rest
  end.

(** [s.pop_back()] *)
Fixpoint pop_back (s : string) : string :=
  match s with
  | EmptyString => EmptyString
  | String a EmptyString => EmptyString
  | String a rest => String a (pop_back rest)
  end.

End Str.

Module VMOps.

(** The fields of [class VM]. [m_chunk] is assigned on entry to [interpret]
    and read nowhere else: it is the [chunk] argument of the functions below.
    [m_output] is the text written so far to the stream the VM prints to, one
    entry per [<< ... << std::endl]. *)
Record VM : Set := mkVM {
  m_stack : list Value;
  m_ip : Z;
  m_error : string;
  m_output : list string
}.

Section WithLibrary.

(** [std::fmod] and [std::format("{}", double)]. *)
Variable fmod : float -> float -> float.
Variable format_double : float -> string.

Definition with_stack (s : list Value) (vm : VM) : VM :=
  mkVM s (m_ip vm) (m_error vm) (m_output vm).

Definition with_ip (ip : Z) (vm : VM) : VM :=
  mkVM (m_stack vm) ip (m_error vm) (m_output vm).

(** [VM::runtimeError] *)
Definition runtimeError (message : string) (vm : VM) : VM :=
  mkVM (m_stack vm) (m_ip vm) message (m_output vm).

(** [VM::push] *)
Definition push (value : Value) (vm : VM) : VM := with_stack (value :: m_stack vm) vm.

(** [VM::pop]: on an empty stack the message is stored and a nil value is
    returned to the caller. *)
Definition pop (vm : VM) : Value * VM :=
  match m_stack vm with
  | [] => (VNil, runtimeError "Stack underflow." vm)
  | value :: rest => (value, with_stack rest vm)
  end.

(** [VM::peek] *)
Definition peek (vm : VM) : Value :=
  match m_stack vm with
  | [] => VNil
  | top :: _ => top
  end.

(** [VM::readInstruction]. [m_ip] is unsigned, so below the size of the
    code it is a valid index. *)
Definition readInstruction (chunk : Chunk) (vm : VM) : Instruction * VM :=
  if size (code chunk) <=? m_ip vm then (mkInstruction OP_RETURN 0 VNil, vm)
  else
    match at_index (code chunk) (m_ip vm) with
    | Some i => (i, with_ip (size_t_add (m_ip vm) 1) vm)
    | None => (mkInstruction OP_RETURN 0 VNil, vm)
    end.

(** [VM::isFalsey] *)
Definition isFalsey (value : Value) : bool :=
  match value with
  | VNil => true
  | VBool b => negb b
  | VNumber n => PrimFloat.eqb n 0%float
  | VString _ => false
  end.

(** [VM::valuesEqual] *)
Definition valuesEqual (a b : Value) : bool :=
  match a, b with
  | VNil, VNil => true
  | VBool x, VBool y => Bool.eqb x y
  | VNumber x, VNumber y => PrimFloat.eqb x y
  | VString x, VString y => String.eqb x y
  | _, _ => false
  end.

(** The number case of [VM::valueToString]. *)
Definition numberToString (n : float) : string :=
  let s := format_double n in
  match Str.find "."%char s with
  | None => s
  | Some dot =>
      let s1 := match Str.find_last_not_of "0"%char s with
                | Some last_non_zero =>
                    if Nat.ltb dot last_non_zero then Str.erase (S last_non_zero) s else s
                | None => s
                end in
      match Str.back s1 with
      | Some "."%char => Str.pop_back s1
      | _ => s1
      end
  end.

(** [VM::valueToString] *)
Definition valueToString (value : Value) : string :=
  match value with
  | VNil => "nil"
  | VBool b => if b then "true" else "false"
  | VNumber n => numberToString n
  | VString s => s
  end.

(** What one turn of the [for (;;)] loop of [interpret] does. *)
Inductive Step : Set :=
  | Continue (vm : VM)                         (* [break]: next turn *)
  | Return (r : InterpretResult.t) (vm : VM)   (* [return r] *)
  | Undefined (vm : VM).                       (* constant index out of range *)

(** The operand check shared by [-], [*], [<] and [>]. *)
Definition numericBinary (f : float -> float -> Value) (vm : VM) : Step :=
  let '(b, vm1) := pop vm in
  let '(a, vm2) := pop vm1 in
  match a, b with
  | VNumber x, VNumber y => Continue (push (f x y) vm2)
  | _, _ => Return InterpretResult.RUNTIME_ERROR (runtimeError "Operands must be numbers." vm2)
  end.

(** One turn of the loop: [readInstruction] and the [switch]. *)
Definition step (chunk : Chunk) (vm : VM) : Step :=
  let '(instruction, vm) := readInstruction chunk vm in
  match opcode instruction with
  | OP_CONSTANT =>
      match at_index (constants chunk) (operand instruction) with
      | Some v => Continue (push v vm)
      | None => Undefined vm
      end
  | OP_NIL => Continue (push VNil vm)
  | OP_TRUE => Continue (push (VBool true) vm)
  | OP_FALSE => Continue (push (VBool false) vm)
  | OP_ADD =>
      let '(b, vm1) := pop vm in
      let '(a, vm2) := pop vm1 in
      match a, b with
      | VString x, VString y => Continue (push (VString (String.append x y)) vm2)
      | VNumber x, VNumber y => Continue (push (VNumber (PrimFloat.add x y)) vm2)
      | _, _ =>
          Return InterpretResult.RUNTIME_ERROR
            (runtimeError "Operands must be two numbers or two strings." vm2)
      end
  | OP_SUBTRACT => numericBinary (fun x y => VNumber (PrimFloat.sub x y)) vm
  | OP_MULTIPLY => numericBinary (fun x y => VNumber (PrimFloat.mul x y)) vm
  | OP_DIVIDE =>
      let '(b, vm1) := pop vm in
      let '(a, vm2) := pop vm1 in
      match a, b with
      | VNumber x, VNumber y =>
          if PrimFloat.eqb y 0%float then
            Return InterpretResult.RUNTIME_ERROR (runtimeError "Division by zero." vm2)
          else Continue (push (VNumber (PrimFloat.div x y)) vm2)
      | _, _ =>
          Return InterpretResult.RUNTIME_ERROR (runtimeError "Operands must be numbers." vm2)
      end
  | OP_MODULO =>
      let '(b, vm1) := pop vm in
      let '(a, vm2) := pop vm1 in
      match a, b with
      | VNumber x, VNumber y =>
          if PrimFloat.eqb y 0%float then
            Return InterpretResult.RUNTIME_ERROR (runtimeError "Modulo by zero." vm2)
          else Continue (push (VNumber (fmod x y)) vm2)
      | _, _ =>
          Return InterpretResult.RUNTIME_ERROR (runtimeError "Operands must be numbers." vm2)
      end
  | OP_NEGATE =>
      let '(value, vm1) := pop vm in
      match value with
      | VNumber x => Continue (push (VNumber (PrimFloat.opp x)) vm1)
      | _ =>
          Return InterpretResult.RUNTIME_ERROR (runtimeError "Operand must be a number." vm1)
      end
  | OP_EQUAL =>
      let '(b, vm1) := pop vm in
      let '(a, vm2) := pop vm1 in
      Continue (push (VBool (valuesEqual a b)) vm2)
  | OP_LESS => numericBinary (fun x y => VBool (PrimFloat.ltb x y)) vm
  | OP_GREATER => numericBinary (fun x y => VBool (PrimFloat.ltb y x)) vm
  | OP_NOT =>
      let '(value, vm1) := pop vm in
      Continue (push (VBool (isFalsey value)) vm1)
  | OP_AND =>
      let '(b, vm1) := pop vm in
      let '(a, vm2) := pop vm1 in
      Continue (push (VBool (negb (isFalsey a) && negb (isFalsey b))) vm2)
  | OP_OR =>
      let '(b, vm1) := pop vm in
      let '(a, vm2) := pop vm1 in
      Continue (push (VBool (negb (isFalsey a) || negb (isFalsey b))) vm2)
  | OP_GET_LOCAL =>
      Return InterpretResult.RUNTIME_ERROR
        (runtimeError "Local variables not fully implemented." vm)
  | OP_SET_LOCAL =>
      Return InterpretResult.RUNTIME_ERROR
        (runtimeError "Local variables not fully implemented." vm)
  | OP_POP => let '(_, vm1) := pop vm in Continue vm1
  | OP_JUMP => Continue (with_ip (size_t_add (m_ip vm) (operand instruction)) vm)
  | OP_JUMP_IF_FALSE =>
      let value := peek vm in
      if isFalsey value then Continue (with_ip (size_t_add (m_ip vm) (operand instruction)) vm)
      else Continue vm
  | OP_LOOP => Continue (with_ip (size_t_sub (m_ip vm) (operand instruction)) vm)
  | OP_CALL =>
      Return InterpretResult.RUNTIME_ERROR
        (runtimeError "Function calls not fully implemented." vm)
  | OP_RETURN => Return InterpretResult.OK vm
  | OP_PRINT =>
      let '(value, vm1) := pop vm in
      Continue (mkVM (m_stack vm1) (m_ip vm1) (m_error vm1)
                     (m_output vm1 ++ [valueToString value]))
  | OP_NOT_EQUAL | OP_LESS_EQUAL | OP_GREATER_EQUAL | OP_GET_GLOBAL | OP_SET_GLOBAL =>
      Return InterpretResult.RUNTIME_ERROR
        (runtimeError (String.append "Unknown opcode: "
                         (format_int (opcode_int (opcode instruction)))) vm)
  end.

(** How a call of [interpret] ends. *)
Inductive Outcome : Set :=
  | Finished (r : InterpretResult.t) (vm : VM)
  | UndefinedBehaviour (vm : VM)
  | OutOfFuel (vm : VM).

(** The [for (;;)] loop, for at most [fuel] turns. *)
Fixpoint run (fuel : nat) (chunk : Chunk) (vm : VM) : Outcome :=
  match fuel with
  | O => OutOfFuel vm
  | S k =>
      match step chunk vm with
      | Continue vm1 => run k chunk vm1
      | Return r vm1 => Finished r vm1
      | Undefined vm1 => UndefinedBehaviour vm1
      end
  end.

(** The entry of [interpret]: [m_ip = 0], [m_error.clear()], empty stack. *)
Definition reset (vm : VM) : VM := mkVM [] 0 "" (m_output vm).

(** [VM::interpret] *)
Definition interpret (fuel : nat) (chunk : Chunk) (vm : VM) : Outcome :=
  run fuel chunk (reset vm).

End WithLibrary.

(** A default-constructed [VM] printing to a fresh stream. *)
Definition new : VM := mkVM [] 0 "" [].

End VMOps.

(** ** Lexer.hpp, Lexer.cpp *)

Module Lexer.

(** The fields of [class Lexer]. *)
Record State : Set := mkState {
  m_source : string;
  m_start : Z;
  m_current : Z;
  m_line : Z;
  m_column : Z;
  m_tokens : list Token
}.

(** The keyword table. *)
Definition KEYWORDS : list (string * TokenType.t) :=
  [ ("let", TokenType.LET); ("fn", TokenType.FN); ("if", TokenType.IF);
    ("else", TokenType.ELSE); ("while", TokenType.WHILE);
    ("return", TokenType.RETURN); ("true", TokenType.TRUE);
    ("false", TokenType.FALSE); ("print", TokenType.PRINT) ].

Fixpoint find_keyword (table : list (string * TokenType.t)) (text : string)
  : option TokenType.t :=
  match table with
  | [] => None
  | (k, t) :: rest => if String.eqb k text then Some t else find_keyword rest text
  end.

(** [std::isalpha], [std::isdigit] and [std::isalnum] in the "C" locale. *)
Definition isdigit (c : ascii) : bool :=
  let n := nat_of_ascii c in (Nat.leb 48 n && Nat.leb n 57)%bool.
Definition isalpha (c : ascii) : bool :=
  let n := nat_of_ascii c in
  ((Nat.leb 65 n && Nat.leb n 90) || (Nat.leb 97 n && Nat.leb n 122))%bool.
Definition isalnum (c : ascii) : bool := (isalpha c || isdigit c)%bool.

Definition NUL : ascii := "000"%char.
Definition LF : ascii := "010"%char.
Definition CR : ascii := "013"%char.
Definition TAB : ascii := "009"%char.
Definition DQUOTE : ascii := "034"%char.

(** [m_source[i]] *)
Definition char_at (source : string) (i : Z) : ascii :=
  match String.get (Z.to_nat i) source with
  | Some c => c
  | None => NUL
  end.

(** [m_source.substr(pos, len)] *)
Definition substr (source : string) (pos len : Z) : string :=
  String.substring (Z.to_nat pos) (Z.to_nat len) source.

Definition source_size (lx : State) : Z := Z.of_nat (String.length (m_source lx)).

Definition isAtEnd (lx : State) : bool := source_size lx <=? m_current lx.

Definition advance (lx : State) : ascii * State :=
  (char_at (m_source lx) (m_current lx),
   mkState (m_source lx) (m_start lx) (m_current lx + 1) (m_line lx)
           (m_column lx + 1) (m_tokens lx)).

Definition peek (lx : State) : ascii :=
  if isAtEnd lx then NUL else char_at (m_source lx) (m_current lx).

Definition peekNext (lx : State) : ascii :=
  if source_size lx <=? m_current lx + 1 then NUL
  else char_at (m_source lx) (m_current lx + 1).

(** [Lexer::match] *)
Definition match_ (expected : ascii) (lx : State) : bool * State :=
  if (isAtEnd lx || negb (Ascii.eqb (char_at (m_source lx) (m_current lx)) expected))%bool
  then (false, lx)
  else (true, mkState (m_source lx) (m_start lx) (m_current lx + 1) (m_line lx)
                      (m_column lx + 1) (m_tokens lx)).

(** The [m_line++; m_column = 1;] of a line break. *)
Definition newline (lx : State) : State :=
  mkState (m_source lx) (m_start lx) (m_current lx) (m_line lx + 1) 1 (m_tokens lx).

(** [Lexer::skipWhitespace]; every turn consumes one character. *)
Fixpoint skipWhitespace (fuel : nat) (lx : State) : State :=
  match fuel with
  | O => lx
  | S k =>
      if isAtEnd lx then lx
      else
        let c := peek lx in
        if (Ascii.eqb c " " || Ascii.eqb c CR || Ascii.eqb c TAB)%bool
        then skipWhitespace k (snd (advance lx))
        else if Ascii.eqb c LF then skipWhitespace k (snd (advance (newline lx)))
        else lx
  end.

(** The loop of [Lexer::skipComment]. *)
Fixpoint skipComment_loop (fuel : nat) (lx : State) : State :=
  match fuel with
  | O => lx
  | S k =>
      if (negb (isAtEnd lx) && negb (Ascii.eqb (peek lx) LF))%bool
      then skipComment_loop k (snd (advance lx))
      else lx
  end.

(** [Lexer::skipComment] *)
Definition skipComment (fuel : nat) (lx : State) : State :=
  if (Ascii.eqb (peek lx) "/" && Ascii.eqb (peekNext lx) "/")%bool
  then skipComment_loop fuel lx
  else lx.

(** [Lexer::makeToken], all four overloads. *)
Definition makeToken (type : TokenType.t) (lit : TokenLiteral) (lx : State) : Token :=
  mkToken type (substr (m_source lx) (m_start lx) (m_current lx - m_start lx))
          (m_line lx) (m_column lx) lit.

(** [Lexer::errorToken] *)
Definition errorToken (message : string) (lx : State) : Token :=
  mkToken TokenType.ERROR message (m_line lx) (m_column lx) LitNone.

Section WithLibrary.

(** [std::stod]: the [double] it returns, or [None] when it throws
    [std::out_of_range] (a literal outside the range of [double]). Nothing in
    the repository catches that exception, so a function that meets it does
    not return: its result is [None] too. *)
Variable stod : string -> option float.

(** [while (std::isalnum(peek()) || peek() == '_') advance();] *)
Fixpoint identifier_loop (fuel : nat) (lx : State) : State :=
  match fuel with
  | O => lx
  | S k =>
      if (isalnum (peek lx) || Ascii.eqb (peek lx) "_")%bool
      then identifier_loop k (snd (advance lx))
      else lx
  end.

(** [Lexer::scanIdentifier] *)
Definition scanIdentifier (fuel : nat) (lx : State) : Token * State :=
  let lx := identifier_loop fuel lx in
  let text := substr (m_source lx) (m_start lx) (m_current lx - m_start lx) in
  match find_keyword KEYWORDS text with
  | Some t => (makeToken t LitNone lx, lx)
  | None => (makeToken TokenType.IDENTIFIER LitNone lx, lx)
  end.

(** [while (std::isdigit(peek())) advance();] *)
Fixpoint digits_loop (fuel : nat) (lx : State) : State :=
  match fuel with
  | O => lx
  | S k => if isdigit (peek lx) then digits_loop k (snd (advance lx)) else lx
  end.

(** [Lexer::scanNumber]; [None] when [std::stod] throws. *)
Definition scanNumber (fuel : nat) (lx : State) : option (Token * State) :=
  let lx := digits_loop fuel lx in
  let lx := if (Ascii.eqb (peek lx) "." && isdigit (peekNext lx))%bool
            then digits_loop fuel (snd (advance lx))
            else lx in
  let numStr := substr (m_source lx) (m_start lx) (m_current lx - m_start lx) in
  match stod numStr with
  | Some value => Some (makeToken TokenType.NUMBER (LitDouble value) lx, lx)
  | None => None
  end.

(** The loop of [Lexer::scanString], building [value]. *)
Fixpoint string_loop (fuel : nat) (value : string) (lx : State) : string * State :=
  match fuel with
  | O => (value, lx)
  | S k =>
      if (negb (Ascii.eqb (peek lx) DQUOTE) && negb (isAtEnd lx))%bool then
        let lx := if Ascii.eqb (peek lx) LF then newline lx else lx in
        let '(c, lx) := advance lx in
        string_loop k (String.append value (String c EmptyString)) lx
      else (value, lx)
  end.

(** [Lexer::scanString] *)
Definition scanString (fuel : nat) (lx : State) : Token * State :=
  let '(value, lx) := string_loop fuel EmptyString lx in
  if isAtEnd lx then (errorToken "Unterminated string" lx, lx)
  else
    let lx := snd (advance lx) in
    (makeToken TokenType.STRING (LitString value) lx, lx).

(** A two-character operator: [if (match('=')) return a; return b;]. *)
Definition withEquals (a : State -> Token) (b : State -> Token) (lx : State)
  : Token * State :=
  let '(m, lx1) := match_ "=" lx in
  if m then (a lx1, lx1) else (b lx1, lx1).

(** [Lexer::scanToken]; [None] when [scanNumber] throws. *)
Definition scanToken (fuel : nat) (lx : State) : option (Token * State) :=
  let lx := skipWhitespace fuel lx in
  let lx := skipComment fuel lx in
  let lx := skipWhitespace fuel lx in
  let lx := mkState (m_source lx) (m_current lx) (m_current lx) (m_line lx)
                    (m_column lx) (m_tokens lx) in
  if isAtEnd lx then Some (makeToken TokenType.EOF_TOKEN LitNone lx, lx)
  else
    let '(c, lx) := advance lx in
    if (isalpha c || Ascii.eqb c "_")%bool then Some (scanIdentifier fuel lx)
    else if isdigit c then scanNumber fuel lx
    else if Ascii.eqb c DQUOTE then Some (scanString fuel lx)
    else if Ascii.eqb c "(" then Some (makeToken TokenType.LPAREN LitNone lx, lx)
    else if Ascii.eqb c ")" then Some (makeToken TokenType.RPAREN LitNone lx, lx)
    else if Ascii.eqb c "{" then Some (makeToken TokenType.LBRACE LitNone lx, lx)
    else if Ascii.eqb c "}" then Some (makeToken TokenType.RBRACE LitNone lx, lx)
    else if Ascii.eqb c "," then Some (makeToken TokenType.COMMA LitNone lx, lx)
    else if Ascii.eqb c ";" then Some (makeToken TokenType.SEMICOLON LitNone lx, lx)
    else if Ascii.eqb c "+" then Some (makeToken TokenType.PLUS LitNone lx, lx)
    else if Ascii.eqb c "-" then Some (makeToken TokenType.MINUS LitNone lx, lx)
    else if Ascii.eqb c "*" then Some (makeToken TokenType.STAR LitNone lx, lx)
    else if Ascii.eqb c "/" then Some (makeToken TokenType.SLASH LitNone lx, lx)
    else if Ascii.eqb c "%" then Some (makeToken TokenType.PERCENT LitNone lx, lx)
    else if Ascii.eqb c "=" then
      Some (withEquals (makeToken TokenType.EQUAL_EQUAL LitNone)
                       (makeToken TokenType.EQUAL LitNone) lx)
    else if Ascii.eqb c "!" then
      Some (withEquals (makeToken TokenType.BANG_EQUAL LitNone)
                       (errorToken "Unexpected '!' without '='") lx)
    else if Ascii.eqb c "<" then
      Some (withEquals (makeToken TokenType.LESS_EQUAL LitNone)
                       (makeToken TokenType.LESS LitNone) lx)
    else if Ascii.eqb c ">" then
      Some (withEquals (makeToken TokenType.GREATER_EQUAL LitNone)
                       (makeToken TokenType.GREATER LitNone) lx)
    else Some (errorToken (String.append "Unexpected character: "
                                         (String c EmptyString)) lx, lx).

Definition push_token (t : Token) (lx : State) : State :=
  mkState (m_source lx) (m_start lx) (m_current lx) (m_line lx) (m_column lx)
          (m_tokens lx ++ [t]).

(** The [while (!isAtEnd())] loop of [Lexer::tokenize]. Every turn consumes
    at least one character, so one turn per character is enough. [None] when
    a [scanToken] throws. *)
Fixpoint tokenize_loop (fuel : nat) (scanFuel : nat) (lx : State) : option State :=
  match fuel with
  | O => Some lx
  | S k =>
      if isAtEnd lx then Some lx
      else
        let lx := mkState (m_source lx) (m_current lx) (m_current lx) (m_line lx)
                          (m_column lx) (m_tokens lx) in
        match scanToken scanFuel lx with
        | None => None
        | Some (token, lx) =>
            let lx := if negb (TokenType.eqb (tok_type token) TokenType.ERROR)
                      then push_token token lx else lx in
            tokenize_loop k scanFuel lx
        end
  end.

(** [Lexer::tokenize]: the returned vector and the lexer afterwards; [None]
    when the exception of [std::stod] leaves it. *)
Definition tokenize (lx : State) : option (list Token * State) :=
  let n := String.length (m_source lx) in
  let lx := mkState (m_source lx) 0 0 1 1 [] in
  match tokenize_loop n n lx with
  | None => None
  | Some lx =>
      let lx := push_token (makeToken TokenType.EOF_TOKEN LitNone lx) lx in
      Some (m_tokens lx, lx)
  end.

(** [Lexer::nextToken]: the token and the lexer afterwards; [None] when the
    exception of [std::stod] leaves it. The loops of [scanToken] read each
    character at most once, so one turn per character of the text is
    enough. *)
Definition nextToken (lx : State) : option (Token * State) :=
  if isAtEnd lx then Some (makeToken TokenType.EOF_TOKEN LitNone lx, lx)
  else
    let lx := mkState (m_source lx) (m_current lx) (m_current lx) (m_line lx)
                      (m_column lx) (m_tokens lx) in
    scanToken (String.length (m_source lx)) lx.

(** [Lexer::hasMore] *)
Definition hasMore (lx : State) : bool := negb (isAtEnd lx).

End WithLibrary.

(** [Lexer::Lexer(std::string source)] *)
Definition new (source : string) : State := mkState source 0 0 1 1 [].

End Lexer.

(** ** Parser.hpp, Parser.cpp *)

Module Parser.

(** [class ParseError] *)
Record ParseError : Set := mkParseError {
  what : string;
  err_line : Z;
  err_column : Z
}.

(** How a parsing function ends, with the value of [m_current] it leaves:
    a normal return, a thrown [ParseError], or no answer (a token read
    outside the vector, or not enough fuel). *)
Inductive Result (A : Type) : Type :=
  | Ok (a : A) (current : Z)
  | Throw (e : ParseError) (current : Z)
  | Stuck.
Arguments Ok {A}.
Arguments Throw {A}.
Arguments Stuck {A}.

Definition P (A : Type) : Type := Z -> Result A.

Definition ret {A : Type} (a : A) : P A := fun cur => Ok a cur.

Definition bind {A B : Type} (c : P A) (k : A -> P B) : P B :=
  fun cur =>
    match c cur with
    | Ok a cur1 => k a cur1
    | Throw e cur1 => Throw e cur1
    | Stuck => Stuck
    end.

Definition throw {A : Type} (e : ParseError) : P A := fun cur => Throw e cur.
Definition stuck {A : Type} : P A := fun _ => Stuck.

Notation "x <- c ;; k" := (bind c (fun x => k))
  (at level 61, c at next level, right associativity).
Notation "c ;;; k" := (bind c (fun _ => k))
  (at level 61, right associativity).

Section WithTokens.

(** [const std::vector<Token>& m_tokens] *)
Variable m_tokens : list Token.

(** [Parser::peek] *)
Definition peek : P Token :=
  fun cur => match at_index m_tokens cur with
             | Some t => Ok t cur
             | None => Stuck
             end.

(** [Parser::previous] *)
Definition previous : P Token :=
  fun cur => match at_index m_tokens (size_t_sub cur 1) with
             | Some t => Ok t cur
             | None => Stuck
             end.

(** [Parser::isAtEnd] *)
Definition isAtEnd : P bool :=
  t <- peek ;; ret (TokenType.eqb (tok_type t) TokenType.EOF_TOKEN).

(** [Parser::check] *)
Definition check (type : TokenType.t) : P bool :=
  e <- isAtEnd ;;
  if e then ret false
  else t <- peek ;; ret (TokenType.eqb (tok_type t) type).

(** [Parser::advance] *)
Definition advance : P Token :=
  e <- isAtEnd ;;
  (if e then ret tt else fun cur => Ok tt (cur + 1)) ;;;
  previous.

(** [Parser::match] *)
Fixpoint match_ (types : list TokenType.t) : P bool :=
  match types with
  | [] => ret false
  | type :: rest =>
      c <- check type ;;
      if c then advance ;;; ret true else match_ rest
  end.

(** [Parser::error] *)
Definition error (token : Token) (message : string) : ParseError :=
  mkParseError message (line token) (column token).

(** [Parser::consume] *)
Definition consume (type : TokenType.t) (message : string) : P Token :=
  c <- check type ;;
  if c then advance
  else t <- peek ;; throw (error t message).

(** The loop of [Parser::synchronize]. *)
Fixpoint synchronize_loop (fuel : nat) : P unit :=
  match fuel with
  | O => stuck
  | S k =>
      e <- isAtEnd ;;
      if e then ret tt
      else
        p <- previous ;;
        if TokenType.eqb (tok_type p) TokenType.SEMICOLON then ret tt
        else
          t <- peek ;;
          match tok_type t with
          | TokenType.FN | TokenType.LET | TokenType.IF | TokenType.WHILE
          | TokenType.RETURN | TokenType.PRINT => ret tt
          | _ => advance ;;; synchronize_loop k
          end
  end.

(** [Parser::synchronize] *)
Definition synchronize (fuel : nat) : P unit :=
  advance ;;; synchronize_loop fuel.

(** *** Expressions *)

(** [Parser::primary] *)
Definition primary (expression : P Expr) : P Expr :=
  m <- match_ [TokenType.FALSE] ;;
  if m then ret (LiteralExpr (LBool false)) else
  m <- match_ [TokenType.TRUE] ;;
  if m then ret (LiteralExpr (LBool true)) else
  m <- match_ [TokenType.NUMBER] ;;
  if m then
    num <- previous ;;
    match literal num with
    | LitDouble d => ret (LiteralExpr (LDouble d))
    | _ => ret (LiteralExpr (LDouble 0%float))
    end
  else
  m <- match_ [TokenType.STRING] ;;
  if m then
    str <- previous ;;
    match literal str with
    | LitString v => ret (LiteralExpr (LString v))
    | _ => ret (LiteralExpr (LString EmptyString))
    end
  else
  m <- match_ [TokenType.LPAREN] ;;
  if m then
    expr <- expression ;;
    consume TokenType.RPAREN "Expect ')' after expression." ;;;
    ret (GroupingExpr (Some expr))
  else
  m <- match_ [TokenType.IDENTIFIER] ;;
  if m then name <- previous ;; ret (VariableExpr name)
  else t <- peek ;; throw (error t "Expect expression.").

(** The [do ... while (match({COMMA}))] loop of [Parser::finishCall]. *)
Fixpoint arguments_loop (expression : P Expr) (fuel : nat)
    (arguments : list (option Expr)) : P (list (option Expr)) :=
  match fuel with
  | O => stuck
  | S k =>
      (if 255 <=? size arguments
       then t <- peek ;; throw (error t "Can't have more than 255 arguments.")
       else ret tt) ;;;
      arg <- expression ;;
      let arguments := arguments ++ [Some arg] in
      m <- match_ [TokenType.COMMA] ;;
      if m then arguments_loop expression k arguments else ret arguments
  end.

(** [Parser::finishCall] *)
Definition finishCall (expression : P Expr) (fuel : nat) (callee : Expr) : P Expr :=
  c <- check TokenType.RPAREN ;;
  arguments <- (if negb c then arguments_loop expression fuel [] else ret []) ;;
  paren <- consume TokenType.RPAREN "Expect ')' after arguments." ;;
  ret (CallExpr (Some callee) paren arguments).

(** The [while (true)] loop of [Parser::call]. *)
Fixpoint call_loop (expression : P Expr) (fuel : nat) (expr : Expr) : P Expr :=
  match fuel with
  | O => stuck
  | S k =>
      m <- match_ [TokenType.LPAREN] ;;
      if m then
        expr <- finishCall expression k expr ;;
        call_loop expression k expr
      else ret expr
  end.

(** [Parser::call] *)
Definition call (expression : P Expr) (fuel : nat) : P Expr :=
  expr <- primary expression ;;
  call_loop expression fuel expr.

(** [Parser::unary] *)
Fixpoint unary (expression : P Expr) (fuel : nat) : P Expr :=
  match fuel with
  | O => stuck
  | S k =>
      m <- match_ [TokenType.BANG; TokenType.MINUS] ;;
      if m then
        op <- previous ;;
        right <- unary expression k ;;
        ret (UnaryExpr op (Some right))
      else call expression k
  end.

(** The loop shared by the left-associative binary levels:
    [while (match(ops)) { op = previous(); right = next(); expr = Binary }]. *)
Fixpoint binary_loop (next : P Expr) (ops : list TokenType.t) (fuel : nat)
    (expr : Expr) : P Expr :=
  match fuel with
  | O => stuck
  | S k =>
      m <- match_ ops ;;
      if m then
        op <- previous ;;
        right <- next ;;
        binary_loop next ops k (BinaryExpr (Some expr) op (Some right))
      else ret expr
  end.

Definition binary_level (next : P Expr) (ops : list TokenType.t) (fuel : nat) : P Expr :=
  expr <- next ;; binary_loop next ops fuel expr.

(** [Parser::factor] *)
Definition factor (expression : P Expr) (fuel : nat) : P Expr :=
  binary_level (unary expression fuel)
    [TokenType.SLASH; TokenType.STAR; TokenType.PERCENT] fuel.

(** [Parser::term] *)
Definition term (expression : P Expr) (fuel : nat) : P Expr :=
  binary_level (factor expression fuel) [TokenType.MINUS; TokenType.PLUS] fuel.

(** [Parser::comparison] *)
Definition comparison (expression : P Expr) (fuel : nat) : P Expr :=
  binary_level (term expression fuel)
    [TokenType.GREATER; TokenType.GREATER_EQUAL; TokenType.LESS; TokenType.LESS_EQUAL]
    fuel.

(** [Parser::equality] *)
Definition equality (expression : P Expr) (fuel : nat) : P Expr :=
  binary_level (comparison expression fuel)
    [TokenType.BANG_EQUAL; TokenType.EQUAL_EQUAL] fuel.

(** [Parser::logicalAnd] *)
Definition logicalAnd (expression : P Expr) (fuel : nat) : P Expr :=
  binary_level (equality expression fuel) [TokenType.AND] fuel.

(** [Parser::logicalOr] *)
Definition logicalOr (expression : P Expr) (fuel : nat) : P Expr :=
  binary_level (logicalAnd expression fuel) [TokenType.OR] fuel.

(** [Parser::assignment]; [expression()] is [assignment()]. *)
Fixpoint assignment (fuel : nat) : P Expr :=
  match fuel with
  | O => stuck
  | S k =>
      expr <- logicalOr (assignment k) k ;;
      m <- match_ [TokenType.EQUAL] ;;
      if m then
        equals <- previous ;;
        value <- assignment k ;;
        match expr with
        | VariableExpr name => ret (AssignExpr name (Some value))
        | _ => throw (error equals "Invalid assignment target.")
        end
      else ret expr
  end.

(** [Parser::expression] *)
Definition expression (fuel : nat) : P Expr := assignment fuel.

(** *** Statements *)

(** [Parser::letDeclaration] *)
Definition letDeclaration (fuel : nat) : P Stmt :=
  name <- consume TokenType.IDENTIFIER "Expect variable name after 'let'." ;;
  m <- match_ [TokenType.EQUAL] ;;
  initializer <- (if m then e <- expression fuel ;; ret (Some e) else ret None) ;;
  consume TokenType.SEMICOLON "Expect ';' after variable declaration." ;;;
  ret (LetStmt name initializer).

(** The [do ... while (match({COMMA}))] loop of [functionDeclaration]. *)
Fixpoint params_loop (fuel : nat) (params : list Token) : P (list Token) :=
  match fuel with
  | O => stuck
  | S k =>
      (if 255 <=? size params
       then t <- peek ;; throw (error t "Can't have more than 255 parameters.")
       else ret tt) ;;;
      p <- consume TokenType.IDENTIFIER "Expect parameter name." ;;
      let params := params ++ [p] in
      m <- match_ [TokenType.COMMA] ;;
      if m then params_loop k params else ret params
  end.

(** [while (!check(RBRACE) && !isAtEnd()) { stmt = declaration(); ... }],
    the loop of a function body and of a block. [std::make_unique] never
    returns null, so every statement is kept. *)
Fixpoint statements_loop (declaration : P Stmt) (fuel : nat)
    (statements : list (option Stmt)) : P (list (option Stmt)) :=
  match fuel with
  | O => stuck
  | S k =>
      c <- check TokenType.RBRACE ;;
      e <- isAtEnd ;;
      if (negb c && negb e)%bool then
        stmt <- declaration ;;
        statements_loop declaration k (statements ++ [Some stmt])
      else ret statements
  end.

(** [Parser::functionDeclaration] *)
Definition functionDeclaration (declaration : P Stmt) (fuel : nat) : P Stmt :=
  name <- consume TokenType.IDENTIFIER "Expect function name after 'fn'." ;;
  consume TokenType.LPAREN "Expect '(' after function name." ;;;
  c <- check TokenType.RPAREN ;;
  params <- (if negb c then params_loop fuel [] else ret []) ;;
  consume TokenType.RPAREN "Expect ')' after parameters." ;;;
  consume TokenType.LBRACE "Expect '{' before function body." ;;;
  body <- statements_loop declaration fuel [] ;;
  consume TokenType.RBRACE "Expect '}' after function body." ;;;
  ret (FunctionStmt name params body).

(** [Parser::returnStatement] *)
Definition returnStatement (fuel : nat) : P Stmt :=
  keyword <- previous ;;
  c <- check TokenType.SEMICOLON ;;
  value <- (if negb c then e <- expression fuel ;; ret (Some e) else ret None) ;;
  consume TokenType.SEMICOLON "Expect ';' after return value." ;;;
  ret (ReturnStmt keyword value).

(** [Parser::printStatement] *)
Definition printStatement (fuel : nat) : P Stmt :=
  expr <- expression fuel ;;
  consume TokenType.SEMICOLON "Expect ';' after value." ;;;
  ret (PrintStmt (Some expr)).

(** [Parser::blockStatement] *)
Definition blockStatement (declaration : P Stmt) (fuel : nat) : P Stmt :=
  statements <- statements_loop declaration fuel [] ;;
  consume TokenType.RBRACE "Expect '}' after block." ;;;
  ret (BlockStmt statements).

(** [Parser::expressionStatement] *)
Definition expressionStatement (fuel : nat) : P Stmt :=
  expr <- expression fuel ;;
  consume TokenType.SEMICOLON "Expect ';' after expression." ;;;
  ret (ExpressionStmt (Some expr)).

(** [Parser::statement], with [ifStatement] and [whileStatement]. *)
Fixpoint statement (declaration : P Stmt) (fuel : nat) : P Stmt :=
  match fuel with
  | O => stuck
  | S k =>
      m <- match_ [TokenType.IF] ;;
      if m then
        consume TokenType.LPAREN "Expect '(' after 'if'." ;;;
        condition <- expression k ;;
        consume TokenType.RPAREN "Expect ')' after if condition." ;;;
        thenBranch <- statement declaration k ;;
        m <- match_ [TokenType.ELSE] ;;
        elseBranch <- (if m then s <- statement declaration k ;; ret (Some s)
                       else ret None) ;;
        ret (IfStmt (Some condition) (Some thenBranch) elseBranch)
      else
      m <- match_ [TokenType.WHILE] ;;
      if m then
        consume TokenType.LPAREN "Expect '(' after 'while'." ;;;
        condition <- expression k ;;
        consume TokenType.RPAREN "Expect ')' after while condition." ;;;
        body <- statement declaration k ;;
        ret (WhileStmt (Some condition) (Some body))
      else
      m <- match_ [TokenType.RETURN] ;;
      if m then returnStatement k else
      m <- match_ [TokenType.PRINT] ;;
      if m then printStatement k else
      m <- match_ [TokenType.LBRACE] ;;
      if m then blockStatement declaration k else
      expressionStatement k
  end.

(** [Parser::declaration] *)
Fixpoint declaration (fuel : nat) : P Stmt :=
  match fuel with
  | O => stuck
  | S k =>
      m <- match_ [TokenType.LET] ;;
      if m then letDeclaration k else
      m <- match_ [TokenType.FN] ;;
      if m then functionDeclaration (declaration k) k else
      statement (declaration k) k
  end.

(** The line written to [std::cerr] for a caught [ParseError]. *)
Definition report (e : ParseError) : string :=
  String.append "[Line "
    (String.append (format_int (err_line e))
       (String.append "] Parse Error: " (what e))).

(** The [while (!isAtEnd())] loop of [Parser::parse]: the program, the lines
    written to [std::cerr], and [m_current] at the end; [None] when a token
    is read outside the vector or the fuel runs out. *)
Fixpoint parse_loop (fuel : nat) (callFuel : nat) (program : Program)
    (cerr : list string) (cur : Z) : option (Program * list string * Z) :=
  match fuel with
  | O => None
  | S k =>
      match isAtEnd cur with
      | Ok true cur => Some (program, cerr, cur)
      | Ok false cur =>
          match declaration callFuel cur with
          | Ok stmt cur1 => parse_loop k callFuel (program ++ [Some stmt]) cerr cur1
          | Throw e cur1 =>
              match synchronize callFuel cur1 with
              | Ok _ cur2 => parse_loop k callFuel program (cerr ++ [report e]) cur2
              | _ => None
              end
          | Stuck => None
          end
      | _ => None
      end
  end.

(** [Parser::parse]. Every turn of a loop and every nested call consumes a
    token, so a fuel of a few units per token is enough. *)
Definition parse : option (Program * list string) :=
  let n := (4 * List.length m_tokens + 8)%nat in
  match parse_loop n n [] [] 0 with
  | Some (program, cerr, _) => Some (program, cerr)
  | None => None
  end.

End WithTokens.

End Parser.

(** ** Compiler.hpp, Compiler.cpp *)

Module Compiler.

(** The fields of [class Compiler] that are used: the last error message and
    the VM it owns. *)
Record State : Set := mkState {
  m_error : string;
  m_vm : VMOps.VM
}.

(** What a call of [Compiler::compile] did, stage by stage: the tokens, the
    parser's program and the lines it wrote to [std::cerr] ([None] when the
    parser was not run), the generator after lowering ([None] when it was
    not run), and the chunk returned. *)
Record Compiled : Set := mkCompiled {
  tokens : list Token;
  parsed : option (Program * list string);
  lowered : option IRGen.IRGenerator;
  chunk : Chunk
}.

Section WithLibrary.

Variable stod : string -> option float.
Variable fmod : float -> float -> float.
Variable format_double : float -> string.

(** The scan of the token vector for an [ERROR] token. *)
Fixpoint first_error (tokens : list Token) : option Token :=
  match tokens with
  | [] => None
  | token :: rest =>
      if TokenType.eqb (tok_type token) TokenType.ERROR then Some token
      else first_error rest
  end.

(** [Compiler::compile]; [None] when it does not return: the exception of
    [std::stod] leaves [tokenize] and, uncaught, [compile], or the parser
    gave no answer. *)
Definition compile (source : string) (c : State) : option (Compiled * State) :=
  let c := mkState EmptyString (m_vm c) in
  match Lexer.tokenize stod (Lexer.new source) with
  | None => None
  | Some (tokens, _) =>
      match first_error tokens with
      | Some token =>
          let message :=
            String.append "[Line "
              (String.append (format_int (line token))
                 (String.append "] Lexer Error: " (lexeme token))) in
          Some (mkCompiled tokens None None empty_chunk, mkState message (m_vm c))
      | None =>
          match Parser.parse tokens with
          | None => None
          | Some (program, cerr) =>
              let '(chunk, irgen) := IRGen.compile program IRGen.new in
              if IRGen.m_hadError irgen then
                Some (mkCompiled tokens (Some (program, cerr)) (Some irgen)
                                 empty_chunk,
                      mkState (IRGen.m_error irgen) (m_vm c))
              else
                Some (mkCompiled tokens (Some (program, cerr)) (Some irgen) chunk, c)
          end
      end
  end.

(** [Compiler::hadError] *)
Definition hadError (c : State) : bool :=
  negb (String.eqb (m_error c) EmptyString).

(** How [Compiler::run] ends: with a result, or without one when the VM's
    loop does (undefined behaviour, fuel exhausted). *)
Inductive RunOutcome : Set :=
  | Ran (r : InterpretResult.t) (c : State)
  | NoResult (o : VMOps.Outcome).

(** [Compiler::run(const Chunk&)]; [m_vm] is never null after construction. *)
Definition runChunk (fuel : nat) (chunk : Chunk) (c : State) : RunOutcome :=
  match VMOps.interpret fmod format_double fuel chunk (m_vm c) with
  | VMOps.Finished result vm =>
      match result with
      | InterpretResult.OK => Ran result (mkState (m_error c) vm)
      | _ => Ran result (mkState (VMOps.m_error vm) vm)
      end
  | o => NoResult o
  end.

(** [Compiler::run(const std::string&)]; [None] when [compile] does not
    return. *)
Definition run (fuel : nat) (source : string) (c : State) : option RunOutcome :=
  match compile source c with
  | None => None
  | Some (compiled, c1) =>
      if hadError c1 then Some (Ran InterpretResult.COMPILE_ERROR c1)
      else Some (runChunk fuel (chunk compiled) c1)
  end.

End WithLibrary.

(** [Compiler::Compiler()] *)
Definition new : State := mkState EmptyString VMOps.new.

End Compiler.

(** * Vocabulary of the properties *)

(** ** A library to run the examples with

    The pipeline takes [std::stod], [std::fmod] and [std::format] as
    parameters. The closed examples below run it with these functions,
    which agree with the C++ library on the values the examples use. *)

Module Sample.

Definition digit_value (c : ascii) : float :=
  match (nat_of_ascii c - 48)%nat with
  | 0%nat => 0 | 1%nat => 1 | 2%nat => 2 | 3%nat => 3 | 4%nat => 4
  | 5%nat => 5 | 6%nat => 6 | 7%nat => 7 | 8%nat => 8 | _ => 9
  end%float.

Fixpoint stod_loop (s : string) (seen_dot : bool) (num den : float) : float :=
  match s with
  | EmptyString => PrimFloat.div num den
  | String c rest =>
      if Ascii.eqb c "." then stod_loop rest true num den
      else stod_loop rest seen_dot
             (PrimFloat.add (PrimFloat.mul num 10%float) (digit_value c))
             (if seen_dot then PrimFloat.mul den 10%float else den)
  end.

(** The digits of a literal before its ['.']. *)
Fixpoint integer_digits (s : string) : nat :=
  match s with
  | EmptyString => O
  | String c rest => if Ascii.eqb c "." then O else S (integer_digits rest)
  end.

(** [std::stod] on a literal [digits] or [digits.digits]. With at most 15
    digits, the digits as an integer and the power of ten below them are
    both exact doubles, and their quotient is rounded once. An integer part
    of more than 309 digits that does not start with [0] is above every
    [double]: [std::stod] throws [std::out_of_range]. On the other literals
    (more digits, where the C++ library rounds the digits at once, or a
    fraction below every [double], where it throws too) this definition is
    not the C++ library's; no example uses one. *)
Definition stod (s : string) : option float :=
  match s with
  | String c _ =>
      if (negb (Ascii.eqb c "0") && Nat.ltb 309 (integer_digits s))%bool then None
      else Some (stod_loop s false 0%float 1%float)
  | EmptyString => Some (stod_loop s false 0%float 1%float)
  end.

(** [std::fmod] on finite doubles: the remainder of the exact quotient
    truncated toward zero, with the sign of [x]; it is always exact. *)
Definition fmod (x y : float) : float :=
  match Prim2SF x, Prim2SF y with
  | S754_finite sx mx ex, S754_finite _ my ey =>
      let e := Z.min ex ey in
      let r := (Z.pos mx * 2 ^ (ex - e)) mod (Z.pos my * 2 ^ (ey - e)) in
      match r with
      | Zpos m => SF2Prim (S754_finite sx m e)
      | _ => SF2Prim (S754_zero sx)
      end
  | S754_zero _, S754_finite _ _ _ => x
  | S754_zero _, S754_infinity _ => x
  | S754_finite _ _ _, S754_infinity _ => x
  | _, _ => PrimFloat.nan
  end.

(** [std::format("{}", d)] for an integer [d] of magnitude below [10 ^ 4]:
    its decimal digits. Other doubles, for which the C++ library searches the
    shortest text that reads back as [d], are outside this definition, which
    answers the empty string for them. *)
Definition format_double (d : float) : string :=
  match Prim2SF d with
  | S754_zero false => "0"
  | S754_zero true => "-0"
  | S754_finite s m e =>
      let v := if 0 <=? e then Z.pos m * 2 ^ e
               else if (Z.pos m) mod 2 ^ (- e) =? 0 then Z.pos m / 2 ^ (- e)
               else 0 in
      if ((0 <? v) && (v <? 10 ^ 4))%bool
      then format_int (if s then - v else v) else EmptyString
  | _ => EmptyString
  end.

(** The tokens and the program of a source text. *)
Definition tokens_of (source : string) : list Token :=
  match Lexer.tokenize stod (Lexer.new source) with
  | Some (tokens, _) => tokens
  | None => []
  end.

Definition program_of (source : string) : Program :=
  match Parser.parse (tokens_of source) with
  | Some (program, _) => program
  | None => []
  end.

(** [Compiler::compile] and [Compiler::run] with this library. *)
Definition compile (source : string) : option (Compiler.Compiled * Compiler.State) :=
  Compiler.compile stod source Compiler.new.

Definition run (fuel : nat) (source : string) : option Compiler.RunOutcome :=
  Compiler.run stod fmod format_double fuel source Compiler.new.

(** [n] copies of a text, one after the other. *)
Fixpoint copies (n : nat) (text : string) : string :=
  match n with
  | O => EmptyString
  | S k => String.append text (copies k text)
  end.

End Sample.

(** ** What the lexer scans *)

Section Scan.

Variable stod : string -> option float.

(** Every token [scanToken] returns in the loop of [tokenize], the [ERROR]
    tokens included: the same loop, recording what it scans, up to the end
    of the text or to the exception. *)
Fixpoint scan_trace (fuel : nat) (scanFuel : nat) (lx : Lexer.State) : list Token :=
  match fuel with
  | O => []
  | S k =>
      if Lexer.isAtEnd lx then []
      else
        let lx := Lexer.mkState (Lexer.m_source lx) (Lexer.m_current lx)
                                (Lexer.m_current lx) (Lexer.m_line lx)
                                (Lexer.m_column lx) (Lexer.m_tokens lx) in
        match Lexer.scanToken stod scanFuel lx with
        | None => []
        | Some (token, lx) =>
            let lx := if negb (TokenType.eqb (tok_type token) TokenType.ERROR)
                      then Lexer.push_token token lx else lx in
            token :: scan_trace k scanFuel lx
        end
  end.

End Scan.

(** [std::stod] where the texts of a table are read from the table. *)
Fixpoint answers (table : list (string * option float))
    (stod : string -> option float) (text : string) : option float :=
  match table with
  | [] => stod text
  | (t, o) :: rest => if String.eqb t text then o else answers rest stod text
  end.

(** ** How far the lexer has read *)

(** The characters left to read. *)
Definition remaining (lx : Lexer.State) : nat :=
  Z.to_nat (Lexer.source_size lx - Lexer.m_current lx).

(** [lx'] is [lx] further on in the same text. *)
Definition further (lx lx' : Lexer.State) : Prop :=
  Lexer.m_source lx' = Lexer.m_source lx /\ (remaining lx' <= remaining lx)%nat.

(** The [m_start = m_current;] before each [scanToken()]. *)
Definition restart (lx : Lexer.State) : Lexer.State :=
  Lexer.mkState (Lexer.m_source lx) (Lexer.m_current lx) (Lexer.m_current lx)
                (Lexer.m_line lx) (Lexer.m_column lx) (Lexer.m_tokens lx).

(** ** Reaching an instruction *)

Section Reach.

Variable fmod : float -> float -> float.
Variable format_double : float -> string.

(** The VM after [n] turns of the loop of [interpret], none of which
    returned. *)
Fixpoint turns (n : nat) (chunk : Chunk) (vm : VMOps.VM) : option VMOps.VM :=
  match n with
  | O => Some vm
  | S k =>
      match VMOps.step fmod format_double chunk vm with
      | VMOps.Continue vm1 => turns k chunk vm1
      | _ => None
      end
  end.

End Reach.

(** The message of an opcode the VM does not implement. *)
Definition unimplemented_message (op : OpCode) : string :=
  match op with
  | OP_CALL => "Function calls not fully implemented."
  | _ => "Local variables not fully implemented."
  end.

(** ** The walk of [compile] as the specification words it *)

(** "Not aborted early mid-walk": every statement of the program is lowered,
    whatever the flag says, and the flag is left to the caller. *)
Definition compile_without_abort (program : Program) (g : IRGen.IRGenerator)
  : Chunk * IRGen.IRGenerator :=
  let g1 := fold_left (fun g s => IRGen.compileStmt s g) program
                      (IRGen.beginScope (IRGen.reset g)) in
  let g2 := IRGen.emitByte OP_RETURN 0 (IRGen.endScope g1) in
  (IRGen.m_chunk g2, g2).

(** ** Counting instructions *)

(** The number of instructions emitted between two generator states. *)
Definition emitted (g g' : IRGen.IRGenerator) : Z :=
  size (code (IRGen.m_chunk g')) - size (code (IRGen.m_chunk g)).

(** ** The locals of a generator *)

(** Read from the most recent one back, the depths of the locals never
    increase, and they start at or below [d]. *)
Fixpoint depths_descend (d : Z) (rl : list Local) : Prop :=
  match rl with
  | [] => True
  | l :: rest => depth l <= d /\ depths_descend (depth l) rest
  end.

(** The locals are in declaration order and none is deeper than the current
    scope, whose depth is a [size_t]. *)
Definition locals_ordered (g : IRGen.IRGenerator) : Prop :=
  depths_descend (IRGen.m_scopeDepth g) (rev (IRGen.m_locals g))
  /\ 0 <= IRGen.m_scopeDepth g < 2 ^ 64.

(** A local of this name is declared at the current depth. *)
Definition declared_here (name : string) (g : IRGen.IRGenerator) : Prop :=
  exists l, In l (IRGen.m_locals g) /\ local_name l = name
            /\ depth l = IRGen.m_scopeDepth g.

(** How deep the blocks of a statement nest. *)
Fixpoint block_nesting (s : Stmt) : Z :=
  let ptr (p : option Stmt) : Z :=
    match p with None => 0 | Some s' => block_nesting s' end in
  match s with
  | IfStmt _ t e => Z.max (ptr t) (ptr e)
  | WhileStmt _ b => ptr b
  | BlockStmt stmts => 1 + fold_right (fun p n => Z.max (ptr p) n) 0 stmts
  | _ => 0
  end.

Definition ptr_nesting (p : option Stmt) : Z :=
  match p with None => 0 | Some s => block_nesting s end.


(** ** Relations between the states of a walk or of a run *)

(** Once set, the flag stays set. *)
Definition sticky (g g' : IRGen.IRGenerator) : Prop :=
  IRGen.m_hadError g = true -> IRGen.m_hadError g' = true.

(** The code of [g'] is the code of [g] with instructions added after it. *)
Definition extends (g g' : IRGen.IRGenerator) : Prop :=
  exists ext, code (IRGen.m_chunk g') = code (IRGen.m_chunk g) ++ ext.

(** The walk of a statement keeps the locals ordered and ends at the depth
    it started from, as long as the depth of its blocks fits in [size_t]. *)
Definition keeps_order (s : option Stmt) : Prop :=
  forall g, locals_ordered g ->
            IRGen.m_scopeDepth g + ptr_nesting s < 2 ^ 64 ->
            locals_ordered (IRGen.compileStmt s g)
            /\ IRGen.m_scopeDepth (IRGen.compileStmt s g) = IRGen.m_scopeDepth g.

(** The VM with another output. *)
Definition set_output (out : list string) (vm : VMOps.VM) : VMOps.VM :=
  VMOps.mkVM (VMOps.m_stack vm) (VMOps.m_ip vm) (VMOps.m_error vm) out.

(** A turn reads the stack, the pointer and the chunk, and only appends to
    the output. *)
Definition same_turn (o : VMOps.Step) (o' : VMOps.Step) (before out : list string) : Prop :=
  match o with
  | VMOps.Continue s =>
      exists lines, VMOps.m_output s = before ++ lines
                    /\ o' = VMOps.Continue (set_output (out ++ lines) s)
  | VMOps.Return r s =>
      exists lines, VMOps.m_output s = before ++ lines
                    /\ o' = VMOps.Return r (set_output (out ++ lines) s)
  | VMOps.Undefined s => True
  end.

(** ** Induction over the syntax tree *)

(** [P] holds of what a pointer points to, when it points to something. *)
Definition on_ptr {A : Type} (P : A -> Prop) (p : option A) : Prop :=
  match p with
  | None => True
  | Some a => P a
  end.

Section ExprInduction.

Variable P : Expr -> Prop.
Hypothesis H_Binary : forall l op r, on_ptr P l -> on_ptr P r -> P (BinaryExpr l op r).
Hypothesis H_Unary : forall op r, on_ptr P r -> P (UnaryExpr op r).
Hypothesis H_Literal : forall v, P (LiteralExpr v).
Hypothesis H_Variable : forall name, P (VariableExpr name).
Hypothesis H_Assign : forall name v, on_ptr P v -> P (AssignExpr name v).
Hypothesis H_Call : forall callee paren args,
  on_ptr P callee -> Forall (on_ptr P) args -> P (CallExpr callee paren args).
Hypothesis H_Grouping : forall e, on_ptr P e -> P (GroupingExpr e).

Fixpoint Expr_tree_ind (e : Expr) : P e :=
  let ptr (p : option Expr) : on_ptr P p :=
    match p with
    | None => I
    | Some e' => Expr_tree_ind e'
    end in
  match e with
  | BinaryExpr l op r => H_Binary l op r (ptr l) (ptr r)
  | UnaryExpr op r => H_Unary op r (ptr r)
  | LiteralExpr v => H_Literal v
  | VariableExpr name => H_Variable name
  | AssignExpr name v => H_Assign name v (ptr v)
  | CallExpr callee paren args =>
      H_Call callee paren args (ptr callee)
        ((fix all (l : list (option Expr)) : Forall (on_ptr P) l :=
            match l with
            | [] => Forall_nil _
            | p :: rest => Forall_cons p (ptr p) (all rest)
            end) args)
  | GroupingExpr e' => H_Grouping e' (ptr e')
  end.

End ExprInduction.

Section StmtInduction.

Variable P : Stmt -> Prop.
Hypothesis H_Expression : forall e, P (ExpressionStmt e).
Hypothesis H_Let : forall name init, P (LetStmt name init).
Hypothesis H_Function : forall name params body, P (FunctionStmt name params body).
Hypothesis H_If : forall c t e, on_ptr P t -> on_ptr P e -> P (IfStmt c t e).
Hypothesis H_While : forall c b, on_ptr P b -> P (WhileStmt c b).
Hypothesis H_Return : forall k v, P (ReturnStmt k v).
Hypothesis H_Print : forall e, P (PrintStmt e).
Hypothesis H_Block : forall stmts, Forall (on_ptr P) stmts -> P (BlockStmt stmts).

Fixpoint Stmt_tree_ind (s : Stmt) : P s :=
  let ptr (p : option Stmt) : on_ptr P p :=
    match p with
    | None => I
    | Some s' => Stmt_tree_ind s'
    end in
  match s with
  | ExpressionStmt e => H_Expression e
  | LetStmt name init => H_Let name init
  | FunctionStmt name params body => H_Function name params body
  | IfStmt c t e => H_If c t e (ptr t) (ptr e)
  | WhileStmt c b => H_While c b (ptr b)
  | ReturnStmt k v => H_Return k v
  | PrintStmt e => H_Print e
  | BlockStmt stmts =>
      H_Block stmts
        ((fix all (l : list (option Stmt)) : Forall (on_ptr P) l :=
            match l with
            | [] => Forall_nil _
            | p :: rest => Forall_cons p (ptr p) (all rest)
            end) stmts)
  end.

End StmtInduction.

(** ** The programs of the examples *)

Module Programs.

(** Reads a local: the shortest program that reaches [OP_GET_LOCAL]. *)
Definition read_local : string := "let x = 1; print x;".

(** The loop of the specification's control-flow example, and the loop the
    repository's [testWhileLoop] runs. *)
Definition while_loop : string :=
  "let i = 0; while (i < 3) { print i; i = i + 1; }".
Definition while_loop_test : string :=
  "let x = 0; while (x < 3) { print x; x = x + 1; }".

(** Writes a local: the value, then [OP_SET_LOCAL]. *)
Definition write_local : string := "let x = 1; x = 2;".

(** Reads and writes a local in a branch that is not taken. *)
Definition unreached_read : string := "let x = 1; if (false) { print x; }".
Definition unreached_write : string := "let x = 1; if (false) { x = 2; }".

(** An undefined identifier in the first of two statements. *)
Definition undefined_then_print : string := "print y; print 1;".

(** 257 number literals: 256 times the statement [1;], then [print 2;]. *)
Definition many_constants : string :=
  String.append (Sample.copies 256 "1;") "print 2;".

(** A character no token starts with, and a string that is not closed. *)
Definition stray_character : string := "@".
Definition unterminated_string : string :=
  String.append "let s = " (String Lexer.DQUOTE "abc;").

(** An [if] whose then-branch is a block of [n] statements [1;] (two
    instructions each: the constant and the pop) followed by [tail]. *)
Definition if_with_block (n : nat) (tail : string) : string :=
  String.append "if (true) {"
    (String.append (Sample.copies n "1;") (String.append tail "}")).

(** Then-branches of 254 and of 255 instructions ([-1;] takes three). *)
Definition if_254 : string := if_with_block 127 "".
Definition if_255 : string := if_with_block 126 "-1;".

(** A function whose body declares [a] twice, reads the undeclared [b] and
    calls. *)
Definition function_with_bad_body : string :=
  "fn f(p, q) { let a = 1; let a = 2; print b; f(1); }".

(** Prints the sum of two numbers. *)
Definition print_sum : string := "print 1 + 2;".

(** A chunk that pops an empty stack, then pushes [true] and prints it. *)
Definition pop_then_print : Chunk :=
  mkChunk [mkInstruction OP_POP 0 VNil; mkInstruction OP_TRUE 0 VNil;
           mkInstruction OP_PRINT 0 VNil]
          [0; 0; 0] [].

(** The chunk [Compiler::compile] returns for a source text. *)
Definition chunk_of (source : string) : Chunk :=
  match Sample.compile source with
  | Some (compiled, _) => Compiler.chunk compiled
  | None => empty_chunk
  end.

(** The message [Compiler::compile] leaves for a source text. *)
Definition error_of (source : string) : option string :=
  match Sample.compile source with
  | Some (_, c) => Some (Compiler.m_error c)
  | None => None
  end.

(** The opcodes and operands of a chunk. *)
Definition listing (c : Chunk) : list (OpCode * Z) :=
  map (fun i => (opcode i, operand i)) (code c).

(** The generator when [compile] reaches the first statement. *)
Definition top_level : IRGen.IRGenerator := IRGen.beginScope (IRGen.reset IRGen.new).

(** The condition and the branches of a program that is one [if]. *)
Definition condition_of (p : Program) : option Expr :=
  match p with Some (IfStmt c _ _) :: _ => c | _ => None end.
Definition then_of (p : Program) : option Stmt :=
  match p with Some (IfStmt _ t _) :: _ => t | _ => None end.
Definition else_of (p : Program) : option Stmt :=
  match p with Some (IfStmt _ _ e) :: _ => e | _ => None end.

(** The generator after the condition and the placeholder of that [if], and
    the number of instructions its then-branch compiles to. *)
Definition after_condition (source : string) : IRGen.IRGenerator :=
  IRGen.emitJump OP_JUMP_IF_FALSE
    (IRGen.compileExpr (condition_of (Sample.program_of source)) top_level).

Definition then_size (source : string) : Z :=
  emitted (after_condition source)
          (IRGen.compileStmt (then_of (Sample.program_of source))
                             (after_condition source)).

(** The tokens of the text [;] and the lexer [tokenize] leaves. *)
Definition semicolon_tokens : list Token :=
  [mkToken TokenType.SEMICOLON ";" 1 2 LitNone;
   mkToken TokenType.EOF_TOKEN ";" 1 2 LitNone].
Definition after_semicolon : Lexer.State :=
  Lexer.mkState ";" 0 1 1 2 semicolon_tokens.

(** The generator after [let x = 1;] at the top level. *)
Definition after_let_x : IRGen.IRGenerator :=
  IRGen.compileStmt (hd None (Sample.program_of "let x = 1;")) top_level.

End Programs.

(** ** The tokens of the lexer *)

(** The token types [scanToken] has a rule for, [EOF_TOKEN] apart. *)
Definition scanned_types : list TokenType.t :=
  [ TokenType.NUMBER; TokenType.STRING; TokenType.IDENTIFIER;
    TokenType.LET; TokenType.FN; TokenType.IF; TokenType.ELSE; TokenType.WHILE;
    TokenType.RETURN; TokenType.TRUE; TokenType.FALSE; TokenType.PRINT;
    TokenType.PLUS; TokenType.MINUS; TokenType.STAR; TokenType.SLASH;
    TokenType.PERCENT;
    TokenType.EQUAL_EQUAL; TokenType.BANG_EQUAL; TokenType.LESS;
    TokenType.LESS_EQUAL; TokenType.GREATER; TokenType.GREATER_EQUAL;
    TokenType.EQUAL;
    TokenType.LPAREN; TokenType.RPAREN; TokenType.LBRACE; TokenType.RBRACE;
    TokenType.COMMA; TokenType.SEMICOLON; TokenType.ERROR ].

(** The tokens stored so far: none is [EOF_TOKEN], or only the last one and
    then the text is read to its end. *)
Definition eof_last (lx : Lexer.State) : Prop :=
  Forall (fun t => tok_type t <> TokenType.EOF_TOKEN) (Lexer.m_tokens lx)
  \/ exists body e,
       Lexer.m_tokens lx = body ++ [e]
       /\ Forall (fun t => tok_type t <> TokenType.EOF_TOKEN) body
       /\ tok_type e = TokenType.EOF_TOKEN
       /\ Lexer.isAtEnd lx = true.

(** ** How a parsing function ends *)

(** How a parsing function called at [cur] ends, in a vector whose first
    [EOF_TOKEN] is at [eof]: it returns at least [d] tokens further on, or
    throws, at or after [cur]; and it stays at or before [eof]. *)
Definition fine {A : Type} (eof d cur : Z) (r : Parser.Result A) : Prop :=
  match r with
  | Parser.Ok _ c => cur + d <= c <= eof
  | Parser.Throw _ c => cur <= c <= eof
  | Parser.Stuck => False
  end.

(** The same for a function that does not throw. *)
Definition sure {A : Type} (eof d cur : Z) (r : Parser.Result A) : Prop :=
  match r with
  | Parser.Ok _ c => cur + d <= c <= eof
  | _ => False
  end.

(** The tokens left before the first [EOF_TOKEN]. *)
Definition tokens_left (eof cur : Z) : nat := Z.to_nat (eof - cur).

(** ** The chunks of the generator *)

(** The opcodes the generator emits with operand 0. *)
Definition plain_opcodes : list OpCode :=
  [ OP_NIL; OP_TRUE; OP_FALSE;
    OP_ADD; OP_SUBTRACT; OP_MULTIPLY; OP_DIVIDE; OP_MODULO; OP_NEGATE;
    OP_EQUAL; OP_LESS; OP_GREATER; OP_NOT; OP_AND; OP_OR;
    OP_POP; OP_RETURN; OP_PRINT ].

(** The opcodes it emits with an operand cast to [uint8_t]. *)
Definition operand_opcodes : list OpCode := [OP_GET_LOCAL; OP_SET_LOCAL; OP_CALL].

(** The opcodes of [emitJump]. *)
Definition jump_opcodes : list OpCode := [OP_JUMP_IF_FALSE; OP_JUMP].

(** The opcodes the generator can write into a chunk. *)
Definition emitted_opcodes : list OpCode :=
  OP_CONSTANT :: OP_LOOP :: plain_opcodes ++ operand_opcodes ++ jump_opcodes.

(** An instruction as the generator writes it into a chunk with [n]
    constants: one of its opcodes, a byte as operand and, for [OP_CONSTANT],
    an operand below [n]. *)
Definition instruction_ok (n : Z) (instr : Instruction) : Prop :=
  In (opcode instr) emitted_opcodes
  /\ 0 <= operand instr <= 255
  /\ (opcode instr = OP_CONSTANT -> operand instr < n).

(** A chunk as the generator builds it. *)
Definition well_formed (c : Chunk) : Prop :=
  size (lines c) = size (code c)
  /\ Forall (instruction_ok (size (constants c))) (code c).

(** [hadError()] and [getError()] of the generator agree. *)
Definition flag_matches_message (g : IRGen.IRGenerator) : Prop :=
  IRGen.m_hadError g = negb (String.eqb (IRGen.m_error g) EmptyString).

(** From [g] to [g'] the depth is the same and locals were only added, at
    that depth. *)
Definition declares_in_scope (g g' : IRGen.IRGenerator) : Prop :=
  IRGen.m_scopeDepth g' = IRGen.m_scopeDepth g
  /\ exists added,
       IRGen.m_locals g' = IRGen.m_locals g ++ added
       /\ Forall (fun l => depth l = IRGen.m_scopeDepth g) added.

(** The expression reads or assigns a variable somewhere. *)
Fixpoint names_variable (e : Expr) : bool :=
  let ptr (p : option Expr) : bool :=
    match p with
    | None => false
    | Some e' => names_variable e'
    end in
  match e with
  | BinaryExpr l _ r => ptr l || ptr r
  | UnaryExpr _ r => ptr r
  | LiteralExpr _ => false
  | VariableExpr _ => true
  | AssignExpr _ _ => true
  | CallExpr callee _ arguments => ptr callee || existsb ptr arguments
  | GroupingExpr e' => ptr e'
  end.

(** The same of a pointer; a null pointer names nothing. *)
Definition ptr_names_variable (p : option Expr) : bool :=
  match p with
  | None => false
  | Some e => names_variable e
  end.

(** ** The ends of a run *)

(** The messages [interpret] stores before it returns [RUNTIME_ERROR] at
    an opcode the generator emits. *)
Definition runtime_messages : list string :=
  [ "Operands must be two numbers or two strings.";
    "Operands must be numbers.";
    "Division by zero.";
    "Modulo by zero.";
    "Operand must be a number.";
    "Local variables not fully implemented.";
    "Function calls not fully implemented." ].

(** How [interpret] can end on a chunk of the generator. *)
Definition expected_outcome (o : VMOps.Outcome) : Prop :=
  match o with
  | VMOps.Finished InterpretResult.OK _ => True
  | VMOps.Finished InterpretResult.RUNTIME_ERROR vm =>
      In (VMOps.m_error vm) runtime_messages
  | VMOps.Finished InterpretResult.COMPILE_ERROR _ => False
  | VMOps.UndefinedBehaviour _ => False
  | VMOps.OutOfFuel _ => True
  end.

(** The message of a division or a modulo by zero. *)
Definition zero_message (op : OpCode) : string :=
  match op with
  | OP_DIVIDE => "Division by zero."
  | _ => "Modulo by zero."
  end.

(** The quotient or the remainder [OP_DIVIDE] and [OP_MODULO] push. *)
Definition quotient (fmod : float -> float -> float) (op : OpCode) (x y : float)
  : float :=
  match op with
  | OP_DIVIDE => PrimFloat.div x y
  | _ => fmod x y
  end.

(** * Properties *)

(** ** What the pipeline asks of [std::stod] *)

(** The lexer, and the compiler with it, use [std::stod] as a function of
    the text of a literal only: two libraries that read every text alike give
    the same tokens, the same chunk and the same run. *)
Module StodFacts.
Import Lexer.

Lemma answers_same table (stod : string -> option float) :
  Forall (fun p => stod (fst p) = snd p) table ->
  forall text, stod text = answers table stod text.
Proof.
  induction 1 as [|[t o] rest Ht _ IH]; intros text; simpl; [reflexivity|].
  destruct (String.eqb_spec t text) as [<-|_]; [exact Ht | apply IH].
Qed.

Section Same.

Variables stod stod' : string -> option float.
Hypothesis same : forall text, stod text = stod' text.

Lemma scanNumber_same fuel lx : scanNumber stod fuel lx = scanNumber stod' fuel lx.
Proof. unfold scanNumber. cbv zeta. rewrite same. reflexivity. Qed.

Lemma scanToken_same fuel lx : scanToken stod fuel lx = scanToken stod' fuel lx.
Proof.
  unfold scanToken. cbv zeta. destruct (isAtEnd _); [reflexivity|].
  destruct (advance _) as [c lx1].
  repeat match goal with
         | |- (if ?b then _ else _) = _ =>
             destruct b; [first [reflexivity | apply scanNumber_same]|]
         end.
  reflexivity.
Qed.

Lemma tokenize_loop_same fuel scanFuel : forall lx,
  tokenize_loop stod fuel scanFuel lx = tokenize_loop stod' fuel scanFuel lx.
Proof.
  induction fuel as [|k IH]; intros lx; simpl; [reflexivity|].
  destruct (isAtEnd lx); [reflexivity|]. rewrite scanToken_same.
  destruct (scanToken stod' scanFuel _) as [[token lx1]|]; [apply IH | reflexivity].
Qed.

Lemma tokenize_same lx : tokenize stod lx = tokenize stod' lx.
Proof. unfold tokenize. cbv zeta. rewrite tokenize_loop_same. reflexivity. Qed.

Lemma nextToken_same lx : nextToken stod lx = nextToken stod' lx.
Proof.
  unfold nextToken. destruct (isAtEnd lx); [reflexivity | apply scanToken_same].
Qed.

Lemma scan_trace_same fuel scanFuel : forall lx,
  scan_trace stod fuel scanFuel lx = scan_trace stod' fuel scanFuel lx.
Proof.
  induction fuel as [|k IH]; intros lx; simpl; [reflexivity|].
  destruct (isAtEnd lx); [reflexivity|]. rewrite scanToken_same.
  destruct (scanToken stod' scanFuel _) as [[token lx1]|]; [|reflexivity].
  rewrite IH. reflexivity.
Qed.

Lemma compile_same source c :
  Compiler.compile stod source c = Compiler.compile stod' source c.
Proof. unfold Compiler.compile. rewrite tokenize_same. reflexivity. Qed.

Lemma run_same fmod format_double fuel source c :
  Compiler.run stod fmod format_double fuel source c
  = Compiler.run stod' fmod format_double fuel source c.
Proof. unfold Compiler.run. rewrite compile_same. reflexivity. Qed.

End Same.

End StodFacts.

(** In a goal about [compile] or [run] on a source text, [std::stod] as the
    hypotheses of the goal give it on the texts of [table]. *)
Ltac read_literals stod table :=
  let H := fresh "Read" in
  assert (H : forall text, stod text = answers table stod text)
    by (apply StodFacts.answers_same; repeat constructor; simpl;
        first [assumption | symmetry; assumption]);
  rewrite ?(StodFacts.compile_same stod _ H),
          ?(StodFacts.run_same stod _ H);
  clear H.

(** ** The lowering functions, one equation per node *)

Module IRGenFacts.
Import IRGen.

Lemma compileExpr_Binary l op r g :
  compileExpr (Some (BinaryExpr l op r)) g
  = emitBinaryOp op (compileExpr r (compileExpr l g)).
Proof. reflexivity. Qed.

Lemma compileExpr_Unary op r g :
  compileExpr (Some (UnaryExpr op r)) g = emitUnaryOp op (compileExpr r g).
Proof. reflexivity. Qed.

Lemma compileExpr_Assign name v g :
  compileExpr (Some (AssignExpr name v)) g = emitAssign name (compileExpr v g).
Proof. reflexivity. Qed.

Lemma compileExpr_Call callee paren args g :
  compileExpr (Some (CallExpr callee paren args)) g
  = emitByte OP_CALL (to_u8 (size args))
      (fold_left (fun g arg => compileExpr arg g) args (compileExpr callee g)).
Proof. reflexivity. Qed.

Lemma compileExpr_Grouping e g :
  compileExpr (Some (GroupingExpr e)) g = compileExpr e g.
Proof. reflexivity. Qed.

Lemma compileStmt_If c t e g :
  compileStmt (Some (IfStmt c t e)) g
  = let g1 := emitJump OP_JUMP_IF_FALSE (compileExpr c g) in
    let thenJump := size_t_sub (size (code (m_chunk g1))) 1 in
    let g2 := emitJump OP_JUMP (compileStmt t g1) in
    let elseJump := size_t_sub (size (code (m_chunk g2))) 1 in
    patchJump elseJump (compileStmt e (patchJump thenJump g2)).
Proof. destruct e; reflexivity. Qed.

Lemma compileStmt_While c b g :
  compileStmt (Some (WhileStmt c b)) g
  = let g1 := emitJump OP_JUMP_IF_FALSE (compileExpr c g) in
    let exitJump := size_t_sub (size (code (m_chunk g1))) 1 in
    patchJump exitJump (emitLoop (size (code (m_chunk g))) (compileStmt b g1)).
Proof. reflexivity. Qed.

Lemma compileStmt_Let name init g :
  compileStmt (Some (LetStmt name init)) g
  = markInitialized (compileExpr init (declareVariable (lexeme name) g)).
Proof. destruct init; reflexivity. Qed.

Lemma compileStmt_Return k v g :
  compileStmt (Some (ReturnStmt k v)) g = emitByte OP_RETURN 0 (compileExpr v g).
Proof. destruct v; reflexivity. Qed.

Lemma compileStmt_Block stmts g :
  compileStmt (Some (BlockStmt stmts)) g
  = endScope (fold_left (fun g s => compileStmt s g) stmts (beginScope g)).
Proof. reflexivity. Qed.

(** *** A property of every step of the walk is a property of the walk *)

Section Walk.

(** [R g g'] relates a generator to a later one. *)
Variable R : IRGenerator -> IRGenerator -> Prop.
Hypothesis R_refl : forall g, R g g.
Hypothesis R_trans : forall g1 g2 g3, R g1 g2 -> R g2 g3 -> R g1 g3.
Hypothesis R_emitByte : forall op x g, R g (emitByte op x g).
Hypothesis R_error : forall msg g, R g (error msg g).
Hypothesis R_constant : forall v g,
  R g (with_chunk (ChunkOps.writeConstant v 0 (m_chunk g)) g).

Lemma walk_fold_left {A : Type} (f : A -> IRGenerator -> IRGenerator) (l : list A) :
  Forall (fun a => forall g, R g (f a g)) l ->
  forall g, R g (fold_left (fun g a => f a g) l g).
Proof.
  induction 1 as [|a l Ha _ IH]; intros g; simpl.
  - apply R_refl.
  - eapply R_trans; [apply Ha | apply IH].
Qed.

Lemma walk_emitBinaryOp op g : R g (emitBinaryOp op g).
Proof.
  unfold emitBinaryOp; destruct (tok_type op);
    try apply R_emitByte; try apply R_error;
    (eapply R_trans; [apply R_emitByte | apply R_emitByte]).
Qed.

Lemma walk_emitUnaryOp op g : R g (emitUnaryOp op g).
Proof.
  unfold emitUnaryOp; destruct (tok_type op); try apply R_emitByte; apply R_error.
Qed.

Lemma walk_compileExpr e : forall g, R g (compileExpr e g).
Proof.
  destruct e as [e|]; [|intros g; apply R_emitByte].
  induction e using Expr_tree_ind; intros g.
  - rewrite compileExpr_Binary.
    eapply R_trans; [|apply walk_emitBinaryOp].
    eapply R_trans.
    + destruct l; [apply H | apply R_emitByte].
    + destruct r; [apply H0 | apply R_emitByte].
  - rewrite compileExpr_Unary.
    eapply R_trans; [|apply walk_emitUnaryOp].
    destruct r; [apply H | apply R_emitByte].
  - destruct v as [d|s|[|]|]; simpl;
      try apply R_constant; apply R_emitByte.
  - simpl; unfold compileVariableExpr.
    destruct (negb _); [apply R_emitByte | apply R_error].
  - rewrite compileExpr_Assign.
    eapply R_trans; [destruct v; [apply H | apply R_emitByte]|].
    unfold emitAssign. destruct (negb _); [apply R_emitByte | apply R_error].
  - rewrite compileExpr_Call.
    eapply R_trans; [|apply R_emitByte].
    eapply R_trans; [destruct callee; [apply H | apply R_emitByte]|].
    apply (walk_fold_left compileExpr).
    eapply Forall_impl; [|exact H0].
    intros [a|] Ha g'; [apply Ha | apply R_emitByte].
  - rewrite compileExpr_Grouping.
    destruct e; [apply H | apply R_emitByte].
Qed.

(** The statements add [declareVariable], [markInitialized], the scopes,
    the jumps and their patches. *)
Hypothesis R_declare : forall name g, R g (declareVariable name g).
Hypothesis R_mark : forall g, R g (markInitialized g).
Hypothesis R_begin : forall g, R g (beginScope g).
Hypothesis R_end : forall g, R g (endScope g).
Hypothesis R_jump : forall op g, R g (emitJump op g).
Hypothesis R_loop : forall start g, R g (emitLoop start g).
Hypothesis R_patch : forall offset g, R g (patchJump offset g).

Lemma walk_compileStmt s : forall g, R g (compileStmt s g).
Proof.
  destruct s as [s|]; [|intros g; apply R_refl].
  induction s using Stmt_tree_ind; intros g.
  - simpl. eapply R_trans; [apply walk_compileExpr | apply R_emitByte].
  - rewrite compileStmt_Let.
    eapply R_trans; [apply R_declare|].
    eapply R_trans; [apply walk_compileExpr | apply R_mark].
  - simpl; unfold compileFunctionStmt.
    eapply R_trans; [apply R_declare|].
    eapply R_trans; [apply R_mark | apply R_emitByte].
  - rewrite compileStmt_If; cbv zeta.
    eapply R_trans; [|apply R_patch].
    eapply R_trans; [|destruct e; [apply H0 | apply R_refl]].
    eapply R_trans; [|apply R_patch].
    eapply R_trans; [|apply R_jump].
    eapply R_trans; [|destruct t; [apply H | apply R_refl]].
    eapply R_trans; [apply walk_compileExpr | apply R_jump].
  - rewrite compileStmt_While; cbv zeta.
    eapply R_trans; [|apply R_patch].
    eapply R_trans; [|apply R_loop].
    eapply R_trans; [|destruct b; [apply H | apply R_refl]].
    eapply R_trans; [apply walk_compileExpr | apply R_jump].
  - rewrite compileStmt_Return.
    eapply R_trans; [apply walk_compileExpr | apply R_emitByte].
  - simpl. eapply R_trans; [apply walk_compileExpr | apply R_emitByte].
  - rewrite compileStmt_Block.
    eapply R_trans; [apply R_begin|].
    eapply R_trans; [|apply R_end].
    apply (walk_fold_left compileStmt).
    eapply Forall_impl; [|exact H].
    intros [a|] Ha g'; [apply Ha | apply R_refl].
Qed.

End Walk.

End IRGenFacts.

(** ** The error flag of the generator *)

Module ErrorFlag.
Import IRGen IRGenFacts.

Lemma endScope_loop_flag fuel : forall g,
  m_hadError (endScope_loop fuel g) = m_hadError g
  /\ m_error (endScope_loop fuel g) = m_error g.
Proof.
  induction fuel as [|k IH]; intros g; simpl; [auto|].
  destruct (back (m_locals g)) as [l|]; [|auto].
  destruct (m_scopeDepth g <? depth l); [|auto].
  cbv zeta.
  match goal with
  | |- context [endScope_loop k ?x] => destruct (IH x) as [H1 H2]
  end.
  rewrite H1, H2. auto.
Qed.

Lemma endScope_flag g :
  m_hadError (endScope g) = m_hadError g /\ m_error (endScope g) = m_error g.
Proof.
  unfold endScope. cbv zeta.
  match goal with
  | |- context [endScope_loop ?n ?x] => destruct (endScope_loop_flag n x) as [H1 H2]
  end.
  rewrite H1, H2. auto.
Qed.

Lemma markInitialized_flag g :
  m_hadError (markInitialized g) = m_hadError g
  /\ m_error (markInitialized g) = m_error g.
Proof. unfold markInitialized. destruct (m_locals g); auto. Qed.

Lemma sticky_compileStmt s g : sticky g (compileStmt s g).
Proof.
  revert g. apply walk_compileStmt; unfold sticky; intros; auto.
  - unfold declareVariable.
    destruct (m_scopeDepth g =? 0); [auto|].
    destruct (declared_in_scope _ _ _); auto.
  - rewrite (proj1 (markInitialized_flag g)); auto.
  - rewrite (proj1 (endScope_flag g)); auto.
  - unfold emitLoop. destruct (255 <? _); auto.
  - unfold patchJump. destruct (255 <? _); auto.
Qed.

Lemma compile_loop_app pre rest : forall g,
  compile_loop (pre ++ rest) g
  = match compile_loop pre g with
    | inl g1 => compile_loop rest g1
    | inr g1 => inr g1
    end.
Proof.
  induction pre as [|s pre IH]; intros g; simpl; [reflexivity|].
  destruct (m_hadError (compileStmt s g)); [reflexivity | apply IH].
Qed.

End ErrorFlag.

(** C5 (as amended). When the lowering of a top-level statement leaves the
    error flag set, [compile] returns right after that statement: what it
    returns is the generator as that statement left it, whatever statements
    follow (they are not lowered, and neither the pops of the outermost scope
    nor the final [OP_RETURN] are emitted). The flag is sticky: no later
    lowering call clears it. *)
Theorem compile_returns_after_first_failing_statement :
  forall (pre : Program) (s : option Stmt) (post : Program)
         (g g1 : IRGen.IRGenerator),
    IRGen.compile_loop pre (IRGen.beginScope (IRGen.reset g)) = inl g1 ->
    IRGen.m_hadError (IRGen.compileStmt s g1) = true ->
    IRGen.compile (pre ++ s :: post) g
    = (IRGen.m_chunk (IRGen.compileStmt s g1), IRGen.compileStmt s g1)
    /\ (forall s', IRGen.m_hadError
                     (IRGen.compileStmt s' (IRGen.compileStmt s g1)) = true).
Proof.
  intros pre s post g g1 Hpre Hs. split.
  - unfold IRGen.compile.
    rewrite ErrorFlag.compile_loop_app, Hpre. simpl. rewrite Hs. reflexivity.
  - intros s'. apply ErrorFlag.sticky_compileStmt. exact Hs.
Qed.

(** ** Declaring locals *)

Module LocalsFacts.
Import IRGen.

Lemma markInitialized_chunk g : m_chunk (markInitialized g) = m_chunk g.
Proof. unfold markInitialized. destruct (m_locals g); reflexivity. Qed.

Lemma declareVariable_chunk name g : m_chunk (declareVariable name g) = m_chunk g.
Proof.
  unfold declareVariable.
  destruct (m_scopeDepth g =? 0); [reflexivity|].
  destruct (declared_in_scope _ _ _); reflexivity.
Qed.

Lemma set_back_depth_app l x d :
  set_back_depth (l ++ [x]) d = l ++ [mkLocal (local_name x) d (isCaptured x)].
Proof.
  induction l as [|y l IH]; simpl; [reflexivity|].
  rewrite IH. destruct (l ++ [x]) eqn:E; [|reflexivity].
  destruct l; discriminate.
Qed.

(** Declaring a name that is not yet in the current scope. *)
Lemma declareVariable_fresh name g :
  m_scopeDepth g <> 0 ->
  declared_in_scope (rev (m_locals g)) (m_scopeDepth g) name = false ->
  declareVariable name g
  = with_locals (m_locals g ++ [mkLocal name (m_scopeDepth g) false]) g.
Proof.
  intros Hd Hfresh. unfold declareVariable.
  destruct (Z.eqb_spec (m_scopeDepth g) 0); [contradiction|].
  rewrite Hfresh. reflexivity.
Qed.

(** Declaring a name that is already in the current scope. *)
Lemma declareVariable_duplicate name g :
  m_scopeDepth g <> 0 ->
  declared_in_scope (rev (m_locals g)) (m_scopeDepth g) name = true ->
  declareVariable name g
  = error (String.append "Variable '"
             (String.append name "' already declared in this scope.")) g.
Proof.
  intros Hd Hdup. unfold declareVariable.
  destruct (Z.eqb_spec (m_scopeDepth g) 0); [contradiction|].
  rewrite Hdup. reflexivity.
Qed.

Lemma markInitialized_after_declare name g :
  markInitialized
    (with_locals (m_locals g ++ [mkLocal name (m_scopeDepth g) false]) g)
  = with_locals (m_locals g ++ [mkLocal name (m_scopeDepth g) false]) g.
Proof.
  unfold markInitialized. simpl.
  destruct (m_locals g ++ [mkLocal name (m_scopeDepth g) false]) eqn:E.
  - destruct (m_locals g); discriminate.
  - rewrite <- E. unfold with_locals; simpl.
    rewrite set_back_depth_app. reflexivity.
Qed.

End LocalsFacts.

(** ** The code of a chunk only grows *)

Module CodeFacts.
Import IRGen IRGenFacts.

Ltac same_code := exists []; simpl; rewrite app_nil_r; reflexivity.

Lemma extends_refl g : extends g g.
Proof. exists []. symmetry; apply app_nil_r. Qed.

Lemma extends_trans g1 g2 g3 : extends g1 g2 -> extends g2 g3 -> extends g1 g3.
Proof.
  intros [e1 H1] [e2 H2]. exists (e1 ++ e2). rewrite H2, H1. symmetry; apply app_assoc.
Qed.

Lemma extends_size g g' : extends g g' -> 0 <= emitted g g'.
Proof.
  intros [ext H]. unfold emitted, size. rewrite H, length_app. lia.
Qed.

Lemma extends_at_index g g' i x :
  extends g g' ->
  at_index (code (m_chunk g)) i = Some x ->
  at_index (code (m_chunk g')) i = Some x.
Proof.
  intros [ext H]. unfold at_index. destruct (i <? 0); [discriminate|].
  intros Hi. rewrite H, nth_error_app1; [exact Hi|].
  apply nth_error_Some. congruence.
Qed.

Lemma size_emitByte op x g :
  size (code (m_chunk (emitByte op x g))) = size (code (m_chunk g)) + 1.
Proof. unfold size; simpl. rewrite length_app; simpl. lia. Qed.

Lemma size_emitJump op g :
  size (code (m_chunk (emitJump op g))) = size (code (m_chunk g)) + 1.
Proof. unfold size; simpl. rewrite length_app; simpl. lia. Qed.

Lemma endScope_loop_extends fuel : forall g, extends g (endScope_loop fuel g).
Proof.
  induction fuel as [|k IH]; intros g; simpl; [apply extends_refl|].
  destruct (back (m_locals g)); [|apply extends_refl].
  destruct (m_scopeDepth g <? depth l); [|apply extends_refl].
  cbv zeta. eapply extends_trans; [|apply IH].
  exists [mkInstruction OP_POP 0 VNil]. reflexivity.
Qed.

Lemma extends_endScope g : extends g (endScope g).
Proof.
  unfold endScope. cbv zeta.
  match goal with
  | |- context [endScope_loop ?n ?x] =>
      destruct (endScope_loop_extends n x) as [ext H]
  end.
  exists ext. exact H.
Qed.

Lemma extends_emitLoop start g : extends g (emitLoop start g).
Proof.
  unfold emitLoop. destruct (255 <? _); [same_code|].
  eexists; reflexivity.
Qed.

Lemma extends_declareVariable name g : extends g (declareVariable name g).
Proof. unfold extends. rewrite LocalsFacts.declareVariable_chunk. exists []. symmetry; apply app_nil_r. Qed.

Lemma extends_markInitialized g : extends g (markInitialized g).
Proof. unfold extends. rewrite LocalsFacts.markInitialized_chunk. exists []. symmetry; apply app_nil_r. Qed.

Lemma extends_compileExpr e g : extends g (compileExpr e g).
Proof.
  revert g. apply walk_compileExpr; intros.
  - apply extends_refl.
  - eapply extends_trans; eassumption.
  - eexists; reflexivity.
  - same_code.
  - eexists; reflexivity.
Qed.

(** *** Patching an operand *)

Lemma set_operand_length l : forall k v, List.length (set_operand l k v) = List.length l.
Proof.
  induction l as [|i l IH]; intros [|k] v; simpl; auto.
Qed.

Lemma set_operand_app l1 l2 : forall k v,
  (List.length l1 <= k)%nat ->
  set_operand (l1 ++ l2) k v = l1 ++ set_operand l2 (k - List.length l1) v.
Proof.
  induction l1 as [|i l1 IH]; intros k v Hk; simpl.
  - rewrite Nat.sub_0_r. reflexivity.
  - destruct k as [|k]; simpl in Hk; [lia|].
    simpl. rewrite IH by lia. reflexivity.
Qed.

Lemma set_operand_same l : forall k v i,
  nth_error l k = Some i ->
  nth_error (set_operand l k v) k = Some (mkInstruction (opcode i) v (constant i)).
Proof.
  induction l as [|x l IH]; intros [|k] v i; simpl; try discriminate.
  - intros [= ->]. reflexivity.
  - apply IH.
Qed.

Lemma set_operand_other l : forall k v j,
  j <> k -> nth_error (set_operand l k v) j = nth_error l j.
Proof.
  induction l as [|x l IH]; intros [|k] v [|j] Hj; simpl; auto; try congruence.
Qed.

Lemma size_t_sub_exact a b : b <= a -> size_t_sub a b = a - b.
Proof. intros H. unfold size_t_sub. destruct (Z.ltb_spec a b); lia. Qed.

(** The distance [patchJump] computes, when the offset is an instruction
    of the chunk. *)
Lemma patchJump_near offset g :
  0 <= offset < size (code (m_chunk g)) ->
  size (code (m_chunk g)) - 1 - offset <= 255 ->
  patchJump offset g
  = with_chunk (mkChunk (set_operand (code (m_chunk g)) (Z.to_nat offset)
                                     (size (code (m_chunk g)) - 1 - offset))
                        (lines (m_chunk g)) (constants (m_chunk g))) g.
Proof.
  intros Ho Hj. unfold patchJump. cbv zeta.
  rewrite (size_t_sub_exact _ 1) by lia.
  rewrite size_t_sub_exact by lia.
  destruct (Z.ltb_spec 255 (size (code (m_chunk g)) - 1 - offset)); [lia|].
  unfold to_u8. rewrite Z.mod_small by lia. reflexivity.
Qed.

Lemma patchJump_far offset g :
  0 <= offset < size (code (m_chunk g)) ->
  255 < size (code (m_chunk g)) - 1 - offset ->
  patchJump offset g = error "Jump too far." g.
Proof.
  intros Ho Hj. unfold patchJump. cbv zeta.
  rewrite (size_t_sub_exact _ 1) by lia.
  rewrite size_t_sub_exact by lia.
  destruct (Z.ltb_spec 255 (size (code (m_chunk g)) - 1 - offset)); [reflexivity|lia].
Qed.

Lemma patchJump_size offset g :
  size (code (m_chunk (patchJump offset g))) = size (code (m_chunk g)).
Proof.
  unfold patchJump. cbv zeta. destruct (255 <? _); [reflexivity|].
  unfold size; simpl. rewrite set_operand_length. reflexivity.
Qed.

(** A patch at or after the end of [g0] leaves the code of [g0] alone. *)
Lemma extends_patchJump g0 g offset :
  extends g0 g -> size (code (m_chunk g0)) <= offset ->
  extends g0 (patchJump offset g).
Proof.
  intros [ext H] Ho. unfold patchJump. cbv zeta.
  destruct (255 <? _); [exists ext; exact H|].
  unfold extends; simpl. rewrite H.
  rewrite set_operand_app by (unfold size in Ho; lia).
  eexists; reflexivity.
Qed.

Lemma extends_compileStmt s : forall g, extends g (compileStmt s g).
Proof.
  destruct s as [s|]; [|intros g; apply extends_refl].
  induction s using Stmt_tree_ind; intros g.
  - simpl. eapply extends_trans; [apply extends_compileExpr|]. eexists; reflexivity.
  - rewrite compileStmt_Let.
    eapply extends_trans; [apply extends_declareVariable|].
    eapply extends_trans; [apply extends_compileExpr | apply extends_markInitialized].
  - simpl. unfold compileFunctionStmt.
    eapply extends_trans; [apply extends_declareVariable|].
    eapply extends_trans; [apply extends_markInitialized|]. eexists; reflexivity.
  - rewrite compileStmt_If; cbv zeta.
    set (g0 := compileExpr c g).
    set (g1 := emitJump OP_JUMP_IF_FALSE g0).
    assert (E0 : extends g g0) by apply extends_compileExpr.
    assert (E1 : extends g g1).
    { eapply extends_trans; [exact E0|]. eexists; reflexivity. }
    assert (E2 : extends g1 (compileStmt t g1)).
    { destruct t; [apply H | apply extends_refl]. }
    set (g2 := emitJump OP_JUMP (compileStmt t g1)).
    assert (E3 : extends g1 g2).
    { eapply extends_trans; [exact E2|]. eexists; reflexivity. }
    pose proof (extends_size _ _ E0) as S0.
    pose proof (extends_size _ _ E3) as S3.
    pose proof (size_emitJump OP_JUMP_IF_FALSE g0) as S1. fold g1 in S1.
    unfold emitted in *.
    assert (S4 : 0 <= size (code (m_chunk g))) by (unfold size; lia).
    rewrite (size_t_sub_exact _ 1) by lia.
    rewrite (size_t_sub_exact _ 1) by lia.
    apply extends_patchJump; [|lia].
    eapply extends_trans; [|destruct e; [apply H0 | apply extends_refl]].
    apply extends_patchJump; [|lia].
    eapply extends_trans; eassumption.
  - rewrite compileStmt_While; cbv zeta.
    set (g0 := compileExpr c g).
    set (g1 := emitJump OP_JUMP_IF_FALSE g0).
    assert (E0 : extends g g0) by apply extends_compileExpr.
    assert (E1 : extends g g1).
    { eapply extends_trans; [exact E0|]. eexists; reflexivity. }
    pose proof (extends_size _ _ E0) as S0.
    pose proof (size_emitJump OP_JUMP_IF_FALSE g0) as S1. fold g1 in S1.
    unfold emitted in *.
    assert (S4 : 0 <= size (code (m_chunk g))) by (unfold size; lia).
    rewrite (size_t_sub_exact _ 1) by lia.
    apply extends_patchJump; [|lia].
    eapply extends_trans; [|apply extends_emitLoop].
    eapply extends_trans; [exact E1|].
    destruct b; [apply H | apply extends_refl].
  - rewrite compileStmt_Return.
    eapply extends_trans; [apply extends_compileExpr|]. eexists; reflexivity.
  - simpl. eapply extends_trans; [apply extends_compileExpr|]. eexists; reflexivity.
  - rewrite compileStmt_Block.
    eapply extends_trans; [|apply extends_endScope].
    apply (extends_trans _ (beginScope g)); [same_code|].
    apply (walk_fold_left extends extends_refl extends_trans compileStmt).
    eapply Forall_impl; [|exact H].
    intros [a|] Ha g'; [apply Ha | apply extends_refl].
Qed.

End CodeFacts.

(** C10. Lowering a function declaration uses the name only: the result is
    the same for every parameter list and every body; exactly one
    instruction, [OP_NIL], is appended and the constant pool is untouched;
    the name becomes a local of the current scope unless it duplicates one
    (or the depth is 0, where nothing is tracked); and the only error the
    lowering can raise is the duplicate declaration of the name itself, so
    nothing inside the body is ever reported. *)
Theorem compileFunctionStmt_ignores_params_and_body :
  forall (name : Token) (params : list Token) (body : list (option Stmt))
         (g : IRGen.IRGenerator),
    let g' := IRGen.compileStmt (Some (FunctionStmt name params body)) g in
    g' = IRGen.compileStmt (Some (FunctionStmt name [] [])) g
    /\ code (IRGen.m_chunk g')
       = code (IRGen.m_chunk g) ++ [mkInstruction OP_NIL 0 VNil]
    /\ constants (IRGen.m_chunk g') = constants (IRGen.m_chunk g)
    /\ (IRGen.m_scopeDepth g <> 0 ->
        IRGen.declared_in_scope (rev (IRGen.m_locals g)) (IRGen.m_scopeDepth g)
                                (lexeme name) = false ->
        IRGen.m_locals g'
        = IRGen.m_locals g ++ [mkLocal (lexeme name) (IRGen.m_scopeDepth g) false]
        /\ IRGen.m_hadError g' = IRGen.m_hadError g
        /\ IRGen.m_error g' = IRGen.m_error g)
    /\ (IRGen.m_hadError g' = true ->
        IRGen.m_hadError g = true
        \/ IRGen.declared_in_scope (rev (IRGen.m_locals g)) (IRGen.m_scopeDepth g)
                                   (lexeme name) = true).
Proof.
  intros name params body g g'. subst g'. simpl.
  unfold IRGen.compileFunctionStmt.
  split; [reflexivity|].
  split; [|split; [|split]].
  - simpl. rewrite LocalsFacts.markInitialized_chunk,
      LocalsFacts.declareVariable_chunk. reflexivity.
  - simpl. rewrite LocalsFacts.markInitialized_chunk,
      LocalsFacts.declareVariable_chunk. reflexivity.
  - intros Hd Hfresh.
    rewrite (LocalsFacts.declareVariable_fresh _ _ Hd Hfresh).
    rewrite LocalsFacts.markInitialized_after_declare. simpl. auto.
  - simpl. rewrite (proj1 (ErrorFlag.markInitialized_flag _)).
    unfold IRGen.declareVariable.
    destruct (IRGen.m_scopeDepth g =? 0); [auto|].
    destruct (IRGen.declared_in_scope _ _ _); auto.
Qed.

(** ** Patching jumps *)

Module JumpFacts.
Import IRGen IRGenFacts CodeFacts.

Lemma size_nonneg {A} (l : list A) : 0 <= size l.
Proof. unfold size; lia. Qed.

(** The placeholder is the last instruction after [emitJump]. *)
Lemma emitJump_at op g :
  at_index (code (m_chunk (emitJump op g))) (size (code (m_chunk g)))
  = Some (mkInstruction op 255 VNil).
Proof.
  unfold at_index, size. simpl.
  destruct (Z.ltb_spec (Z.of_nat (List.length (code (m_chunk g)))) 0); [lia|].
  rewrite Nat2Z.id, nth_error_app2, Nat.sub_diag; [reflexivity | lia].
Qed.

Lemma emitByte_at op x g :
  at_index (code (m_chunk (emitByte op x g))) (size (code (m_chunk g)))
  = Some (mkInstruction op x VNil).
Proof.
  unfold at_index, size. simpl.
  destruct (Z.ltb_spec (Z.of_nat (List.length (code (m_chunk g)))) 0); [lia|].
  rewrite Nat2Z.id, nth_error_app2, Nat.sub_diag; [reflexivity | lia].
Qed.

(** A patch changes the operand at its offset and nothing else. *)
Lemma patchJump_other offset g j :
  0 <= offset -> 0 <= j -> j <> offset ->
  at_index (code (m_chunk (patchJump offset g))) j = at_index (code (m_chunk g)) j.
Proof.
  intros Ho Hj Hne. unfold patchJump. cbv zeta.
  destruct (255 <? _); [reflexivity|].
  unfold at_index; simpl. destruct (j <? 0); [reflexivity|].
  apply set_operand_other. lia.
Qed.

Lemma patchJump_near_at offset g i :
  0 <= offset < size (code (m_chunk g)) ->
  size (code (m_chunk g)) - 1 - offset <= 255 ->
  at_index (code (m_chunk g)) offset = Some i ->
  at_index (code (m_chunk (patchJump offset g))) offset
  = Some (mkInstruction (opcode i) (size (code (m_chunk g)) - 1 - offset) (constant i)).
Proof.
  intros Ho Hj Hi. rewrite patchJump_near by assumption.
  unfold at_index in *; simpl. destruct (offset <? 0); [discriminate|].
  apply set_operand_same. exact Hi.
Qed.

Lemma patchJump_flag offset g :
  m_hadError g = true -> m_hadError (patchJump offset g) = true.
Proof. intros H. unfold patchJump. cbv zeta. destruct (255 <? _); auto. Qed.

Section IfStatement.

Variables (g : IRGenerator) (c : option Expr) (t e : option Stmt).

Let g0 := compileExpr c g.
Let g1 := emitJump OP_JUMP_IF_FALSE g0.
Let g2s := compileStmt t g1.
Let g2 := emitJump OP_JUMP g2s.
Let thenJump := size (code (m_chunk g1)) - 1.
Let elseJump := size (code (m_chunk g2)) - 1.
Let g3 := patchJump thenJump g2.
Let g4 := compileStmt e g3.
Let final := compileStmt (Some (IfStmt c t e)) g.

Lemma if_sizes :
  size (code (m_chunk g1)) = size (code (m_chunk g0)) + 1
  /\ size (code (m_chunk g2)) = size (code (m_chunk g1)) + emitted g1 g2s + 1
  /\ 0 <= emitted g1 g2s
  /\ 0 <= size (code (m_chunk g0)).
Proof.
  pose proof (extends_size _ _ (extends_compileStmt t g1)) as Hn.
  fold g2s in Hn.
  repeat split; try exact Hn.
  - apply size_emitJump.
  - unfold g2. rewrite size_emitJump. unfold emitted. lia.
  - apply size_nonneg.
Qed.

Lemma if_final : final = patchJump elseJump g4.
Proof.
  unfold final. rewrite compileStmt_If. cbv zeta.
  destruct if_sizes as (S1 & S2 & Hn & H0).
  fold g0 g1 g2s g2.
  rewrite !(size_t_sub_exact _ 1) by lia.
  reflexivity.
Qed.

Lemma if_then_distance :
  0 <= thenJump < size (code (m_chunk g2))
  /\ size (code (m_chunk g2)) - 1 - thenJump = emitted g1 g2s + 1.
Proof.
  destruct if_sizes as (S1 & S2 & Hn & H0). unfold thenJump. lia.
Qed.

Lemma if_then_placeholder :
  at_index (code (m_chunk g2)) thenJump = Some (mkInstruction OP_JUMP_IF_FALSE 255 VNil).
Proof.
  apply (extends_at_index g1).
  - eapply extends_trans; [apply (extends_compileStmt t)|]. eexists; reflexivity.
  - unfold thenJump, g1. rewrite size_emitJump.
    replace (size (code (m_chunk g0)) + 1 - 1) with (size (code (m_chunk g0))) by lia.
    apply emitJump_at.
Qed.

(** What is at [thenJump] after the first patch stays there. *)
Lemma if_then_kept i :
  at_index (code (m_chunk g3)) thenJump = Some i ->
  at_index (code (m_chunk final)) thenJump = Some i.
Proof.
  intros Hi. rewrite if_final.
  destruct if_sizes as (S1 & S2 & Hn & H0).
  rewrite patchJump_other; [| unfold elseJump; lia | unfold thenJump; lia
                            | unfold elseJump, thenJump; lia].
  apply (extends_at_index g3); [apply extends_compileStmt | exact Hi].
Qed.

Lemma if_then_short :
  emitted g1 g2s <= 254 ->
  m_hadError g3 = m_hadError g2s /\ m_error g3 = m_error g2s
  /\ at_index (code (m_chunk final)) thenJump
     = Some (mkInstruction OP_JUMP_IF_FALSE (emitted g1 g2s + 1) VNil).
Proof.
  intros Hn. destruct if_then_distance as [Ho Hd].
  split; [|split].
  - unfold g3. rewrite patchJump_near by lia. reflexivity.
  - unfold g3. rewrite patchJump_near by lia. reflexivity.
  - apply if_then_kept. unfold g3.
    rewrite (patchJump_near_at _ _ _ Ho ltac:(lia) if_then_placeholder).
    rewrite Hd. reflexivity.
Qed.

Lemma if_then_long :
  255 <= emitted g1 g2s ->
  g3 = error "Jump too far." g2
  /\ m_hadError final = true
  /\ at_index (code (m_chunk final)) thenJump
     = Some (mkInstruction OP_JUMP_IF_FALSE 255 VNil).
Proof.
  intros Hn. destruct if_then_distance as [Ho Hd].
  assert (E : g3 = error "Jump too far." g2).
  { unfold g3. apply patchJump_far; lia. }
  split; [exact E|split].
  - rewrite if_final. apply patchJump_flag.
    apply ErrorFlag.sticky_compileStmt. rewrite E. reflexivity.
  - apply if_then_kept. rewrite E. apply if_then_placeholder.
Qed.

Lemma if_else_distance :
  0 <= elseJump < size (code (m_chunk g4))
  /\ size (code (m_chunk g4)) - 1 - elseJump = emitted g3 g4.
Proof.
  destruct if_sizes as (S1 & S2 & Hn & H0).
  pose proof (extends_size _ _ (extends_compileStmt e g3)) as Hm. fold g4 in Hm.
  unfold emitted in *. unfold g3 in *. rewrite patchJump_size in *.
  unfold elseJump. lia.
Qed.

Lemma if_else_placeholder :
  at_index (code (m_chunk g4)) elseJump = Some (mkInstruction OP_JUMP 255 VNil).
Proof.
  destruct if_sizes as (S1 & S2 & Hn & H0).
  apply (extends_at_index g3); [apply extends_compileStmt|].
  unfold g3. rewrite patchJump_other;
    [| unfold thenJump; lia | unfold elseJump; lia | unfold elseJump, thenJump; lia].
  unfold elseJump, g2. rewrite size_emitJump.
  replace (size (code (m_chunk g2s)) + 1 - 1) with (size (code (m_chunk g2s))) by lia.
  apply emitJump_at.
Qed.

Lemma if_else_short :
  emitted g3 g4 <= 255 ->
  m_hadError final = m_hadError g4 /\ m_error final = m_error g4
  /\ at_index (code (m_chunk final)) elseJump
     = Some (mkInstruction OP_JUMP (emitted g3 g4) VNil).
Proof.
  intros Hm. destruct if_else_distance as [Ho Hd]. rewrite if_final.
  split; [|split].
  - rewrite patchJump_near by lia. reflexivity.
  - rewrite patchJump_near by lia. reflexivity.
  - rewrite (patchJump_near_at _ _ _ Ho ltac:(lia) if_else_placeholder).
    rewrite Hd. reflexivity.
Qed.

Lemma if_else_long :
  256 <= emitted g3 g4 -> final = error "Jump too far." g4.
Proof.
  intros Hm. destruct if_else_distance as [Ho Hd]. rewrite if_final.
  apply patchJump_far; lia.
Qed.

End IfStatement.

Section WhileStatement.

Variables (g : IRGenerator) (c : option Expr) (b : option Stmt).

Let g0 := compileExpr c g.
Let g1 := emitJump OP_JUMP_IF_FALSE g0.
Let g2 := compileStmt b g1.
Let exitJump := size (code (m_chunk g1)) - 1.
Let gL := emitLoop (size (code (m_chunk g))) g2.
Let final := compileStmt (Some (WhileStmt c b)) g.

Lemma while_sizes :
  size (code (m_chunk g1)) = size (code (m_chunk g0)) + 1
  /\ 0 <= emitted g g0 /\ 0 <= emitted g1 g2
  /\ emitted g g2 = emitted g g0 + 1 + emitted g1 g2
  /\ 0 <= size (code (m_chunk g)).
Proof.
  pose proof (extends_size _ _ (extends_compileStmt b g1)) as Hn. fold g2 in Hn.
  pose proof (extends_size _ _ (extends_compileExpr c g)) as Hc. fold g0 in Hc.
  pose proof (size_emitJump OP_JUMP_IF_FALSE g0) as S1. fold g1 in S1.
  repeat split; try assumption.
  - unfold emitted in *. lia.
  - apply size_nonneg.
Qed.

Lemma while_final : final = patchJump exitJump gL.
Proof.
  unfold final. rewrite compileStmt_While. cbv zeta.
  destruct while_sizes as (S1 & Hc & Hn & Ht & H0).
  fold g0 g1 g2. unfold emitted in *.
  rewrite (size_t_sub_exact _ 1) by lia.
  reflexivity.
Qed.

Lemma while_placeholder :
  at_index (code (m_chunk g2)) exitJump = Some (mkInstruction OP_JUMP_IF_FALSE 255 VNil).
Proof.
  apply (extends_at_index g1); [apply extends_compileStmt|].
  unfold exitJump, g1. rewrite size_emitJump.
  replace (size (code (m_chunk g0)) + 1 - 1) with (size (code (m_chunk g0))) by lia.
  apply emitJump_at.
Qed.

Lemma while_loop_emitted :
  emitted g g2 <= 255 ->
  gL = emitByte OP_LOOP (emitted g g2) g2.
Proof.
  intros Ht. destruct while_sizes as (S1 & Hc & Hn & Hs & H0).
  unfold gL, emitLoop. cbv zeta.
  assert (E : size_t_sub (size (code (m_chunk g2))) (size (code (m_chunk g)))
              = emitted g g2).
  { unfold emitted in *. apply size_t_sub_exact. lia. }
  rewrite E. destruct (Z.ltb_spec 255 (emitted g g2)); [lia|].
  unfold to_u8. rewrite Z.mod_small by lia. reflexivity.
Qed.

Lemma while_loop_too_large :
  256 <= emitted g g2 -> gL = error "Loop body too large." g2.
Proof.
  intros Ht. destruct while_sizes as (S1 & Hc & Hn & Hs & H0).
  unfold gL, emitLoop. cbv zeta.
  assert (E : size_t_sub (size (code (m_chunk g2))) (size (code (m_chunk g)))
              = emitted g g2).
  { unfold emitted in *. apply size_t_sub_exact. lia. }
  rewrite E. destruct (Z.ltb_spec 255 (emitted g g2)); [reflexivity|lia].
Qed.

Lemma while_short :
  emitted g g2 <= 255 ->
  m_hadError final = m_hadError g2 /\ m_error final = m_error g2
  /\ at_index (code (m_chunk final)) exitJump
     = Some (mkInstruction OP_JUMP_IF_FALSE (emitted g1 g2 + 1) VNil)
  /\ at_index (code (m_chunk final)) (size (code (m_chunk g2)))
     = Some (mkInstruction OP_LOOP (emitted g g2) VNil).
Proof.
  intros Ht. destruct while_sizes as (S1 & Hc & Hn & Hs & H0).
  pose proof (while_loop_emitted Ht) as EL.
  assert (SL : size (code (m_chunk gL)) = size (code (m_chunk g2)) + 1).
  { rewrite EL. apply size_emitByte. }
  assert (Ho : 0 <= exitJump < size (code (m_chunk gL))).
  { unfold exitJump, emitted in *. lia. }
  assert (Hd : size (code (m_chunk gL)) - 1 - exitJump = emitted g1 g2 + 1).
  { unfold exitJump, emitted in *. lia. }
  assert (HP : at_index (code (m_chunk gL)) exitJump
               = Some (mkInstruction OP_JUMP_IF_FALSE 255 VNil)).
  { apply (extends_at_index g2); [|apply while_placeholder].
    rewrite EL. eexists; reflexivity. }
  rewrite while_final.
  split; [|split; [|split]].
  - rewrite patchJump_near by lia. rewrite EL. reflexivity.
  - rewrite patchJump_near by lia. rewrite EL. reflexivity.
  - rewrite (patchJump_near_at _ _ _ Ho ltac:(lia) HP). rewrite Hd. reflexivity.
  - rewrite patchJump_other;
      [| lia | unfold emitted in *; lia | unfold exitJump, emitted in *; lia].
    rewrite EL. apply emitByte_at.
Qed.

Lemma while_long :
  256 <= emitted g g2 ->
  m_hadError final = true
  /\ (emitted g1 g2 <= 255 -> m_error final = "Loop body too large.")
  /\ (256 <= emitted g1 g2 -> m_error final = "Jump too far.").
Proof.
  intros Ht. destruct while_sizes as (S1 & Hc & Hn & Hs & H0).
  pose proof (while_loop_too_large Ht) as EL.
  assert (SL : size (code (m_chunk gL)) = size (code (m_chunk g2))).
  { rewrite EL. reflexivity. }
  assert (Ho : 0 <= exitJump < size (code (m_chunk gL))).
  { unfold exitJump, emitted in *. lia. }
  assert (Hd : size (code (m_chunk gL)) - 1 - exitJump = emitted g1 g2).
  { unfold exitJump, emitted in *. lia. }
  rewrite while_final.
  split; [|split].
  - apply patchJump_flag. rewrite EL. reflexivity.
  - intros Hb. rewrite patchJump_near by lia. rewrite EL. reflexivity.
  - intros Hb. rewrite patchJump_far by lia. reflexivity.
Qed.

End WhileStatement.

End JumpFacts.

(** C7 (as amended). The distance [patchJump] writes is the number of
    instructions after the placeholder: for the placeholder of a then-branch
    or of a loop body of [n] instructions it is [n + 1], because an [OP_JUMP]
    or an [OP_LOOP] follows the body, and for the placeholder before an
    else-branch of [m] instructions it is [m]. So a then-branch of up to 254
    instructions is patched with [n + 1] and raises no error, and one of 255
    or more (256 included) fails with "Jump too far."; an else-branch of up to
    255 instructions is patched with [m], and one of 256 or more fails with
    "Jump too far."; a loop whose condition, placeholder and body take up to
    255 instructions is patched with [n + 1], a longer one fails, with "Loop
    body too large." while the body has at most 255 instructions and with
    "Jump too far." from 256 on. *)
Theorem jump_patch_boundaries :
  (forall (g : IRGen.IRGenerator) (c : option Expr) (t e : option Stmt),
     let g1 := IRGen.emitJump OP_JUMP_IF_FALSE (IRGen.compileExpr c g) in
     let g2s := IRGen.compileStmt t g1 in
     let g2 := IRGen.emitJump OP_JUMP g2s in
     let thenJump := size (code (IRGen.m_chunk g1)) - 1 in
     let elseJump := size (code (IRGen.m_chunk g2)) - 1 in
     let g3 := IRGen.patchJump thenJump g2 in
     let g4 := IRGen.compileStmt e g3 in
     let final := IRGen.compileStmt (Some (IfStmt c t e)) g in
     size (code (IRGen.m_chunk g2)) - 1 - thenJump = emitted g1 g2s + 1
     /\ (emitted g1 g2s <= 254 ->
         IRGen.m_hadError g3 = IRGen.m_hadError g2s
         /\ IRGen.m_error g3 = IRGen.m_error g2s
         /\ at_index (code (IRGen.m_chunk final)) thenJump
            = Some (mkInstruction OP_JUMP_IF_FALSE (emitted g1 g2s + 1) VNil))
     /\ (255 <= emitted g1 g2s ->
         g3 = IRGen.error "Jump too far." g2
         /\ IRGen.m_hadError final = true
         /\ at_index (code (IRGen.m_chunk final)) thenJump
            = Some (mkInstruction OP_JUMP_IF_FALSE 255 VNil))
     /\ (emitted g3 g4 <= 255 ->
         IRGen.m_hadError final = IRGen.m_hadError g4
         /\ IRGen.m_error final = IRGen.m_error g4
         /\ at_index (code (IRGen.m_chunk final)) elseJump
            = Some (mkInstruction OP_JUMP (emitted g3 g4) VNil))
     /\ (256 <= emitted g3 g4 -> final = IRGen.error "Jump too far." g4))
  /\
  (forall (g : IRGen.IRGenerator) (c : option Expr) (b : option Stmt),
     let g1 := IRGen.emitJump OP_JUMP_IF_FALSE (IRGen.compileExpr c g) in
     let g2 := IRGen.compileStmt b g1 in
     let exitJump := size (code (IRGen.m_chunk g1)) - 1 in
     let final := IRGen.compileStmt (Some (WhileStmt c b)) g in
     emitted g g2 = emitted g (IRGen.compileExpr c g) + 1 + emitted g1 g2
     /\ 0 <= emitted g (IRGen.compileExpr c g)
     /\ (emitted g g2 <= 255 ->
         IRGen.m_hadError final = IRGen.m_hadError g2
         /\ IRGen.m_error final = IRGen.m_error g2
         /\ at_index (code (IRGen.m_chunk final)) exitJump
            = Some (mkInstruction OP_JUMP_IF_FALSE (emitted g1 g2 + 1) VNil)
         /\ at_index (code (IRGen.m_chunk final)) (size (code (IRGen.m_chunk g2)))
            = Some (mkInstruction OP_LOOP (emitted g g2) VNil))
     /\ (256 <= emitted g g2 ->
         IRGen.m_hadError final = true
         /\ (emitted g1 g2 <= 255 -> IRGen.m_error final = "Loop body too large.")
         /\ (256 <= emitted g1 g2 -> IRGen.m_error final = "Jump too far."))).
Proof.
  split.
  - intros g c t e. cbv zeta.
    split; [apply (JumpFacts.if_then_distance g c t)|].
    split; [apply JumpFacts.if_then_short|].
    split; [apply JumpFacts.if_then_long|].
    split; [apply JumpFacts.if_else_short | apply JumpFacts.if_else_long].
  - intros g c b. cbv zeta.
    destruct (JumpFacts.while_sizes g c b) as (S1 & Hc & Hn & Hs & H0).
    split; [exact Hs|]. split; [exact Hc|].
    split; [apply JumpFacts.while_short | apply JumpFacts.while_long].
Qed.

(** ** Scopes and locals *)

Module ScopeFacts.
Import IRGen IRGenFacts.

(** *** The locals vector, read as a stack *)

Lemma back_rev {A} (l : list A) : back l = hd_error (rev l).
Proof.
  unfold back. destruct l as [|x l] using rev_ind; [reflexivity|].
  rewrite map_app, rev_app_distr; simpl. apply last_last.
Qed.

Lemma rev_pop_back {A} (l : list A) : rev (pop_back l) = tl (rev l).
Proof.
  unfold pop_back. destruct l as [|x l] using rev_ind; [reflexivity|].
  rewrite removelast_last, rev_app_distr. reflexivity.
Qed.

Lemma rev_set_back_depth l d :
  rev (set_back_depth l d)
  = match rev l with
    | [] => []
    | x :: r => mkLocal (local_name x) d (isCaptured x) :: r
    end.
Proof.
  destruct l as [|x l] using rev_ind; [reflexivity|].
  rewrite LocalsFacts.set_back_depth_app, !rev_app_distr. reflexivity.
Qed.

Lemma descend_mono rl : forall d d', d <= d' -> depths_descend d rl -> depths_descend d' rl.
Proof. destruct rl; simpl; intros; [auto|]. split; [lia|tauto]. Qed.

(** *** The scan of [declareVariable] *)

Lemma scan_found rl : forall d name,
  declared_in_scope rl d name = true ->
  exists l, In l rl /\ local_name l = name /\ depth l = d.
Proof.
  induction rl as [|it rest IH]; simpl; intros d name H; [discriminate|].
  destruct (Z.eqb_spec (depth it) d) as [Hd|Hd]; simpl in H; [|discriminate].
  destruct (String.eqb_spec (local_name it) name) as [Hn|Hn].
  - exists it. auto.
  - destruct (IH _ _ H) as (l & Hin & Hl). exists l. auto.
Qed.

Lemma scan_finds rl : forall d name l,
  depths_descend d rl ->
  In l rl -> local_name l = name -> depth l = d ->
  declared_in_scope rl d name = true.
Proof.
  induction rl as [|it rest IH]; simpl; intros d name l Hdesc Hin Hn Hd; [contradiction|].
  destruct Hdesc as [Hle Hrest].
  destruct Hin as [->|Hin].
  - rewrite Hd, Z.eqb_refl. simpl. rewrite Hn, String.eqb_refl. reflexivity.
  - assert (Hit : depth it = d).
    { destruct rest as [|y r]; [contradiction|].
      assert (depth l <= depth it).
      { clear IH Hle. revert Hrest Hin. generalize (depth it).
        induction (y :: r) as [|z q IHq]; simpl; intros D Hq Hi; [contradiction|].
        destruct Hq as [Hz Hq']. destruct Hi as [->|Hi]; [exact Hz|].
        specialize (IHq _ Hq' Hi). lia. }
      lia. }
    rewrite Hit, Z.eqb_refl. simpl.
    destruct (String.eqb (local_name it) name); [reflexivity|].
    apply (IH d name l); auto. rewrite <- Hit. exact Hrest.
Qed.

Lemma declared_here_scan name g :
  locals_ordered g ->
  declared_in_scope (rev (m_locals g)) (m_scopeDepth g) name = true
  <-> declared_here name g.
Proof.
  intros [Hdesc _]. unfold declared_here. split.
  - intros H. destruct (scan_found _ _ _ H) as (l & Hin & Hl).
    exists l. split; [apply in_rev; exact Hin | exact Hl].
  - intros (l & Hin & Hn & Hd).
    apply (scan_finds _ _ _ l Hdesc); auto. apply in_rev in Hin. exact Hin.
Qed.

(** *** Lowering keeps the locals ordered *)

(** Expressions touch neither the locals nor the depth. *)
Lemma compileExpr_scope e g :
  m_locals (compileExpr e g) = m_locals g
  /\ m_scopeDepth (compileExpr e g) = m_scopeDepth g.
Proof.
  revert g.
  apply (walk_compileExpr
           (fun g g' => m_locals g' = m_locals g /\ m_scopeDepth g' = m_scopeDepth g));
    intros; simpl; auto.
  destruct H, H0. split; congruence.
Qed.

Lemma ordered_same_scope g g' :
  m_locals g' = m_locals g -> m_scopeDepth g' = m_scopeDepth g ->
  locals_ordered g -> locals_ordered g'.
Proof. unfold locals_ordered. intros -> ->. auto. Qed.

Lemma ordered_declareVariable name g :
  locals_ordered g ->
  locals_ordered (declareVariable name g)
  /\ m_scopeDepth (declareVariable name g) = m_scopeDepth g.
Proof.
  intros H. unfold declareVariable.
  destruct (m_scopeDepth g =? 0); [auto|].
  destruct (declared_in_scope _ _ _); [auto|].
  split; [|reflexivity].
  destruct H as [Hd Hb]. split; [|exact Hb].
  simpl. rewrite rev_app_distr. simpl. split; [lia | exact Hd].
Qed.

Lemma ordered_markInitialized g :
  locals_ordered g ->
  locals_ordered (markInitialized g)
  /\ m_scopeDepth (markInitialized g) = m_scopeDepth g.
Proof.
  intros H. unfold markInitialized.
  destruct (m_locals g) as [|x l] eqn:E; [auto|]. rewrite <- E.
  split; [|reflexivity].
  destruct H as [Hd Hb]. split; [|exact Hb].
  unfold with_locals; simpl. rewrite rev_set_back_depth.
  destruct (rev (m_locals g)) as [|y r]; [exact I|].
  simpl in *. split; [lia|].
  apply (descend_mono r (depth y)); tauto.
Qed.

Lemma endScope_loop_scope fuel : forall g D,
  (List.length (m_locals g) <= fuel)%nat ->
  depths_descend D (rev (m_locals g)) ->
  depths_descend (m_scopeDepth g) (rev (m_locals (endScope_loop fuel g)))
  /\ m_scopeDepth (endScope_loop fuel g) = m_scopeDepth g.
Proof.
  induction fuel as [|k IH]; intros g D Hlen Hd; simpl.
  - destruct (m_locals g); [simpl; auto | simpl in Hlen; lia].
  - rewrite back_rev.
    destruct (rev (m_locals g)) as [|x r] eqn:E; simpl.
    + rewrite E. simpl. auto.
    + destruct (Z.ltb_spec (m_scopeDepth g) (depth x)).
      * cbv zeta.
        match goal with
        | |- context [endScope_loop k ?y] => destruct (IH y (depth x)) as [H1 H2]
        end.
        { simpl. unfold pop_back.
          assert (L : List.length (rev (m_locals g)) = S (List.length r))
            by (rewrite E; reflexivity).
          rewrite length_rev in L.
          destruct (m_locals g) as [|a l] using rev_ind; [discriminate|].
          rewrite removelast_last. rewrite length_app in *. simpl in *. lia. }
        { simpl. rewrite rev_pop_back, E. simpl. simpl in Hd. tauto. }
        split; [exact H1 | exact H2].
      * rewrite E. simpl. simpl in Hd. split; [|reflexivity].
        split; [lia | tauto].
Qed.

Lemma ordered_endScope g d :
  depths_descend d (rev (m_locals g)) ->
  1 <= m_scopeDepth g < 2 ^ 64 ->
  locals_ordered (endScope g)
  /\ m_scopeDepth (endScope g) = m_scopeDepth g - 1.
Proof.
  intros Hd Hb. unfold endScope. cbv zeta.
  rewrite CodeFacts.size_t_sub_exact by lia.
  match goal with
  | |- context [endScope_loop ?n ?y] =>
      destruct (endScope_loop_scope n y d) as [H1 H2]
  end.
  - simpl. lia.
  - exact Hd.
  - simpl in H1, H2. unfold locals_ordered. simpl.
    rewrite H2. split; [|reflexivity]. split; [exact H1 | lia].
Qed.

Lemma ordered_beginScope g :
  locals_ordered g -> m_scopeDepth g + 1 < 2 ^ 64 ->
  locals_ordered (beginScope g)
  /\ m_scopeDepth (beginScope g) = m_scopeDepth g + 1.
Proof.
  intros [Hd Hb] Hlt. unfold beginScope, locals_ordered. simpl.
  unfold size_t_add. destruct (Z.leb_spec (2 ^ 64) (m_scopeDepth g + 1)); [lia|].
  split; [|reflexivity]. split; [|lia].
  apply (descend_mono _ (m_scopeDepth g)); [lia | exact Hd].
Qed.

Lemma patchJump_scope offset g :
  m_locals (patchJump offset g) = m_locals g
  /\ m_scopeDepth (patchJump offset g) = m_scopeDepth g.
Proof. unfold patchJump. cbv zeta. destruct (255 <? _); auto. Qed.

Lemma emitLoop_scope start g :
  m_locals (emitLoop start g) = m_locals g
  /\ m_scopeDepth (emitLoop start g) = m_scopeDepth g.
Proof. unfold emitLoop. cbv zeta. destruct (255 <? _); auto. Qed.

Lemma keeps_order_fold stmts :
  Forall keeps_order stmts ->
  forall g, locals_ordered g ->
    m_scopeDepth g + fold_right (fun p n => Z.max (ptr_nesting p) n) 0 stmts < 2 ^ 64 ->
    locals_ordered (fold_left (fun g s => compileStmt s g) stmts g)
    /\ m_scopeDepth (fold_left (fun g s => compileStmt s g) stmts g) = m_scopeDepth g.
Proof.
  induction 1 as [|s stmts Hs _ IH]; intros g Hg Hn; simpl; [auto|].
  simpl in Hn.
  destruct (Hs g Hg) as [H1 H2]; [lia|].
  destruct (IH (compileStmt s g) H1) as [H3 H4]; [rewrite H2; lia|].
  split; [exact H3 | congruence].
Qed.

Lemma ordered_compileStmt s : keeps_order s.
Proof.
  destruct s as [s|]; [|intros g Hg _; auto].
  induction s using Stmt_tree_ind; intros g Hg Hn.
  - simpl. split; [|apply compileExpr_scope].
    destruct (compileExpr_scope e g).
    apply (ordered_same_scope (compileExpr e g)); auto.
    apply (ordered_same_scope g); auto.
  - rewrite compileStmt_Let.
    destruct (ordered_declareVariable (lexeme name) g Hg) as [H1 H2].
    destruct (compileExpr_scope init (declareVariable (lexeme name) g)) as [H3 H4].
    destruct (ordered_markInitialized
                (compileExpr init (declareVariable (lexeme name) g))) as [H5 H6].
    { apply (ordered_same_scope (declareVariable (lexeme name) g)); auto. }
    split; [exact H5 | congruence].
  - simpl. unfold compileFunctionStmt.
    destruct (ordered_declareVariable (lexeme name) g Hg) as [H1 H2].
    destruct (ordered_markInitialized _ H1) as [H3 H4].
    split; [|simpl; congruence].
    apply (ordered_same_scope (markInitialized (declareVariable (lexeme name) g)));
      auto.
  - rewrite compileStmt_If. cbv zeta. simpl in Hn.
    set (g1 := emitJump OP_JUMP_IF_FALSE (compileExpr c g)).
    assert (G1 : locals_ordered g1 /\ m_scopeDepth g1 = m_scopeDepth g).
    { destruct (compileExpr_scope c g). split; [|assumption].
      apply (ordered_same_scope g); auto. }
    destruct G1 as [G1 D1].
    assert (T : keeps_order t) by (destruct t; [exact H | intros ? ? _; auto]).
    assert (E : keeps_order e) by (destruct e; [exact H0 | intros ? ? _; auto]).
    destruct (T g1 G1) as [G2 D2].
    { rewrite D1. fold (ptr_nesting t) (ptr_nesting e) in Hn. lia. }
    match goal with
    | |- context [compileStmt e ?x] =>
        assert (G3 : locals_ordered x /\ m_scopeDepth x = m_scopeDepth g)
    end.
    { destruct (patchJump_scope
                  (size_t_sub (size (code (m_chunk g1))) 1)
                  (emitJump OP_JUMP (compileStmt t g1))) as [L3 S3].
      split; [|rewrite S3; simpl; rewrite D2; exact D1].
      apply (ordered_same_scope (compileStmt t g1)); auto. }
    destruct G3 as [G3 D3].
    match goal with
    | |- context [compileStmt e ?x] => destruct (E x G3) as [G4 D4]
    end.
    { rewrite D3. fold (ptr_nesting t) (ptr_nesting e) in Hn. lia. }
    match goal with
    | |- context [patchJump ?o ?x] => destruct (patchJump_scope o x) as [L5 S5]
    end.
    split; [|congruence].
    eapply ordered_same_scope; [exact L5 | exact S5 | exact G4].
  - rewrite compileStmt_While. cbv zeta. simpl in Hn.
    set (g1 := emitJump OP_JUMP_IF_FALSE (compileExpr c g)).
    assert (G1 : locals_ordered g1 /\ m_scopeDepth g1 = m_scopeDepth g).
    { destruct (compileExpr_scope c g). split; [|assumption].
      apply (ordered_same_scope g); auto. }
    destruct G1 as [G1 D1].
    assert (B : keeps_order b) by (destruct b; [exact H | intros ? ? _; auto]).
    destruct (B g1 G1) as [G2 D2].
    { rewrite D1. fold (ptr_nesting b) in Hn. lia. }
    destruct (emitLoop_scope (size (code (m_chunk g))) (compileStmt b g1)) as [L3 S3].
    match goal with
    | |- context [patchJump ?o ?x] => destruct (patchJump_scope o x) as [L4 S4]
    end.
    split; [|congruence].
    eapply ordered_same_scope; [exact L4 | exact S4 |].
    eapply ordered_same_scope; [exact L3 | exact S3 | exact G2].
  - rewrite compileStmt_Return.
    destruct (compileExpr_scope v g).
    split; [|simpl; assumption].
    apply (ordered_same_scope g); auto.
  - simpl. destruct (compileExpr_scope e g).
    split; [|simpl; assumption].
    apply (ordered_same_scope g); auto.
  - rewrite compileStmt_Block.
    change (ptr_nesting (Some (BlockStmt stmts)))
      with (1 + fold_right (fun p n => Z.max (ptr_nesting p) n) 0 stmts) in Hn.
    assert (N : 0 <= fold_right (fun p n => Z.max (ptr_nesting p) n) 0 stmts).
    { clear. induction stmts; simpl; lia. }
    destruct (ordered_beginScope g Hg) as [G1 D1]; [lia|].
    destruct (keeps_order_fold stmts) with (g := beginScope g) as [G2 D2];
      [| exact G1 | rewrite D1; lia |].
    { eapply Forall_impl; [|exact H].
      intros [a|] Ha; [exact Ha | intros ? ? _; auto]. }
    destruct G2 as [G2 B2].
    destruct (ordered_endScope _ _ G2) as [G3 D3]; [destruct Hg; lia|].
    split; [exact G3|]. rewrite D3, D2, D1. lia.
Qed.

(** Every state the top-level walk of [compile] goes through has its
    locals ordered. *)
Lemma ordered_start g : locals_ordered (beginScope (reset g)).
Proof.
  unfold locals_ordered. split; [exact I|].
  change (0 <= 1 < 2 ^ 64). lia.
Qed.

Lemma ordered_compile_loop program : forall g,
  locals_ordered g ->
  Forall (fun s => m_scopeDepth g + ptr_nesting s < 2 ^ 64) program ->
  match compile_loop program g with
  | inl g' => locals_ordered g'
  | inr g' => locals_ordered g'
  end.
Proof.
  induction program as [|s rest IH]; intros g Hg Hn; simpl; [exact Hg|].
  inversion Hn as [|? ? Hs Hrest]; subst.
  destruct (ordered_compileStmt s g Hg Hs) as [H1 H2].
  destruct (m_hadError (compileStmt s g)); [exact H1|].
  apply IH; [exact H1|]. rewrite H2. exact Hrest.
Qed.

End ScopeFacts.

(** C8. In a generator whose locals are ordered (every state of a compile
    is, see [ScopeFacts.ordered_compile_loop]) and whose depth is not 0,
    declaring a name that a local of the current depth already has raises
    the duplicate-declaration error and declares nothing, while declaring a
    name that no local of the current depth has succeeds, whatever locals of
    other depths are called: the name is pushed at the current depth and no
    error is raised. The block that declares [x] twice fails to compile with
    that error; the program that declares [x] at the top level and again in
    the block of an [if] compiles without error (when [std::stod] reads the
    literals [1] and [2]; when it throws on one of them, [compile] does not
    return). *)
Theorem declareVariable_rejects_duplicates_at_same_depth_only :
  forall (stod : string -> option float) (c0 : Compiler.State)
         (g : IRGen.IRGenerator) (name : string),
    locals_ordered g ->
    IRGen.m_scopeDepth g <> 0 ->
    (declared_here name g ->
     IRGen.declareVariable name g
     = IRGen.error (String.append "Variable '"
                      (String.append name "' already declared in this scope.")) g)
    /\ (~ declared_here name g ->
        IRGen.declareVariable name g
        = IRGen.with_locals
            (IRGen.m_locals g ++ [mkLocal name (IRGen.m_scopeDepth g) false]) g)
    /\ match stod "1", stod "2" with
       | Some _, Some _ =>
           (exists compiled,
              Compiler.compile stod "{ let x = 1; let x = 2; }" c0
              = Some (compiled,
                      Compiler.mkState
                        "Variable 'x' already declared in this scope."
                        (Compiler.m_vm c0))
              /\ Compiler.chunk compiled = empty_chunk)
           /\ (exists compiled,
                 Compiler.compile stod "let x = 1; if (true) { let x = 2; }" c0
                 = Some (compiled, Compiler.mkState EmptyString (Compiler.m_vm c0))
                 /\ option_map IRGen.m_hadError (Compiler.lowered compiled)
                    = Some false)
       | _, _ =>
           Compiler.compile stod "{ let x = 1; let x = 2; }" c0 = None
           /\ Compiler.compile stod "let x = 1; if (true) { let x = 2; }" c0 = None
       end.
Proof.
  intros stod c0 g name Hg Hd.
  split; [|split].
  - intros H. apply LocalsFacts.declareVariable_duplicate; [exact Hd|].
    apply ScopeFacts.declared_here_scan; assumption.
  - intros H. apply LocalsFacts.declareVariable_fresh; [exact Hd|].
    destruct (IRGen.declared_in_scope (rev (IRGen.m_locals g))
                (IRGen.m_scopeDepth g) name) eqn:E; [|reflexivity].
    exfalso. apply H. apply ScopeFacts.declared_here_scan; assumption.
  - destruct (stod "1") as [one|] eqn:E1; destruct (stod "2") as [two|] eqn:E2.
    + read_literals stod [("1", Some one); ("2", Some two)].
      split; eexists; split; vm_compute; reflexivity.
    + read_literals stod [("1", Some one); ("2", @None float)].
      split; vm_compute; reflexivity.
    + read_literals stod [("1", @None float); ("2", Some two)].
      split; vm_compute; reflexivity.
    + read_literals stod [("1", @None float); ("2", @None float)].
      split; vm_compute; reflexivity.
Qed.

(** ** The virtual machine *)

(** ** What the unimplemented opcodes come from *)

Module Unimplemented.
Import IRGen.

Lemma read_of_local name g :
  resolveLocal (lexeme name) g <> -1 ->
  compileExpr (Some (VariableExpr name)) g
  = emitByte OP_GET_LOCAL (to_u8 (resolveLocal (lexeme name) g)) g.
Proof.
  intros H. simpl. unfold compileVariableExpr.
  destruct (Z.eqb_spec (resolveLocal (lexeme name) g) (-1)); [contradiction|].
  reflexivity.
Qed.

Lemma write_of_local name value g :
  resolveLocal (lexeme name) (compileExpr value g) <> -1 ->
  compileExpr (Some (AssignExpr name value)) g
  = emitByte OP_SET_LOCAL
      (to_u8 (resolveLocal (lexeme name) (compileExpr value g)))
      (compileExpr value g).
Proof.
  intros H. rewrite IRGenFacts.compileExpr_Assign. unfold emitAssign.
  destruct (Z.eqb_spec (resolveLocal (lexeme name) (compileExpr value g)) (-1));
    [contradiction|].
  reflexivity.
Qed.

Lemma call callee paren args g :
  exists g', compileExpr (Some (CallExpr callee paren args)) g
             = emitByte OP_CALL (to_u8 (size args)) g'.
Proof. rewrite IRGenFacts.compileExpr_Call. eexists; reflexivity. Qed.

End Unimplemented.

Module VMFacts.
Import VMOps.

Section WithLibrary.

Variable fmod : float -> float -> float.
Variable format_double : float -> string.

Local Abbreviation step := (VMOps.step fmod format_double).
Local Abbreviation run := (VMOps.run fmod format_double).
Local Abbreviation interpret := (VMOps.interpret fmod format_double).
Local Abbreviation reach := (turns fmod format_double).

(** Reading the instruction the pointer is at. *)
Lemma readInstruction_at chunk vm instr :
  at_index (code chunk) (m_ip vm) = Some instr ->
  readInstruction chunk vm = (instr, with_ip (size_t_add (m_ip vm) 1) vm).
Proof.
  intros H. unfold readInstruction. rewrite H.
  unfold at_index in H. destruct (Z.ltb_spec (m_ip vm) 0); [discriminate|].
  assert (Z.to_nat (m_ip vm) < List.length (code chunk))%nat
    by (apply nth_error_Some; congruence).
  destruct (Z.leb_spec (size (code chunk)) (m_ip vm)); [unfold size in *; lia|].
  reflexivity.
Qed.

(** A run that reaches a returning turn returns there. *)
Lemma run_after_turns n : forall chunk vm st k r vm',
  reach n chunk vm = Some st ->
  step chunk st = Return r vm' ->
  run (n + S k) chunk vm = Finished r vm'.
Proof.
  induction n as [|n IH]; intros chunk vm st k r vm' Ht Hs; simpl in *.
  - injection Ht as <-. rewrite Hs. reflexivity.
  - destruct (step chunk vm) as [vm1|r1 vm1|vm1]; try discriminate.
    eapply IH; eassumption.
Qed.

Lemma step_unimplemented chunk st instr :
  at_index (code chunk) (m_ip st) = Some instr ->
  In (opcode instr) [OP_GET_LOCAL; OP_SET_LOCAL; OP_CALL] ->
  step chunk st
  = Return InterpretResult.RUNTIME_ERROR
      (mkVM (m_stack st) (size_t_add (m_ip st) 1)
            (unimplemented_message (opcode instr)) (m_output st)).
Proof.
  intros Hat Hop. unfold VMOps.step. rewrite (readInstruction_at _ _ _ Hat).
  destruct Hop as [<-|[<-|[<-|[]]]]; reflexivity.
Qed.

(** *** The output of a run *)

Ltac no_line := exists []; rewrite !app_nil_r; split; reflexivity.
Ltac one_line := eexists [_]; split; reflexivity.

Lemma step_output chunk st out :
  same_turn (step chunk st) (step chunk (set_output out st)) (m_output st) out.
Proof.
  unfold VMOps.step, readInstruction. simpl.
  destruct (size (code chunk) <=? m_ip st); [simpl; no_line|].
  destruct (at_index (code chunk) (m_ip st)) as [[op x cst]|]; [|simpl; no_line].
  destruct st as [stack ip err o]. simpl.
  destruct op; simpl; unfold numericBinary, pop, peek, push; simpl;
    try (destruct (at_index (constants chunk) x); simpl);
    try (destruct stack as [|[|?|?|?] [|[|?|?|?] ?]]; simpl);
    repeat match goal with
           | |- context [if ?b then _ else _] => destruct b; simpl
           end;
    try exact I; try no_line; try one_line.
Qed.

Lemma run_output fuel : forall chunk st out r st',
  run fuel chunk st = Finished r st' ->
  exists lines,
    m_output st' = m_output st ++ lines
    /\ run fuel chunk (set_output out st) = Finished r (set_output (out ++ lines) st').
Proof.
  induction fuel as [|k IH]; intros chunk st out r st' H; simpl in *; [discriminate|].
  pose proof (step_output chunk st out) as S.
  destruct (step chunk st) as [s1|r1 s1|s1]; simpl in S; try discriminate.
  - destruct S as (l1 & E1 & ->).
    destruct (IH chunk s1 (out ++ l1) r st' H) as (l2 & E2 & R2).
    exists (l1 ++ l2). rewrite E2, E1, <- !app_assoc. split; [reflexivity|].
    rewrite <- app_assoc in R2. exact R2.
  - injection H as <- <-. destruct S as (l1 & E1 & ->).
    exists l1. split; [exact E1 | reflexivity].
Qed.

End WithLibrary.

End VMFacts.

(** C1 (as amended). When the run of a chunk reaches, after [n] turns, an
    instruction whose opcode is [OP_GET_LOCAL], [OP_SET_LOCAL] or [OP_CALL],
    [interpret] stops there: it returns [RUNTIME_ERROR], the stored message
    is "Local variables not fully implemented." for the two local-slot
    opcodes and "Function calls not fully implemented." for [OP_CALL], and
    the stack and the output are as they were when the instruction was
    reached. [Compiler::run] hands the same status and message to its
    caller, for a chunk and for the source text of a program that compiles to
    it. These opcodes are what the generator emits for the programs in
    question: [OP_GET_LOCAL] for the read of an identifier that resolves to a
    local, [OP_SET_LOCAL] after the code of the value for an assignment to
    one (with fewer than [2 ^ 31] locals, where [resolveLocal] is defined),
    [OP_CALL] after the code of the callee and of the arguments for every
    call. So a program fails with the message when its run reaches the
    read, the write or the call, as [let x = 1; print x;], [let x = 1;
    x = 2;] and [1();] do (where [std::stod] reads their literals). *)
Theorem interpret_stops_at_unimplemented_opcode :
  forall (fmod : float -> float -> float) (format_double : float -> string)
         (chunk : Chunk) (vm : VMOps.VM) (n : nat) (st : VMOps.VM)
         (instr : Instruction) (fuel : nat) (c : Compiler.State),
    turns fmod format_double n chunk (VMOps.reset vm) = Some st ->
    at_index (code chunk) (VMOps.m_ip st) = Some instr ->
    In (opcode instr) [OP_GET_LOCAL; OP_SET_LOCAL; OP_CALL] ->
    (n < fuel)%nat ->
    let stopped :=
      VMOps.mkVM (VMOps.m_stack st) (size_t_add (VMOps.m_ip st) 1)
                 (unimplemented_message (opcode instr)) (VMOps.m_output st) in
    (VMOps.interpret fmod format_double fuel chunk vm
     = VMOps.Finished InterpretResult.RUNTIME_ERROR stopped
     /\ Compiler.runChunk fmod format_double fuel chunk
          (Compiler.mkState (Compiler.m_error c) vm)
        = Compiler.Ran InterpretResult.RUNTIME_ERROR
            (Compiler.mkState (unimplemented_message (opcode instr)) stopped)
     /\ (forall (stod : string -> option float) (source : string)
                (c0 : Compiler.State) (compiled : Compiler.Compiled),
           Compiler.compile stod source c0
           = Some (compiled, Compiler.mkState EmptyString vm) ->
           Compiler.chunk compiled = chunk ->
           Compiler.run stod fmod format_double fuel source c0
           = Some (Compiler.Ran InterpretResult.RUNTIME_ERROR
                     (Compiler.mkState (unimplemented_message (opcode instr))
                                       stopped))))
    /\ (forall (name : Token) (g : IRGen.IRGenerator),
          size (IRGen.m_locals g) < 2 ^ 31 ->
          IRGen.resolveLocal (lexeme name) g <> -1 ->
          IRGen.compileExpr (Some (VariableExpr name)) g
          = IRGen.emitByte OP_GET_LOCAL
              (to_u8 (IRGen.resolveLocal (lexeme name) g)) g)
    /\ (forall (name : Token) (value : option Expr) (g : IRGen.IRGenerator),
          size (IRGen.m_locals g) < 2 ^ 31 ->
          IRGen.resolveLocal (lexeme name) (IRGen.compileExpr value g) <> -1 ->
          IRGen.compileExpr (Some (AssignExpr name value)) g
          = IRGen.emitByte OP_SET_LOCAL
              (to_u8 (IRGen.resolveLocal (lexeme name)
                        (IRGen.compileExpr value g)))
              (IRGen.compileExpr value g))
    /\ (forall (callee : option Expr) (paren : Token)
               (args : list (option Expr)) (g : IRGen.IRGenerator),
          IRGen.compileExpr (Some (CallExpr callee paren args)) g
          = IRGen.emitByte OP_CALL (to_u8 (size args))
              (fold_left (fun g arg => IRGen.compileExpr arg g) args
                         (IRGen.compileExpr callee g)))
    /\ (forall (stod : string -> option float) (k : nat) (c0 : Compiler.State),
          let failed (message : string) (stack : list Value) (ip : Z) :=
            Some (Compiler.Ran InterpretResult.RUNTIME_ERROR
                    (Compiler.mkState message
                       (VMOps.mkVM stack ip message
                                   (VMOps.m_output (Compiler.m_vm c0))))) in
          match stod "1" with
          | Some one =>
              Compiler.run stod fmod format_double (2 + k) Programs.read_local c0
              = failed "Local variables not fully implemented." [VNumber one] 2
              /\ Compiler.run stod fmod format_double (2 + k) "1();" c0
                 = failed "Function calls not fully implemented." [VNumber one] 2
              /\ match stod "2" with
                 | Some two =>
                     Compiler.run stod fmod format_double (3 + k)
                       Programs.write_local c0
                     = failed "Local variables not fully implemented."
                              [VNumber two; VNumber one] 3
                 | None =>
                     Compiler.run stod fmod format_double (3 + k)
                       Programs.write_local c0
                     = None
                 end
          | None =>
              Compiler.run stod fmod format_double (2 + k) Programs.read_local c0
              = None
          end).
Proof.
  intros fmod format_double chunk vm n st instr fuel c Ht Hat Hop Hfuel stopped.
  assert (R : VMOps.interpret fmod format_double fuel chunk vm
              = VMOps.Finished InterpretResult.RUNTIME_ERROR stopped).
  { unfold VMOps.interpret.
    replace fuel with (n + S (fuel - n - 1))%nat by lia.
    eapply VMFacts.run_after_turns; [exact Ht|].
    apply VMFacts.step_unimplemented; assumption. }
  split; [split; [exact R|]; split|].
  - unfold Compiler.runChunk. simpl. rewrite R. reflexivity.
  - intros stod source c0 compiled Hc Hchunk.
    unfold Compiler.run. rewrite Hc. simpl.
    unfold Compiler.runChunk. simpl. rewrite Hchunk, R. reflexivity.
  - split; [intros name g _; apply Unimplemented.read_of_local|].
    split; [intros name value g _; apply Unimplemented.write_of_local|].
    split; [intros; apply IRGenFacts.compileExpr_Call|].
    intros stod k c0 failed. subst failed.
    destruct (stod "1") as [one|] eqn:E1.
    + split; [|split].
      * read_literals stod [("1", Some one)]. vm_compute. reflexivity.
      * read_literals stod [("1", Some one)]. vm_compute. reflexivity.
      * destruct (stod "2") as [two|] eqn:E2.
        -- read_literals stod [("1", Some one); ("2", Some two)].
           vm_compute. reflexivity.
        -- read_literals stod [("1", Some one); ("2", @None float)].
           vm_compute. reflexivity.
    + read_literals stod [("1", @None float)]. vm_compute. reflexivity.
Qed.

(** C9. When [interpret] finishes on a chunk, calling it again on the same
    chunk and the same VM finishes with the same result, prints the same
    lines again, and leaves the same stack, instruction pointer and error
    message: a run starts from [m_ip = 0], an empty stack and an empty
    message, and depends on nothing else of the VM. *)
Theorem interpret_twice_same_output_and_result :
  forall (fmod : float -> float -> float) (format_double : float -> string)
         (fuel : nat) (chunk : Chunk) (vm vm1 : VMOps.VM) (r : InterpretResult.t),
    VMOps.interpret fmod format_double fuel chunk vm = VMOps.Finished r vm1 ->
    exists lines,
      VMOps.m_output vm1 = VMOps.m_output vm ++ lines
      /\ VMOps.interpret fmod format_double fuel chunk vm1
         = VMOps.Finished r
             (VMOps.mkVM (VMOps.m_stack vm1) (VMOps.m_ip vm1) (VMOps.m_error vm1)
                         (VMOps.m_output vm1 ++ lines)).
Proof.
  intros fmod format_double fuel chunk vm vm1 r H.
  unfold VMOps.interpret in *.
  destruct (VMFacts.run_output fmod format_double fuel chunk (VMOps.reset vm)
              (VMOps.m_output vm1) r vm1 H) as (lines & E & R).
  exists lines. split; [exact E | exact R].
Qed.

(** ** The lexer *)

(** What [scanToken] returned, from [Hs : ... = Some (token, lx')] once the
    character is known: [token] and [lx'] are replaced by what was scanned;
    for a number, [std::stod] returned. *)
Ltac scanned Hs token lx' :=
  first
    [ progress unfold Lexer.scanNumber in Hs; cbv zeta in Hs;
      match type of Hs with
      | match ?o with _ => _ end = _ => destruct o; [|discriminate Hs]
      end;
      injection Hs as <- <-
    | injection Hs as <- <-
    | let Ht := fresh "Ht" in
      let Hl := fresh "Hl" in
      injection Hs as Hs;
      pose proof (f_equal fst Hs) as Ht; pose proof (f_equal snd Hs) as Hl;
      cbn [fst snd] in Ht, Hl; subst token lx'; clear Hs ].

(** *** The fuel of its loops *)

Module LexerFuel.
Import Lexer.

Lemma further_refl lx : further lx lx.
Proof. split; [reflexivity | lia]. Qed.

Lemma further_trans a b c : further a b -> further b c -> further a c.
Proof. intros [S1 R1] [S2 R2]. split; [congruence | lia]. Qed.

Lemma not_at_end lx : isAtEnd lx = false -> (0 < remaining lx)%nat.
Proof. unfold isAtEnd, remaining. intros H. apply Z.leb_gt in H. lia. Qed.

Lemma at_end lx : remaining lx = O -> isAtEnd lx = true.
Proof. unfold isAtEnd, remaining. intros H. apply Z.leb_le. lia. Qed.

Lemma peek_not_NUL lx : peek lx <> NUL -> (0 < remaining lx)%nat.
Proof.
  unfold peek. destruct (isAtEnd lx) eqn:E; [congruence|].
  intros _. now apply not_at_end.
Qed.

Lemma advance_remaining lx :
  (0 < remaining lx)%nat -> S (remaining (snd (advance lx))) = remaining lx.
Proof. unfold advance, remaining, source_size. simpl. lia. Qed.

Lemma advance_further lx : further lx (snd (advance lx)).
Proof. split; [reflexivity|]. unfold advance, remaining, source_size. simpl. lia. Qed.

Lemma isalnum_not_NUL c : (isalnum c || Ascii.eqb c "_")%bool = true -> c <> NUL.
Proof. intros H E. subst c. discriminate H. Qed.

Lemma isdigit_not_NUL c : isdigit c = true -> c <> NUL.
Proof. intros H E. subst c. discriminate H. Qed.

Section WithLibrary.

Variable stod : string -> option float.

(** *** Enough fuel: more of it changes nothing *)

Lemma skipWhitespace_enough fuel : forall lx fuel',
  (remaining lx <= fuel)%nat -> (fuel <= fuel')%nat ->
  skipWhitespace fuel' lx = skipWhitespace fuel lx.
Proof.
  induction fuel as [|k IH]; intros lx fuel' Hr Hf.
  - destruct fuel' as [|k']; [reflexivity|]. cbn [skipWhitespace].
    rewrite at_end by lia. reflexivity.
  - destruct fuel' as [|k']; [lia|]. cbn [skipWhitespace].
    destruct (isAtEnd lx) eqn:E; [reflexivity|]. apply not_at_end in E.
    destruct (_ || _)%bool.
    + apply IH; [|lia]. pose proof (advance_remaining lx E). lia.
    + destruct (Ascii.eqb (peek lx) LF); [|reflexivity].
      apply IH; [|lia]. pose proof (advance_remaining (newline lx) E). 
      change (remaining (newline lx)) with (remaining lx) in *. lia.
Qed.

Lemma skipComment_loop_enough fuel : forall lx fuel',
  (remaining lx <= fuel)%nat -> (fuel <= fuel')%nat ->
  skipComment_loop fuel' lx = skipComment_loop fuel lx.
Proof.
  induction fuel as [|k IH]; intros lx fuel' Hr Hf.
  - destruct fuel' as [|k']; [reflexivity|]. cbn [skipComment_loop].
    rewrite at_end by lia. reflexivity.
  - destruct fuel' as [|k']; [lia|]. cbn [skipComment_loop].
    destruct (isAtEnd lx) eqn:E; [reflexivity|]. apply not_at_end in E.
    destruct (negb false && _)%bool; [|reflexivity].
    apply IH; [|lia]. pose proof (advance_remaining lx E). lia.
Qed.

Lemma identifier_loop_enough fuel : forall lx fuel',
  (remaining lx <= fuel)%nat -> (fuel <= fuel')%nat ->
  identifier_loop fuel' lx = identifier_loop fuel lx.
Proof.
  induction fuel as [|k IH]; intros lx fuel' Hr Hf.
  - destruct fuel' as [|k']; [reflexivity|]. cbn [identifier_loop].
    destruct (_ || _)%bool eqn:C; [|reflexivity].
    apply isalnum_not_NUL, peek_not_NUL in C. lia.
  - destruct fuel' as [|k']; [lia|]. cbn [identifier_loop].
    destruct (_ || _)%bool eqn:C; [|reflexivity].
    apply isalnum_not_NUL, peek_not_NUL in C.
    apply IH; [|lia]. pose proof (advance_remaining lx C). lia.
Qed.

Lemma digits_loop_enough fuel : forall lx fuel',
  (remaining lx <= fuel)%nat -> (fuel <= fuel')%nat ->
  digits_loop fuel' lx = digits_loop fuel lx.
Proof.
  induction fuel as [|k IH]; intros lx fuel' Hr Hf.
  - destruct fuel' as [|k']; [reflexivity|]. cbn [digits_loop].
    destruct (isdigit (peek lx)) eqn:C; [|reflexivity].
    apply isdigit_not_NUL, peek_not_NUL in C. lia.
  - destruct fuel' as [|k']; [lia|]. cbn [digits_loop].
    destruct (isdigit (peek lx)) eqn:C; [|reflexivity].
    apply isdigit_not_NUL, peek_not_NUL in C.
    apply IH; [|lia]. pose proof (advance_remaining lx C). lia.
Qed.

Lemma string_loop_enough fuel : forall value lx fuel',
  (remaining lx <= fuel)%nat -> (fuel <= fuel')%nat ->
  string_loop fuel' value lx = string_loop fuel value lx.
Proof.
  induction fuel as [|k IH]; intros value lx fuel' Hr Hf.
  - destruct fuel' as [|k']; [reflexivity|]. cbn [string_loop].
    rewrite at_end by lia. rewrite andb_false_r. reflexivity.
  - destruct fuel' as [|k']; [lia|]. cbn [string_loop].
    destruct (isAtEnd lx) eqn:E; [rewrite andb_false_r; reflexivity|].
    apply not_at_end in E.
    destruct (_ && _)%bool; [|reflexivity].
    destruct (Ascii.eqb (peek lx) LF).
    + simpl. apply IH; [|lia]. pose proof (advance_remaining (newline lx) E).
      change (remaining (newline lx)) with (remaining lx) in *.
      unfold advance in *. simpl in *. lia.
    + simpl. apply IH; [|lia]. pose proof (advance_remaining lx E).
      unfold advance in *. simpl in *. lia.
Qed.

(** *** The loops only move forward *)

Lemma skipWhitespace_further fuel : forall lx, further lx (skipWhitespace fuel lx).
Proof.
  induction fuel as [|k IH]; intros lx; simpl; [apply further_refl|].
  destruct (isAtEnd lx); [apply further_refl|].
  destruct (_ || _)%bool.
  - eapply further_trans; [apply advance_further | apply IH].
  - destruct (Ascii.eqb (peek lx) LF); [|apply further_refl].
    eapply further_trans; [|apply IH]. apply (advance_further (newline lx)).
Qed.

Lemma skipComment_further fuel lx : further lx (skipComment fuel lx).
Proof.
  unfold skipComment. destruct (_ && _)%bool; [|apply further_refl].
  revert lx. induction fuel as [|k IH]; intros lx; simpl; [apply further_refl|].
  destruct (_ && _)%bool; [|apply further_refl].
  eapply further_trans; [apply advance_further | apply IH].
Qed.

Lemma identifier_loop_further fuel : forall lx, further lx (identifier_loop fuel lx).
Proof.
  induction fuel as [|k IH]; intros lx; simpl; [apply further_refl|].
  destruct (_ || _)%bool; [|apply further_refl].
  eapply further_trans; [apply advance_further | apply IH].
Qed.

Lemma digits_loop_further fuel : forall lx, further lx (digits_loop fuel lx).
Proof.
  induction fuel as [|k IH]; intros lx; simpl; [apply further_refl|].
  destruct (isdigit (peek lx)); [|apply further_refl].
  eapply further_trans; [apply advance_further | apply IH].
Qed.

Lemma string_loop_further fuel : forall value lx,
  further lx (snd (string_loop fuel value lx)).
Proof.
  induction fuel as [|k IH]; intros value lx; simpl; [apply further_refl|].
  destruct (_ && _)%bool; [|apply further_refl].
  destruct (Ascii.eqb (peek lx) LF); simpl.
  - eapply further_trans; [|apply IH]. apply (advance_further (newline lx)).
  - eapply further_trans; [|apply IH]. apply (advance_further lx).
Qed.

Lemma restart_further lx : further lx (restart lx).
Proof. split; [reflexivity | unfold remaining, source_size; simpl; lia]. Qed.

Lemma scanIdentifier_enough fuel fuel' lx :
  (remaining lx <= fuel)%nat -> (fuel <= fuel')%nat ->
  scanIdentifier fuel' lx = scanIdentifier fuel lx.
Proof.
  intros Hr Hf. unfold scanIdentifier.
  rewrite (identifier_loop_enough fuel lx fuel') by assumption. reflexivity.
Qed.

Lemma scanNumber_enough fuel fuel' lx :
  (remaining lx <= fuel)%nat -> (fuel <= fuel')%nat ->
  scanNumber stod fuel' lx = scanNumber stod fuel lx.
Proof.
  intros Hr Hf. unfold scanNumber.
  rewrite (digits_loop_enough fuel lx fuel') by assumption.
  destruct (_ && _)%bool; [|reflexivity].
  rewrite (digits_loop_enough fuel _ fuel'); [reflexivity| |assumption].
  destruct (digits_loop_further fuel lx) as [_ H1].
  destruct (advance_further (digits_loop fuel lx)) as [_ H2]. lia.
Qed.

Lemma scanString_enough fuel fuel' lx :
  (remaining lx <= fuel)%nat -> (fuel <= fuel')%nat ->
  scanString fuel' lx = scanString fuel lx.
Proof.
  intros Hr Hf. unfold scanString.
  rewrite (string_loop_enough fuel _ lx fuel') by assumption. reflexivity.
Qed.

Lemma scanToken_enough fuel fuel' lx :
  (remaining lx <= fuel)%nat -> (fuel <= fuel')%nat ->
  scanToken stod fuel' lx = scanToken stod fuel lx.
Proof.
  intros Hr Hf. unfold scanToken.
  rewrite (skipWhitespace_enough fuel lx fuel') by assumption.
  pose proof (skipWhitespace_further fuel lx) as [_ H1].
  set (lx1 := skipWhitespace fuel lx) in *.
  assert (E2 : skipComment fuel' lx1 = skipComment fuel lx1).
  { unfold skipComment. destruct (_ && _)%bool; [|reflexivity].
    apply skipComment_loop_enough; lia. }
  rewrite E2.
  pose proof (skipComment_further fuel lx1) as [_ H2].
  set (lx2 := skipComment fuel lx1) in *.
  rewrite (skipWhitespace_enough fuel lx2 fuel') by lia.
  pose proof (skipWhitespace_further fuel lx2) as [_ H3].
  set (lx3 := skipWhitespace fuel lx2) in *.
  fold (restart lx3).
  pose proof (restart_further lx3) as [_ H4].
  destruct (isAtEnd (restart lx3)); [reflexivity|].
  pose proof (advance_further (restart lx3)) as [_ H5].
  destruct (advance (restart lx3)) as [c lx4]. simpl in H5.
  rewrite (scanIdentifier_enough fuel fuel' lx4) by lia.
  rewrite (scanNumber_enough fuel fuel' lx4) by lia.
  rewrite (scanString_enough fuel fuel' lx4) by lia.
  reflexivity.
Qed.

(** [scanToken] reads at least one character where there is one. *)
Lemma withEquals_further a b lx : further lx (snd (withEquals a b lx)).
Proof.
  unfold withEquals, match_.
  destruct (_ || _)%bool; simpl; [apply further_refl|].
  split; [reflexivity | unfold remaining, source_size; simpl; lia].
Qed.

Lemma scanToken_reads fuel lx token lx' :
  isAtEnd lx = false ->
  scanToken stod fuel lx = Some (token, lx') ->
  m_source lx' = m_source lx /\ (remaining lx' < remaining lx)%nat.
Proof.
  intros E Hs. unfold scanToken in Hs. cbv zeta in Hs.
  pose proof (skipWhitespace_further fuel lx) as [S1 H1].
  set (lx1 := skipWhitespace fuel lx) in *.
  pose proof (skipComment_further fuel lx1) as [S2 H2].
  set (lx2 := skipComment fuel lx1) in *.
  pose proof (skipWhitespace_further fuel lx2) as [S3 H3].
  set (lx3 := skipWhitespace fuel lx2) in *.
  fold (restart lx3) in Hs.
  pose proof (restart_further lx3) as [S4 H4].
  apply not_at_end in E.
  destruct (isAtEnd (restart lx3)) eqn:E4.
  - injection Hs as _ <-. split; [congruence|].
    unfold isAtEnd in E4. apply Z.leb_le in E4. unfold remaining at 1. lia.
  - apply not_at_end in E4.
    pose proof (advance_remaining (restart lx3) E4) as H5.
    assert (S5 : m_source (snd (advance (restart lx3))) = m_source lx)
      by (simpl; congruence).
    destruct (advance (restart lx3)) as [c lx4]. cbn [snd] in H5, S5.
    assert (F : forall r, further lx4 r ->
                m_source r = m_source lx /\ (remaining r < remaining lx)%nat).
    { intros r [Sr Hr]. split; [congruence | lia]. }
    repeat match type of Hs with
           | (if ?b then _ else _) = _ => destruct b
           end;
      apply F; scanned Hs token lx';
      try apply further_refl; try apply withEquals_further.
    + unfold scanIdentifier. cbv zeta.
      destruct (find_keyword _ _); apply identifier_loop_further.
    + destruct (_ && _)%bool; [|apply digits_loop_further].
      eapply further_trans; [apply digits_loop_further|].
      eapply further_trans; [apply advance_further | apply digits_loop_further].
    + unfold scanString.
      pose proof (string_loop_further fuel EmptyString lx4) as Hs.
      destruct (string_loop fuel EmptyString lx4) as [v r]. simpl in Hs.
      destruct (isAtEnd r); simpl; [exact Hs|].
      eapply further_trans; [exact Hs | apply advance_further].
Qed.

(** One turn of the loop of [tokenize]. *)
Lemma tokenize_turn scanFuel lx :
  isAtEnd lx = false ->
  forall token lx',
  scanToken stod scanFuel (restart lx) = Some (token, lx') ->
  let lx'' := if negb (TokenType.eqb (tok_type token) TokenType.ERROR)
              then push_token token lx' else lx' in
  m_source lx'' = m_source lx /\ (remaining lx'' < remaining lx)%nat.
Proof.
  intros E token lx' Hs.
  assert (E' : isAtEnd (restart lx) = false) by exact E.
  pose proof (scanToken_reads scanFuel (restart lx) token lx' E' Hs) as [S1 H1].
  change (remaining (restart lx)) with (remaining lx) in H1.
  destruct (negb _); simpl; split; assumption.
Qed.

(** With as much fuel as the text has characters left, the loop of
    [tokenize], when it returns, stops because the text is read to its end,
    and ... *)
Lemma tokenize_loop_ends fuel scanFuel : forall lx lx',
  (remaining lx <= fuel)%nat ->
  tokenize_loop stod fuel scanFuel lx = Some lx' ->
  isAtEnd lx' = true.
Proof.
  induction fuel as [|k IH]; intros lx lx' Hr Hl; simpl in Hl.
  - injection Hl as <-. apply at_end. lia.
  - destruct (isAtEnd lx) eqn:E; [injection Hl as <-; exact E|].
    fold (restart lx) in Hl.
    destruct (scanToken stod scanFuel (restart lx)) as [[token lx1]|] eqn:Hs;
      [|discriminate].
    pose proof (tokenize_turn scanFuel lx E token lx1 Hs) as [_ H].
    simpl in H. eapply IH; [|exact Hl]. lia.
Qed.

(** ... more fuel, for it or for the loops of [scanToken], gives the same
    lexer, or the same exception. *)
Lemma tokenize_loop_enough fuel scanFuel : forall lx fuel' scanFuel',
  (remaining lx <= fuel)%nat -> (fuel <= fuel')%nat ->
  (remaining lx <= scanFuel)%nat -> (scanFuel <= scanFuel')%nat ->
  tokenize_loop stod fuel' scanFuel' lx = tokenize_loop stod fuel scanFuel lx.
Proof.
  induction fuel as [|k IH]; intros lx fuel' scanFuel' Hr Hf Hs Hsf.
  - destruct fuel' as [|k']; [reflexivity|]. simpl.
    rewrite at_end by lia. reflexivity.
  - destruct fuel' as [|k']; [lia|]. simpl.
    destruct (isAtEnd lx) eqn:E; [reflexivity|].
    fold (restart lx).
    rewrite (scanToken_enough scanFuel scanFuel' (restart lx)) by assumption.
    destruct (scanToken stod scanFuel (restart lx)) as [[token lx']|] eqn:Hscan;
      [|reflexivity].
    pose proof (tokenize_turn scanFuel lx E token lx' Hscan) as [_ H].
    simpl in H. apply IH; lia.
Qed.

(** [tokenize] reads the whole text, and the fuel of its model is enough. *)
Lemma tokenize_fuel source :
  let n := String.length source in
  let start := mkState source 0 0 1 1 [] in
  (forall lx', tokenize_loop stod n n start = Some lx' -> isAtEnd lx' = true)
  /\ forall fuel scanFuel, (n <= fuel)%nat -> (n <= scanFuel)%nat ->
     tokenize_loop stod fuel scanFuel start = tokenize_loop stod n n start.
Proof.
  intros n start.
  assert (R : remaining start = n).
  { unfold remaining, source_size, start, n. simpl. lia. }
  split.
  - intros lx'. apply tokenize_loop_ends. lia.
  - intros fuel scanFuel Hf Hs. apply tokenize_loop_enough; lia.
Qed.

(** *** The exception of [std::stod] is the only way not to return *)

Lemma scanToken_throws fuel lx :
  scanToken stod fuel lx = None -> exists text, stod text = None.
Proof.
  unfold scanToken. cbv zeta. destruct (isAtEnd _); [discriminate|].
  destruct (advance _) as [c lx1].
  repeat match goal with
         | |- (if ?b then _ else _) = _ -> _ => destruct b
         end;
    try discriminate.
  unfold scanNumber. cbv zeta.
  match goal with
  | |- match stod ?text with _ => _ end = _ -> _ =>
      destruct (stod text) eqn:E; [discriminate | intros _; exists text; exact E]
  end.
Qed.

Lemma tokenize_loop_throws fuel scanFuel : forall lx,
  tokenize_loop stod fuel scanFuel lx = None -> exists text, stod text = None.
Proof.
  induction fuel as [|k IH]; intros lx; simpl; [discriminate|].
  destruct (isAtEnd lx); [discriminate|].
  destruct (scanToken stod scanFuel _) as [[token lx1]|] eqn:Hs.
  - apply IH.
  - intros _. exact (scanToken_throws _ _ Hs).
Qed.

Lemma tokenize_throws lx :
  tokenize stod lx = None -> exists text, stod text = None.
Proof.
  unfold tokenize. cbv zeta.
  destruct (tokenize_loop stod _ _ _) eqn:E; [discriminate|].
  intros _. exact (tokenize_loop_throws _ _ _ E).
Qed.

(** A library that reads every text makes [tokenize] return. *)
Lemma tokenize_returns lx :
  (forall text, stod text <> None) -> exists r, tokenize stod lx = Some r.
Proof.
  intros H. destruct (tokenize stod lx) as [r|] eqn:E; [exists r; reflexivity|].
  destruct (tokenize_throws lx E) as [text Ht]. destruct (H text Ht).
Qed.

End WithLibrary.

End LexerFuel.

(** *** What [tokenize] keeps *)

Module LexerFacts.
Import Lexer.

Section WithLibrary.

Variable stod : string -> option float.

Lemma skipWhitespace_tokens fuel : forall lx,
  m_tokens (skipWhitespace fuel lx) = m_tokens lx.
Proof.
  induction fuel as [|k IH]; intros lx; simpl; [reflexivity|].
  destruct (isAtEnd lx); [reflexivity|].
  destruct (_ || _)%bool; [rewrite IH; reflexivity|].
  destruct (Ascii.eqb _ _); [rewrite IH; reflexivity | reflexivity].
Qed.

Lemma skipComment_tokens fuel lx : m_tokens (skipComment fuel lx) = m_tokens lx.
Proof.
  unfold skipComment. destruct (_ && _)%bool; [|reflexivity].
  revert lx. induction fuel as [|k IH]; intros lx; simpl; [reflexivity|].
  destruct (_ && _)%bool; [rewrite IH; reflexivity | reflexivity].
Qed.

Lemma identifier_loop_tokens fuel : forall lx,
  m_tokens (identifier_loop fuel lx) = m_tokens lx.
Proof.
  induction fuel as [|k IH]; intros lx; simpl; [reflexivity|].
  destruct (_ || _)%bool; [rewrite IH; reflexivity | reflexivity].
Qed.

Lemma digits_loop_tokens fuel : forall lx,
  m_tokens (digits_loop fuel lx) = m_tokens lx.
Proof.
  induction fuel as [|k IH]; intros lx; simpl; [reflexivity|].
  destruct (isdigit _); [rewrite IH; reflexivity | reflexivity].
Qed.

Lemma string_loop_tokens fuel : forall value lx,
  m_tokens (snd (string_loop fuel value lx)) = m_tokens lx.
Proof.
  induction fuel as [|k IH]; intros value lx; simpl; [reflexivity|].
  destruct (_ && _)%bool; [|reflexivity].
  rewrite IH. destruct (Ascii.eqb _ _); reflexivity.
Qed.

Lemma withEquals_tokens a b lx : m_tokens (snd (withEquals a b lx)) = m_tokens lx.
Proof.
  unfold withEquals, match_.
  destruct (_ || _)%bool; reflexivity.
Qed.

Lemma scanToken_tokens fuel lx token lx' :
  scanToken stod fuel lx = Some (token, lx') -> m_tokens lx' = m_tokens lx.
Proof.
  intros Hs. unfold scanToken in Hs. cbv zeta in Hs.
  set (lx1 := skipWhitespace fuel (skipComment fuel (skipWhitespace fuel lx))) in *.
  assert (E1 : m_tokens lx1 = m_tokens lx).
  { unfold lx1.
    rewrite skipWhitespace_tokens, skipComment_tokens, skipWhitespace_tokens.
    reflexivity. }
  destruct (isAtEnd _); [injection Hs as _ <-; exact E1|].
  unfold advance in Hs. cbn iota in Hs.
  repeat match type of Hs with
         | (if ?b then _ else _) = _ => destruct b
         end;
    scanned Hs token lx';
    cbn [m_tokens]; try exact E1;
    try (rewrite withEquals_tokens; exact E1).
  - unfold scanIdentifier. cbv zeta.
    match goal with
    | |- context [find_keyword ?t ?x] => destruct (find_keyword t x)
    end; cbn [snd]; rewrite identifier_loop_tokens; exact E1.
  - destruct (_ && _)%bool; rewrite !digits_loop_tokens; exact E1.
  - unfold scanString.
    match goal with
    | |- context [string_loop ?f ?v ?x] =>
        pose proof (string_loop_tokens f v x) as E2;
        destruct (string_loop f v x) as [value lx2]
    end.
    simpl in E2. destruct (isAtEnd lx2); simpl; rewrite E2; exact E1.
Qed.

(** The loop of [tokenize] never stores an [ERROR] token. *)
Lemma tokenize_loop_no_error fuel scanFuel : forall lx lx',
  Compiler.first_error (m_tokens lx) = None ->
  tokenize_loop stod fuel scanFuel lx = Some lx' ->
  Compiler.first_error (m_tokens lx') = None.
Proof.
  induction fuel as [|k IH]; intros lx lx' H Hl; simpl in Hl;
    [injection Hl as <-; exact H|].
  destruct (isAtEnd lx); [injection Hl as <-; exact H|].
  match type of Hl with
  | context [scanToken stod scanFuel ?x] =>
      destruct (scanToken stod scanFuel x) as [[token lx1]|] eqn:Hs;
      [pose proof (scanToken_tokens scanFuel x token lx1 Hs) as E | discriminate]
  end.
  cbn [m_tokens] in E. apply (fun F => IH _ _ F Hl).
  destruct (TokenType.eqb (tok_type token) TokenType.ERROR) eqn:Et; simpl.
  - rewrite E. exact H.
  - rewrite E. clear IH E Hl Hs.
    induction (m_tokens lx) as [|t ts IHt]; simpl in *.
    + rewrite Et. reflexivity.
    + destruct (TokenType.eqb (tok_type t) TokenType.ERROR); [discriminate|].
      apply IHt. exact H.
Qed.

Lemma first_error_app_eof ts t :
  Compiler.first_error ts = None ->
  tok_type t = TokenType.EOF_TOKEN ->
  Compiler.first_error (ts ++ [t]) = None.
Proof.
  intros H Ht. induction ts as [|x ts IH]; simpl in *.
  - rewrite Ht. reflexivity.
  - destruct (TokenType.eqb (tok_type x) TokenType.ERROR); [discriminate|].
    apply IH. exact H.
Qed.

(** [tokenize] stores what it scans, the [ERROR] tokens left out. *)
Lemma tokenize_loop_trace fuel scanFuel : forall lx lx',
  tokenize_loop stod fuel scanFuel lx = Some lx' ->
  m_tokens lx'
  = m_tokens lx
    ++ filter (fun t => negb (TokenType.eqb (tok_type t) TokenType.ERROR))
              (scan_trace stod fuel scanFuel lx).
Proof.
  induction fuel as [|k IH]; intros lx lx' Hl; simpl in Hl |- *;
    [injection Hl as <-; symmetry; apply app_nil_r|].
  destruct (isAtEnd lx); [injection Hl as <-; symmetry; apply app_nil_r|].
  match type of Hl with
  | context [scanToken stod scanFuel ?x] =>
      destruct (scanToken stod scanFuel x) as [[token lx1]|] eqn:Hs;
      [pose proof (scanToken_tokens scanFuel x token lx1 Hs) as E | discriminate]
  end.
  cbn [m_tokens] in E. rewrite (IH _ _ Hl). simpl.
  destruct (negb (TokenType.eqb (tok_type token) TokenType.ERROR)); simpl.
  - rewrite E, <- app_assoc. reflexivity.
  - rewrite E. reflexivity.
Qed.

(** No source text makes [tokenize] return an [ERROR] token. *)
Lemma tokenize_no_error lx tokens lx' :
  tokenize stod lx = Some (tokens, lx') -> Compiler.first_error tokens = None.
Proof.
  unfold tokenize. cbv zeta.
  destruct (tokenize_loop stod _ _ _) as [stop|] eqn:E; [|discriminate].
  intros H. injection H as <- _. cbn [m_tokens push_token].
  apply first_error_app_eof; [|reflexivity].
  eapply tokenize_loop_no_error; [|exact E]. reflexivity.
Qed.

(** The vector [tokenize] returns holds an [EOF_TOKEN] token. *)
Lemma tokenize_has_eof lx tokens lx' :
  tokenize stod lx = Some (tokens, lx') ->
  Exists (fun t => tok_type t = TokenType.EOF_TOKEN) tokens.
Proof.
  unfold tokenize. cbv zeta.
  destruct (tokenize_loop stod _ _ _) as [stop|]; [|discriminate].
  intros H. injection H as <- _. cbn [m_tokens push_token].
  apply Exists_app. right. apply Exists_cons_hd. reflexivity.
Qed.

End WithLibrary.

End LexerFacts.

(** C3 (the code at the failing inputs). [scanToken] answers an [ERROR]
    token for the source [@] and for a source that ends inside a string, but
    [tokenize] leaves it out of the vector it returns, so [Compiler::compile]
    finds no [ERROR] token: it stores no message, runs the parser (which sees
    an empty program, after a parse error of its own in the second case) and
    returns the chunk of the empty program, [OP_RETURN]. For every source
    text, the token vector [compile] scans holds no [ERROR] token and the
    parser is run. *)
Theorem compile_never_reports_a_lexer_error :
  forall (stod : string -> option float) (c0 : Compiler.State),
    let returned :=
      mkChunk [mkInstruction OP_RETURN 0 VNil] [0] [] in
    let lowered :=
      IRGen.mkIRGenerator returned [] 0 false EmptyString in
    (option_map (fun scanned => tok_type (fst scanned))
                (Lexer.scanToken stod 1 (Lexer.new Programs.stray_character))
     = Some TokenType.ERROR
     /\ option_map (fun scanned => lexeme (fst scanned))
                   (Lexer.scanToken stod 1 (Lexer.new Programs.stray_character))
        = Some "Unexpected character: @"
     /\ Compiler.compile stod Programs.stray_character c0
        = Some (Compiler.mkCompiled
                  [mkToken TokenType.EOF_TOKEN "@" 1 2 LitNone]
                  (Some ([], [])) (Some lowered) returned,
                Compiler.mkState EmptyString (Compiler.m_vm c0)))
    /\ (In (mkToken TokenType.ERROR "Unterminated string" 1 14 LitNone)
           (scan_trace stod 13 13 (Lexer.new Programs.unterminated_string))
        /\ exists tokens,
             Compiler.compile stod Programs.unterminated_string c0
             = Some (Compiler.mkCompiled tokens
                       (Some ([], ["[Line 1] Parse Error: Expect expression."]))
                       (Some lowered) returned,
                     Compiler.mkState EmptyString (Compiler.m_vm c0)))
    /\ (forall source compiled c1,
          Compiler.compile stod source c0 = Some (compiled, c1) ->
          Compiler.first_error (Compiler.tokens compiled) = None
          /\ Compiler.parsed compiled <> None).
Proof.
  intros stod c0 returned lowered. split; [|split].
  - split; [|split]; vm_compute; reflexivity.
  - split; [vm_compute; tauto|]. eexists. vm_compute. reflexivity.
  - intros source compiled c1 H. unfold Compiler.compile in H.
    destruct (Lexer.tokenize stod (Lexer.new source)) as [[tokens lx]|] eqn:T;
      [|discriminate].
    pose proof (LexerFacts.tokenize_no_error stod _ _ _ T) as E.
    rewrite E in H.
    destruct (Parser.parse tokens) as [[program cerr]|]; [|discriminate].
    destruct (IRGen.compile program IRGen.new) as [chunk irgen].
    destruct (IRGen.m_hadError irgen); injection H as <- <-; simpl;
      (split; [exact E | discriminate]).
Qed.

(** ** The constant pool *)

Module ConstantFacts.

(** [writeConstant] has no failure path: the operand is the index of the
    constant cut to 8 bits. *)
Lemma writeConstant_operand v ln c :
  code (ChunkOps.writeConstant v ln c)
  = code c ++ [mkInstruction OP_CONSTANT (to_u8 (size (constants c))) VNil]
  /\ constants (ChunkOps.writeConstant v ln c) = constants c ++ [v].
Proof.
  unfold ChunkOps.writeConstant, ChunkOps.addConstant. simpl.
  assert (E : size_t_sub (size (constants c ++ [v])) 1 = size (constants c)).
  { unfold size_t_sub, size. rewrite length_app. simpl.
    destruct (Z.ltb_spec (Z.of_nat (List.length (constants c) + 1)) 1); lia. }
  rewrite E. split; reflexivity.
Qed.

Lemma compileLiteralExpr_raises_nothing v g :
  IRGen.m_hadError (IRGen.compileLiteralExpr v g) = IRGen.m_hadError g
  /\ IRGen.m_error (IRGen.compileLiteralExpr v g) = IRGen.m_error g.
Proof. destruct v as [d|s|[|]|]; split; reflexivity. Qed.

End ConstantFacts.

(** C2 (the code at the failing input). The program of 257 number
    literals compiles without any error; its pool holds 257 constants, and
    the [OP_CONSTANT] emitted for the last one, whose index is 256, carries
    the operand 0: the index is cut to 8 bits and nothing checks it. Run, the
    program prints the constant at index 0, the number read from [1], where
    its last statement is [print 2;]. (This where [std::stod] reads [1] and
    [2]; where it throws on one of them, neither [compile] nor [run]
    returns.) *)
Theorem constant_index_256_is_emitted_as_0 :
  forall (stod : string -> option float) (fmod : float -> float -> float)
         (format_double : float -> string) (k : nat) (c0 : Compiler.State),
    match stod "1", stod "2" with
    | Some one, Some two =>
        (exists compiled,
            Compiler.compile stod Programs.many_constants c0
            = Some (compiled, Compiler.mkState EmptyString (Compiler.m_vm c0))
            /\ size (constants (Compiler.chunk compiled)) = 257
            /\ at_index (constants (Compiler.chunk compiled)) 256
               = Some (VNumber two)
            /\ at_index (constants (Compiler.chunk compiled)) 0
               = Some (VNumber one)
            /\ at_index (code (Compiler.chunk compiled)) 512
               = Some (mkInstruction OP_CONSTANT 0 VNil)
            /\ at_index (code (Compiler.chunk compiled)) 513
               = Some (mkInstruction OP_PRINT 0 VNil))
        /\ Compiler.run stod fmod format_double (515 + k)
             Programs.many_constants c0
           = Some (Compiler.Ran InterpretResult.OK
                     (Compiler.mkState EmptyString
                        (VMOps.mkVM [] 515 EmptyString
                           (VMOps.m_output (Compiler.m_vm c0)
                            ++ [VMOps.valueToString format_double
                                  (VNumber one)]))))
    | _, _ =>
        Compiler.compile stod Programs.many_constants c0 = None
        /\ Compiler.run stod fmod format_double (515 + k)
             Programs.many_constants c0
           = None
    end.
Proof.
  intros stod fmod format_double k c0.
  destruct (stod "1") as [one|] eqn:E1; destruct (stod "2") as [two|] eqn:E2.
  - read_literals stod [("1", Some one); ("2", Some two)]. split.
    + eexists. split; [vm_compute; reflexivity|].
      repeat split; vm_compute; reflexivity.
    + vm_compute. reflexivity.
  - read_literals stod [("1", Some one); ("2", @None float)].
    split; vm_compute; reflexivity.
  - read_literals stod [("1", @None float); ("2", Some two)].
    split; vm_compute; reflexivity.
  - read_literals stod [("1", @None float); ("2", @None float)].
    split; vm_compute; reflexivity.
Qed.

(** C4 (the code at the failing input). On the chunk [OP_POP; OP_TRUE;
    OP_PRINT], run on an empty stack, the pop stores "Stack underflow." and
    [interpret] goes on: it prints [true] and returns [OK]. In general, an
    [OP_POP] reached with an empty stack stores the message and continues
    with the next instruction. *)
Theorem pop_on_empty_stack_does_not_stop_interpret :
  forall (fmod : float -> float -> float) (format_double : float -> string)
         (k : nat),
    VMOps.interpret fmod format_double (4 + k) Programs.pop_then_print VMOps.new
    = VMOps.Finished InterpretResult.OK
        (VMOps.mkVM [] 3 "Stack underflow." ["true"])
    /\ (forall chunk vm,
          at_index (code chunk) (VMOps.m_ip vm)
          = Some (mkInstruction OP_POP 0 VNil) ->
          VMOps.m_stack vm = [] ->
          VMOps.step fmod format_double chunk vm
          = VMOps.Continue
              (VMOps.mkVM [] (size_t_add (VMOps.m_ip vm) 1) "Stack underflow."
                          (VMOps.m_output vm))).
Proof.
  intros fmod format_double k. split.
  - vm_compute. reflexivity.
  - intros chunk vm Hat Hst. unfold VMOps.step.
    rewrite (VMFacts.readInstruction_at _ _ _ Hat).
    destruct vm as [stack ip err out]. simpl in *. subst stack. reflexivity.
Qed.

(** C6 (the code at the failing input). The loop of the specification
    compiles, and its run stops at the first read of [i], in the condition
    of the loop, before anything is printed: [interpret] returns
    [RUNTIME_ERROR] with "Local variables not fully implemented.", and the
    number pushed for [0] is alone on the stack. The same happens to the loop
    of the repository's own test, whose variable is [x]; the test then
    reports a failure. (This where [std::stod] reads [0], [3] and [1]; where
    it throws on one of them, [run] does not return.) *)
Theorem while_loop_stops_at_first_read_of_i :
  forall (stod : string -> option float) (fmod : float -> float -> float)
         (format_double : float -> string) (k : nat) (c0 : Compiler.State),
    let stopped (zero : float) :=
      Compiler.mkState "Local variables not fully implemented."
        (VMOps.mkVM [VNumber zero] 2 "Local variables not fully implemented."
                    (VMOps.m_output (Compiler.m_vm c0))) in
    match stod "0", stod "3", stod "1" with
    | Some zero, Some _, Some _ =>
        Compiler.run stod fmod format_double (2 + k) Programs.while_loop c0
        = Some (Compiler.Ran InterpretResult.RUNTIME_ERROR (stopped zero))
        /\ Compiler.run stod fmod format_double (2 + k) Programs.while_loop_test c0
           = Some (Compiler.Ran InterpretResult.RUNTIME_ERROR (stopped zero))
        /\ Compiler.hadError (stopped zero) = true
    | _, _, _ =>
        Compiler.run stod fmod format_double (2 + k) Programs.while_loop c0 = None
        /\ Compiler.run stod fmod format_double (2 + k) Programs.while_loop_test c0
           = None
    end.
Proof.
  intros stod fmod format_double k c0 stopped. subst stopped.
  remember (stod "0") as zero eqn:E0.
  remember (stod "3") as three eqn:E3.
  remember (stod "1") as one eqn:E1.
  read_literals stod [("0", zero); ("3", three); ("1", one)].
  destruct zero, three, one; repeat split; vm_compute; reflexivity.
Qed.

(** The same run with the sample library. *)
Example while_loop_prints_nothing :
  Sample.run 100 Programs.while_loop
  = Some (Compiler.Ran InterpretResult.RUNTIME_ERROR
            (Compiler.mkState "Local variables not fully implemented."
               (VMOps.mkVM [VNumber 0] 2
                           "Local variables not fully implemented." []))).
Proof. vm_compute. reflexivity. Qed.

(** C5 (counterexample). For the two statements [print y; print 1;], where
    [y] is undefined, [compile] returns the one instruction of the first
    statement; the walk that lowers every statement would return four. *)
Lemma compile_skips_statements_after_an_error :
  Programs.listing
    (fst (IRGen.compile (Sample.program_of Programs.undefined_then_print) IRGen.new))
  = [(OP_PRINT, 0)]
  /\ Programs.listing
       (fst (compile_without_abort
               (Sample.program_of Programs.undefined_then_print) IRGen.new))
     = [(OP_PRINT, 0); (OP_CONSTANT, 0); (OP_PRINT, 0); (OP_RETURN, 0)].
Proof. split; vm_compute; reflexivity. Qed.

(** C5 (witness): the same program, the error being in its first
    statement. *)
Lemma compile_returns_after_first_failing_statement_witness :
  let pre : Program := [] in
  let s := hd None (Sample.program_of Programs.undefined_then_print) in
  let post := tl (Sample.program_of Programs.undefined_then_print) in
  let g := IRGen.new in
  let g1 := Programs.top_level in
  IRGen.compile_loop pre (IRGen.beginScope (IRGen.reset g)) = inl g1
  /\ IRGen.m_hadError (IRGen.compileStmt s g1) = true
  /\ (IRGen.compile (pre ++ s :: post) g
      = (IRGen.m_chunk (IRGen.compileStmt s g1), IRGen.compileStmt s g1)
      /\ (forall s', IRGen.m_hadError
                       (IRGen.compileStmt s' (IRGen.compileStmt s g1)) = true)).
Proof.
  cbv zeta.
  assert (H1 : IRGen.compile_loop [] (IRGen.beginScope (IRGen.reset IRGen.new))
               = inl Programs.top_level) by reflexivity.
  assert (H2 : IRGen.m_hadError
                 (IRGen.compileStmt
                    (hd None (Sample.program_of Programs.undefined_then_print))
                    Programs.top_level) = true) by (vm_compute; reflexivity).
  split; [exact H1|]. split; [exact H2|].
  exact (compile_returns_after_first_failing_statement
           [] (hd None (Sample.program_of Programs.undefined_then_print))
           (tl (Sample.program_of Programs.undefined_then_print))
           IRGen.new Programs.top_level H1 H2).
Defined.

(** C7 (counterexample). The then-branch of this [if] compiles to exactly
    255 instructions, and the compilation fails with "Jump too far.". *)
Lemma then_branch_of_255_instructions_fails :
  Programs.then_size Programs.if_255 = 255
  /\ Programs.error_of Programs.if_255 = Some "Jump too far.".
Proof. split; vm_compute; reflexivity. Qed.

(** C7 (witness): a then-branch of 254 instructions is patched with 255. *)
Lemma jump_patch_boundaries_witness :
  let g := Programs.top_level in
  let c := Programs.condition_of (Sample.program_of Programs.if_254) in
  let t := Programs.then_of (Sample.program_of Programs.if_254) in
  let e := Programs.else_of (Sample.program_of Programs.if_254) in
  let g1 := IRGen.emitJump OP_JUMP_IF_FALSE (IRGen.compileExpr c g) in
  let g2s := IRGen.compileStmt t g1 in
  let g2 := IRGen.emitJump OP_JUMP g2s in
  let thenJump := size (code (IRGen.m_chunk g1)) - 1 in
  let g3 := IRGen.patchJump thenJump g2 in
  let final := IRGen.compileStmt (Some (IfStmt c t e)) g in
  emitted g1 g2s <= 254
  /\ (IRGen.m_hadError g3 = IRGen.m_hadError g2s
      /\ IRGen.m_error g3 = IRGen.m_error g2s
      /\ at_index (code (IRGen.m_chunk final)) thenJump
         = Some (mkInstruction OP_JUMP_IF_FALSE (emitted g1 g2s + 1) VNil)).
Proof.
  cbv zeta.
  pose proof (proj1 jump_patch_boundaries Programs.top_level
                (Programs.condition_of (Sample.program_of Programs.if_254))
                (Programs.then_of (Sample.program_of Programs.if_254))
                (Programs.else_of (Sample.program_of Programs.if_254))) as T.
  cbv zeta in T. destruct T as (_ & T & _).
  match type of T with
  | ?H -> _ => assert (Hle : H) by (vm_compute; discriminate)
  end.
  split; [exact Hle | exact (T Hle)].
Defined.

(** C8 (witness): declaring [x] again right after [let x = 1;]. *)
Lemma declareVariable_rejects_duplicates_witness :
  let g := Programs.after_let_x in
  locals_ordered g
  /\ IRGen.m_scopeDepth g <> 0
  /\ declared_here "x" g
  /\ IRGen.declareVariable "x" g
     = IRGen.error (String.append "Variable '"
                      (String.append "x" "' already declared in this scope.")) g.
Proof.
  cbv zeta.
  assert (E : Programs.after_let_x
              = IRGen.mkIRGenerator
                  (mkChunk [mkInstruction OP_CONSTANT 0 VNil] [0] [VNumber 1])
                  [mkLocal "x" 1 false] 1 false EmptyString)
    by (vm_compute; reflexivity).
  assert (H1 : locals_ordered Programs.after_let_x).
  { rewrite E. unfold locals_ordered. simpl. lia. }
  assert (H2 : IRGen.m_scopeDepth Programs.after_let_x <> 0).
  { rewrite E. simpl. lia. }
  assert (H3 : declared_here "x" Programs.after_let_x).
  { rewrite E. exists (mkLocal "x" 1 false). simpl. auto. }
  split; [exact H1|]. split; [exact H2|]. split; [exact H3|].
  exact (proj1 (declareVariable_rejects_duplicates_at_same_depth_only
                  Sample.stod Compiler.new Programs.after_let_x "x" H1 H2) H3).
Defined.

(** C9 (witness): the chunk of [print 1 + 2;], run twice. *)
Lemma interpret_twice_witness :
  let chunk := Programs.chunk_of Programs.print_sum in
  let vm1 := VMOps.mkVM [] 5 EmptyString ["3"] in
  VMOps.interpret Sample.fmod Sample.format_double 10 chunk VMOps.new
  = VMOps.Finished InterpretResult.OK vm1
  /\ exists lines,
       VMOps.m_output vm1 = VMOps.m_output VMOps.new ++ lines
       /\ VMOps.interpret Sample.fmod Sample.format_double 10 chunk vm1
          = VMOps.Finished InterpretResult.OK
              (VMOps.mkVM (VMOps.m_stack vm1) (VMOps.m_ip vm1) (VMOps.m_error vm1)
                          (VMOps.m_output vm1 ++ lines)).
Proof.
  cbv zeta.
  assert (H : VMOps.interpret Sample.fmod Sample.format_double 10
                (Programs.chunk_of Programs.print_sum) VMOps.new
              = VMOps.Finished InterpretResult.OK
                  (VMOps.mkVM [] 5 EmptyString ["3"])).
  { vm_compute. reflexivity. }
  split; [exact H|].
  exact (interpret_twice_same_output_and_result
           Sample.fmod Sample.format_double 10
           (Programs.chunk_of Programs.print_sum) VMOps.new _ _ H).
Defined.

(** C1 (counterexample). The programs [let x = 1; if (false) { print x; }]
    and [let x = 1; if (false) { x = 2; }] read and write an identifier that
    resolves to a local slot: their chunks hold [OP_GET_LOCAL 0] and
    [OP_SET_LOCAL 0]. The branch is not taken, and both run to their end
    with [OK] and no message. *)
Lemma local_in_a_branch_not_taken_runs_ok :
  (In (OP_GET_LOCAL, 0) (Programs.listing (Programs.chunk_of Programs.unreached_read))
   /\ exists vm,
        Sample.run 20 Programs.unreached_read
        = Some (Compiler.Ran InterpretResult.OK (Compiler.mkState EmptyString vm))
        /\ VMOps.m_error vm = EmptyString)
  /\ (In (OP_SET_LOCAL, 0)
         (Programs.listing (Programs.chunk_of Programs.unreached_write))
      /\ exists vm,
           Sample.run 20 Programs.unreached_write
           = Some (Compiler.Ran InterpretResult.OK (Compiler.mkState EmptyString vm))
           /\ VMOps.m_error vm = EmptyString).
Proof.
  split; (split; [vm_compute; tauto|]); eexists; split; vm_compute; reflexivity.
Qed.

(** C1 (witness): the chunk of [let x = 1; print x;] reaches [OP_GET_LOCAL]
    after one turn. *)
Lemma interpret_stops_at_unimplemented_opcode_witness :
  let chunk := Programs.chunk_of Programs.read_local in
  let st := VMOps.mkVM [VNumber 1] 1 EmptyString [] in
  let instr := mkInstruction OP_GET_LOCAL 0 VNil in
  let stopped :=
    VMOps.mkVM (VMOps.m_stack st) (size_t_add (VMOps.m_ip st) 1)
               (unimplemented_message (opcode instr)) (VMOps.m_output st) in
  turns Sample.fmod Sample.format_double 1 chunk (VMOps.reset VMOps.new) = Some st
  /\ at_index (code chunk) (VMOps.m_ip st) = Some instr
  /\ Sample.run 10 Programs.read_local
     = Some (Compiler.Ran InterpretResult.RUNTIME_ERROR
               (Compiler.mkState (unimplemented_message (opcode instr)) stopped)).
Proof.
  cbv zeta.
  assert (H1 : turns Sample.fmod Sample.format_double 1
                 (Programs.chunk_of Programs.read_local) (VMOps.reset VMOps.new)
               = Some (VMOps.mkVM [VNumber 1] 1 EmptyString []))
    by (vm_compute; reflexivity).
  assert (H2 : at_index (code (Programs.chunk_of Programs.read_local))
                 (VMOps.m_ip (VMOps.mkVM [VNumber 1] 1 EmptyString []))
               = Some (mkInstruction OP_GET_LOCAL 0 VNil))
    by (vm_compute; reflexivity).
  split; [exact H1|]. split; [exact H2|].
  destruct (Compiler.compile Sample.stod Programs.read_local Compiler.new)
    as [[compiled c1]|] eqn:E; [|vm_compute in E; discriminate].
  assert (Hc : c1 = Compiler.mkState EmptyString VMOps.new)
    by (vm_compute in E; injection E as _ <-; reflexivity).
  assert (Hk : Compiler.chunk compiled = Programs.chunk_of Programs.read_local).
  { unfold Programs.chunk_of, Sample.compile. rewrite E. reflexivity. }
  subst c1.
  exact (proj2 (proj2 (proj1 (interpret_stops_at_unimplemented_opcode
           Sample.fmod Sample.format_double
           (Programs.chunk_of Programs.read_local) VMOps.new 1
           (VMOps.mkVM [VNumber 1] 1 EmptyString [])
           (mkInstruction OP_GET_LOCAL 0 VNil) 10
           Compiler.new H1 H2 (or_introl eq_refl) ltac:(lia))))
           Sample.stod Programs.read_local Compiler.new compiled E Hk).
Defined.

(** ** Further examples *)

(** A function whose body declares a name twice, reads an undeclared
    identifier and calls compiles without error, to the placeholder, the pop
    of the function's local and the final return (where [std::stod] reads
    the literals of the body, which the lexer scans all the same). *)
Example function_body_is_not_lowered :
  forall (stod : string -> option float) (c0 : Compiler.State),
    match stod "1", stod "2" with
    | Some _, Some _ =>
        exists compiled,
          Compiler.compile stod Programs.function_with_bad_body c0
          = Some (compiled, Compiler.mkState EmptyString (Compiler.m_vm c0))
          /\ Programs.listing (Compiler.chunk compiled)
             = [(OP_NIL, 0); (OP_POP, 0); (OP_RETURN, 0)]
    | _, _ => Compiler.compile stod Programs.function_with_bad_body c0 = None
    end.
Proof.
  intros stod c0.
  remember (stod "1") as one eqn:E1. remember (stod "2") as two eqn:E2.
  read_literals stod [("1", one); ("2", two)].
  destruct one, two; try (vm_compute; reflexivity).
  eexists. split; vm_compute; reflexivity.
Qed.

(** A literal outside the range of [double] is the one input the pipeline
    does not return on: [std::stod] throws, and nothing catches it. With
    the sample library, a literal of 400 digits. *)
Example literal_out_of_range :
  Sample.run 10 (String.append "print " (String.append (Sample.copies 400 "9") ";"))
  = None.
Proof. vm_compute. reflexivity. Qed.

(** The tests of the repository that use [!], [&&] and [||]: the lexer has
    no token for them, so [print !true;] prints [true]. *)
Example bang_is_dropped :
  forall (stod : string -> option float) (fmod : float -> float -> float)
         (format_double : float -> string) (k : nat) (c0 : Compiler.State),
    Compiler.run stod fmod format_double (3 + k) "print !true;" c0
    = Some (Compiler.Ran InterpretResult.OK
              (Compiler.mkState EmptyString
                 (VMOps.mkVM [] 3 EmptyString
                    (VMOps.m_output (Compiler.m_vm c0) ++ ["true"])))).
Proof. intros. vm_compute. reflexivity. Qed.

(** * Further properties of the pipeline *)

(** ** The token vector *)

Module LexerTypes.
Import Lexer.

Section WithLibrary.
Variable stod : string -> option float.

Lemma find_keyword_type text t :
  find_keyword KEYWORDS text = Some t -> In t scanned_types.
Proof.
  unfold KEYWORDS. simpl.
  repeat match goal with
         | |- context [if ?b then _ else _] => destruct b
         end; intros [= <-] || discriminate; simpl; tauto.
Qed.

Lemma withEquals_type a b lx ta tb :
  (forall x, tok_type (a x) = ta) -> (forall x, tok_type (b x) = tb) ->
  tok_type (fst (withEquals a b lx)) = ta \/ tok_type (fst (withEquals a b lx)) = tb.
Proof.
  intros Ha Hb. unfold withEquals. destruct (match_ "=" lx) as [[|] lx1]; simpl; auto.
Qed.

(** What [scanToken] returns: [EOF_TOKEN] with the text read to its end,
    or a token of one of the types it has a rule for. *)
Lemma scanToken_type fuel lx token lx' :
  scanToken stod fuel lx = Some (token, lx') ->
  (tok_type token = TokenType.EOF_TOKEN /\ isAtEnd lx' = true)
  \/ In (tok_type token) scanned_types.
Proof.
  intros Hs. unfold scanToken in Hs. cbv zeta in Hs.
  match type of Hs with
  | context [isAtEnd ?x] => destruct (isAtEnd x) eqn:E
  end; [injection Hs as <- <-; left; split; [reflexivity | exact E]|].
  right. unfold advance in Hs. cbn iota in Hs.
  repeat match type of Hs with
         | (if ?b then _ else _) = _ => destruct b
         end;
    scanned Hs token lx';
    try (cbn; tauto).
  - unfold scanIdentifier. cbv zeta.
    match goal with
    | |- context [find_keyword ?t ?x] =>
        destruct (find_keyword t x) eqn:K
    end; cbn [fst tok_type makeToken].
    + eapply find_keyword_type; exact K.
    + cbn; tauto.
  - unfold scanString.
    match goal with
    | |- context [string_loop ?f ?v ?x] => destruct (string_loop f v x) as [value lx2]
    end.
    destruct (isAtEnd lx2); cbn; tauto.
  - match goal with
    | |- context [withEquals ?a ?b ?x] =>
        destruct (withEquals_type a b x TokenType.EQUAL_EQUAL TokenType.EQUAL
                    ltac:(reflexivity) ltac:(reflexivity)) as [-> | ->]
    end; cbn; tauto.
  - match goal with
    | |- context [withEquals ?a ?b ?x] =>
        destruct (withEquals_type a b x TokenType.BANG_EQUAL TokenType.ERROR
                    ltac:(reflexivity) ltac:(reflexivity)) as [-> | ->]
    end; cbn; tauto.
  - match goal with
    | |- context [withEquals ?a ?b ?x] =>
        destruct (withEquals_type a b x TokenType.LESS_EQUAL TokenType.LESS
                    ltac:(reflexivity) ltac:(reflexivity)) as [-> | ->]
    end; cbn; tauto.
  - match goal with
    | |- context [withEquals ?a ?b ?x] =>
        destruct (withEquals_type a b x TokenType.GREATER_EQUAL TokenType.GREATER
                    ltac:(reflexivity) ltac:(reflexivity)) as [-> | ->]
    end; cbn; tauto.
Qed.

End WithLibrary.
End LexerTypes.

Module LexerShape.
Import Lexer.

Section WithLibrary.
Variable stod : string -> option float.

(** A property of token types that holds of [EOF_TOKEN] and of every type
    [scanToken] has a rule for holds of every token [tokenize] stores. *)
Lemma tokenize_loop_types (P : TokenType.t -> Prop) fuel scanFuel :
  P TokenType.EOF_TOKEN -> (forall ty, In ty scanned_types -> P ty) ->
  forall lx lx',
  Forall (fun t => P (tok_type t)) (m_tokens lx) ->
  tokenize_loop stod fuel scanFuel lx = Some lx' ->
  Forall (fun t => P (tok_type t)) (m_tokens lx').
Proof.
  intros Heof Hrule.
  induction fuel as [|k IH]; intros lx lx' H Hl; simpl in Hl;
    [injection Hl as <-; exact H|].
  destruct (isAtEnd lx); [injection Hl as <-; exact H|].
  match type of Hl with
  | context [scanToken stod scanFuel ?x] =>
      destruct (scanToken stod scanFuel x) as [[token lx1]|] eqn:Hs;
      [pose proof (LexerFacts.scanToken_tokens stod scanFuel x token lx1 Hs) as E;
       pose proof (LexerTypes.scanToken_type stod scanFuel x token lx1 Hs) as T
      | discriminate]
  end.
  cbn [m_tokens] in E. apply (fun F => IH _ _ F Hl).
  destruct (negb _); cbn [m_tokens push_token]; rewrite E; [|exact H].
  apply Forall_app. split; [exact H|]. constructor; [|constructor].
  destruct T as [[-> _]|T]; auto.
Qed.

Lemma scanned_not_eof ty : In ty scanned_types -> ty <> TokenType.EOF_TOKEN.
Proof.
  intros H E. subst ty. cbn in H.
  repeat (destruct H as [H|H]; [discriminate|]). exact H.
Qed.

Lemma tokenize_loop_eof_last fuel scanFuel : forall lx lx',
  eof_last lx -> tokenize_loop stod fuel scanFuel lx = Some lx' -> eof_last lx'.
Proof.
  induction fuel as [|k IH]; intros lx lx' H Hl; simpl in Hl;
    [injection Hl as <-; exact H|].
  destruct (isAtEnd lx) eqn:End; [injection Hl as <-; exact H|].
  destruct H as [H | (body & e & _ & _ & _ & Habs)]; [|congruence].
  match type of Hl with
  | context [scanToken stod scanFuel ?x] =>
      destruct (scanToken stod scanFuel x) as [[token lx1]|] eqn:Hs;
      [pose proof (LexerFacts.scanToken_tokens stod scanFuel x token lx1 Hs) as E;
       pose proof (LexerTypes.scanToken_type stod scanFuel x token lx1 Hs) as T
      | discriminate]
  end.
  cbn [m_tokens] in E. apply (fun F => IH _ _ F Hl).
  destruct (TokenType.eqb (tok_type token) TokenType.ERROR) eqn:Err; cbn [negb].
  - left. rewrite E. exact H.
  - destruct T as [[Te Tend] | T].
    + right. exists (m_tokens lx), token. cbn [m_tokens push_token].
      rewrite E. repeat split; assumption.
    + left. cbn [m_tokens push_token]. rewrite E.
      apply Forall_app. split; [exact H|]. constructor; [|constructor].
      apply scanned_not_eof. exact T.
Qed.

End WithLibrary.
End LexerShape.

(** X1. The lexer has no rule for [&&], [||] or a lone [!]: whatever the
    source text, no token of the vector [tokenize] returns has the type
    [AND], [OR] or [BANG] (nor [ERROR]), although the parser and the
    generator handle them. *)
Theorem tokenize_returns_no_logical_operator :
  forall (stod : string -> option float) (lx : Lexer.State)
         (tokens : list Token) (after : Lexer.State),
    Lexer.tokenize stod lx = Some (tokens, after) ->
    Forall (fun t => ~ In (tok_type t)
                          [TokenType.AND; TokenType.OR; TokenType.BANG; TokenType.ERROR])
           tokens.
Proof.
  intros stod lx tokens after Ht.
  pose proof (LexerFacts.tokenize_no_error stod lx tokens after Ht) as NoErr.
  unfold Lexer.tokenize in Ht. cbv zeta in Ht.
  destruct (Lexer.tokenize_loop stod _ _ _) as [stop|] eqn:Hl; [|discriminate].
  injection Ht as Ht _. cbn [Lexer.m_tokens Lexer.push_token] in Ht.
  set (P := fun ty : TokenType.t =>
              ~ In ty [TokenType.AND; TokenType.OR; TokenType.BANG]).
  assert (T : Forall (fun t => P (tok_type t)) tokens).
  { rewrite <- Ht. apply Forall_app. split.
    - eapply LexerShape.tokenize_loop_types; [| | |exact Hl]; [| |constructor].
      + unfold P. cbn. intros [H|[H|[H|[]]]]; discriminate.
      + intros ty Hty. unfold P. cbn in Hty |- *.
        intros [H|[H|[H|[]]]]; subst ty;
          repeat (destruct Hty as [Hty|Hty]; [discriminate|]); exact Hty.
    - constructor; [|constructor]. unfold P. cbn.
      intros [H|[H|[H|[]]]]; discriminate. }
  clear Ht Hl. revert NoErr.
  induction T as [|t ts Ht T IH]; intros NoErr; [constructor|].
  cbn [Compiler.first_error] in NoErr.
  destruct (TokenType.eqb (tok_type t) TokenType.ERROR) eqn:Err; [discriminate|].
  constructor; [|apply IH; exact NoErr].
  unfold P in Ht. cbn in Ht |- *.
  intros [H|[H|[H|[H|[]]]]]; try (apply Ht; tauto).
  rewrite <- H in Err. discriminate Err.
Qed.

(** X1 (witness): the text [!], whose vector is the [EOF_TOKEN] token
    alone. *)
Lemma tokenize_returns_no_logical_operator_witness :
  let tokens := [mkToken TokenType.EOF_TOKEN "!" 1 2 LitNone] in
  let after := Lexer.mkState "!" 0 1 1 2 tokens in
  Lexer.tokenize Sample.stod (Lexer.new "!") = Some (tokens, after)
  /\ Forall (fun t => ~ In (tok_type t)
                           [TokenType.AND; TokenType.OR; TokenType.BANG;
                            TokenType.ERROR])
            tokens.
Proof.
  cbv zeta.
  assert (H : Lexer.tokenize Sample.stod (Lexer.new "!")
              = Some ([mkToken TokenType.EOF_TOKEN "!" 1 2 LitNone],
                      Lexer.mkState "!" 0 1 1 2
                        [mkToken TokenType.EOF_TOKEN "!" 1 2 LitNone]))
    by reflexivity.
  split; [exact H|].
  exact (tokenize_returns_no_logical_operator Sample.stod (Lexer.new "!") _ _ H).
Defined.

(** X2. The vector [tokenize] returns ends in one [EOF_TOKEN] token, or in
    two of them (the loop stores the one [scanToken] returns when only
    blanks or a comment are left), and holds no [EOF_TOKEN] before. *)
Theorem tokenize_ends_in_one_or_two_eof :
  forall (stod : string -> option float) (lx : Lexer.State)
         (tokens : list Token) (after : Lexer.State),
    Lexer.tokenize stod lx = Some (tokens, after) ->
    exists body eofs,
      tokens = body ++ eofs
      /\ Forall (fun t => tok_type t <> TokenType.EOF_TOKEN) body
      /\ Forall (fun t => tok_type t = TokenType.EOF_TOKEN) eofs
      /\ (List.length eofs = 1 \/ List.length eofs = 2)%nat.
Proof.
  intros stod lx tokens after Ht. unfold Lexer.tokenize in Ht. cbv zeta in Ht.
  destruct (Lexer.tokenize_loop stod _ _ _) as [stop|] eqn:Hl; [|discriminate].
  injection Ht as <- _. cbn [Lexer.m_tokens Lexer.push_token].
  assert (Start : eof_last (Lexer.mkState (Lexer.m_source lx) 0 0 1 1 []))
    by (left; constructor).
  destruct (LexerShape.tokenize_loop_eof_last stod _ _ _ _ Start Hl)
    as [H | (body & e & E & Hb & He & _)].
  - exists (Lexer.m_tokens stop),
           [Lexer.makeToken TokenType.EOF_TOKEN LitNone stop].
    repeat split; [exact H | repeat constructor | left; reflexivity].
  - exists body, [e; Lexer.makeToken TokenType.EOF_TOKEN LitNone stop].
    rewrite E, <- app_assoc.
    repeat split; [exact Hb | repeat constructor; exact He | right; reflexivity].
Qed.

(** X2 (witness): the text [;] followed by a blank, whose vector ends in
    two [EOF_TOKEN] tokens. *)
Lemma tokenize_ends_in_one_or_two_eof_witness :
  let eof := mkToken TokenType.EOF_TOKEN EmptyString 1 3 LitNone in
  let tokens := [mkToken TokenType.SEMICOLON ";" 1 2 LitNone; eof; eof] in
  let after := Lexer.mkState "; " 2 2 1 3 tokens in
  Lexer.tokenize Sample.stod (Lexer.new "; ") = Some (tokens, after)
  /\ exists body eofs,
       tokens = body ++ eofs
       /\ Forall (fun t => tok_type t <> TokenType.EOF_TOKEN) body
       /\ Forall (fun t => tok_type t = TokenType.EOF_TOKEN) eofs
       /\ (List.length eofs = 1 \/ List.length eofs = 2)%nat.
Proof.
  cbv zeta.
  assert (H : Lexer.tokenize Sample.stod (Lexer.new "; ")
              = Some ([mkToken TokenType.SEMICOLON ";" 1 2 LitNone;
                       mkToken TokenType.EOF_TOKEN EmptyString 1 3 LitNone;
                       mkToken TokenType.EOF_TOKEN EmptyString 1 3 LitNone],
                      Lexer.mkState "; " 2 2 1 3
                        [mkToken TokenType.SEMICOLON ";" 1 2 LitNone;
                         mkToken TokenType.EOF_TOKEN EmptyString 1 3 LitNone;
                         mkToken TokenType.EOF_TOKEN EmptyString 1 3 LitNone]))
    by reflexivity.
  split; [exact H|].
  exact (tokenize_ends_in_one_or_two_eof Sample.stod (Lexer.new "; ") _ _ H).
Defined.

Module LexerReplay.
Import Lexer.

Section WithLibrary.
Variable stod : string -> option float.

Lemma tokenize_loop_source fuel scanFuel : forall lx lx',
  tokenize_loop stod fuel scanFuel lx = Some lx' -> m_source lx' = m_source lx.
Proof.
  induction fuel as [|k IH]; intros lx lx' Hl; simpl in Hl;
    [injection Hl as <-; reflexivity|].
  destruct (isAtEnd lx) eqn:E; [injection Hl as <-; reflexivity|].
  fold (restart lx) in Hl.
  destruct (scanToken stod scanFuel (restart lx)) as [[token lx1]|] eqn:Hs;
    [|discriminate].
  destruct (LexerFuel.tokenize_turn stod scanFuel lx E token lx1 Hs) as [S _].
  rewrite (IH _ _ Hl). exact S.
Qed.

Lemma scanToken_source fuel lx token lx' :
  scanToken stod fuel lx = Some (token, lx') -> m_source lx' = m_source lx.
Proof.
  intros Hs. destruct (isAtEnd lx) eqn:E.
  - unfold scanToken in Hs.
    assert (W : forall x, isAtEnd x = true -> skipWhitespace fuel x = x).
    { intros x Hx. destruct fuel; simpl; [reflexivity|]. rewrite Hx. reflexivity. }
    assert (C : skipComment fuel lx = lx).
    { unfold skipComment, peek. rewrite E. reflexivity. }
    rewrite (W lx E), C, (W lx E) in Hs. cbv zeta in Hs.
    change (isAtEnd (mkState (m_source lx) (m_current lx) (m_current lx) (m_line lx)
                       (m_column lx) (m_tokens lx))) with (isAtEnd lx) in Hs.
    rewrite E in Hs. injection Hs as _ <-. reflexivity.
  - apply (LexerFuel.scanToken_reads stod fuel lx token lx' E Hs).
Qed.

(** The fuel of [nextToken] is enough: more of it changes nothing. *)
Lemma nextToken_fuel fuel lx :
  isAtEnd lx = false -> 0 <= m_current lx ->
  (String.length (m_source lx) <= fuel)%nat ->
  scanToken stod fuel (restart lx) = nextToken stod lx.
Proof.
  intros E Hc Hf. unfold nextToken. rewrite E. cbv zeta. fold (restart lx).
  apply LexerFuel.scanToken_enough; [|exact Hf].
  unfold remaining, source_size, restart. cbn [m_source m_current]. lia.
Qed.

(** [tokenize] reads [m_source] and nothing else of the lexer. *)
Lemma tokenize_of_source a b :
  m_source a = m_source b -> tokenize stod a = tokenize stod b.
Proof. intros E. unfold tokenize. rewrite E. reflexivity. Qed.

End WithLibrary.
End LexerReplay.

(** X3. When [tokenize] returns, the whole text is read: [hasMore()] is
    false, and [nextToken()] then answers the [EOF_TOKEN] token that ends
    the vector, leaving the lexer where it is. *)
Theorem nothing_left_after_tokenize :
  forall (stod : string -> option float) (lx : Lexer.State)
         (tokens : list Token) (after : Lexer.State),
    Lexer.tokenize stod lx = Some (tokens, after) ->
    Lexer.hasMore after = false
    /\ exists eof body,
         Lexer.nextToken stod after = Some (eof, after)
         /\ tok_type eof = TokenType.EOF_TOKEN
         /\ tokens = body ++ [eof].
Proof.
  intros stod lx tokens after Ht. unfold Lexer.tokenize in Ht. cbv zeta in Ht.
  destruct (Lexer.tokenize_loop stod _ _ _) as [stop|] eqn:Hl; [|discriminate].
  assert (End : Lexer.isAtEnd stop = true).
  { eapply LexerFuel.tokenize_loop_ends; [|exact Hl].
    unfold remaining, Lexer.source_size. simpl. lia. }
  injection Ht as <- <-.
  assert (End' : Lexer.isAtEnd
                   (Lexer.push_token
                      (Lexer.makeToken TokenType.EOF_TOKEN LitNone stop) stop)
                 = true) by exact End.
  unfold Lexer.hasMore, Lexer.nextToken. rewrite End'.
  split; [reflexivity|].
  eexists. exists (Lexer.m_tokens stop).
  split; [reflexivity|]. split; reflexivity.
Qed.

(** X3 (witness): the text [;]. *)
Lemma nothing_left_after_tokenize_witness :
  Lexer.tokenize Sample.stod (Lexer.new ";")
  = Some (Programs.semicolon_tokens, Programs.after_semicolon)
  /\ Lexer.hasMore Programs.after_semicolon = false
  /\ exists eof body,
       Lexer.nextToken Sample.stod Programs.after_semicolon
       = Some (eof, Programs.after_semicolon)
       /\ tok_type eof = TokenType.EOF_TOKEN
       /\ Programs.semicolon_tokens = body ++ [eof].
Proof.
  assert (H : Lexer.tokenize Sample.stod (Lexer.new ";")
              = Some (Programs.semicolon_tokens, Programs.after_semicolon))
    by reflexivity.
  split; [exact H|].
  exact (nothing_left_after_tokenize Sample.stod (Lexer.new ";") _ _ H).
Defined.

(** X4. [tokenize] starts from the beginning of the text and from an empty
    vector each time: called again, after itself or after [nextToken], it
    returns the same vector and leaves the same lexer. *)
Theorem tokenize_again_gives_the_same :
  forall (stod : string -> option float) (lx : Lexer.State)
         (tokens : list Token) (after : Lexer.State),
    Lexer.tokenize stod lx = Some (tokens, after) ->
    Lexer.tokenize stod after = Some (tokens, after)
    /\ (forall token lx1,
          Lexer.nextToken stod lx = Some (token, lx1) ->
          Lexer.tokenize stod lx1 = Some (tokens, after)).
Proof.
  intros stod lx tokens after Ht. split.
  - rewrite <- Ht. apply LexerReplay.tokenize_of_source.
    unfold Lexer.tokenize in Ht. cbv zeta in Ht.
    destruct (Lexer.tokenize_loop stod _ _ _) as [stop|] eqn:Hl; [|discriminate].
    injection Ht as _ <-. cbn [Lexer.push_token Lexer.m_source].
    apply (LexerReplay.tokenize_loop_source stod _ _ _ _ Hl).
  - intros token lx1 Hn. rewrite <- Ht. apply LexerReplay.tokenize_of_source.
    unfold Lexer.nextToken in Hn.
    destruct (Lexer.isAtEnd lx); [injection Hn as _ <-; reflexivity|].
    cbv zeta in Hn. apply (LexerReplay.scanToken_source stod _ _ _ _ Hn).
Qed.

(** X4 (witness): the text [;], and [nextToken] on the new lexer. *)
Lemma tokenize_again_witness :
  Lexer.tokenize Sample.stod (Lexer.new ";")
  = Some (Programs.semicolon_tokens, Programs.after_semicolon)
  /\ Lexer.nextToken Sample.stod (Lexer.new ";")
     = Some (mkToken TokenType.SEMICOLON ";" 1 2 LitNone,
             Lexer.mkState ";" 0 1 1 2 [])
  /\ Lexer.tokenize Sample.stod Programs.after_semicolon
     = Some (Programs.semicolon_tokens, Programs.after_semicolon)
  /\ Lexer.tokenize Sample.stod (Lexer.mkState ";" 0 1 1 2 [])
     = Some (Programs.semicolon_tokens, Programs.after_semicolon).
Proof.
  assert (H : Lexer.tokenize Sample.stod (Lexer.new ";")
              = Some (Programs.semicolon_tokens, Programs.after_semicolon))
    by reflexivity.
  assert (N : Lexer.nextToken Sample.stod (Lexer.new ";")
              = Some (mkToken TokenType.SEMICOLON ";" 1 2 LitNone,
                      Lexer.mkState ";" 0 1 1 2 []))
    by reflexivity.
  split; [exact H|]. split; [exact N|].
  pose proof (tokenize_again_gives_the_same Sample.stod (Lexer.new ";") _ _ H)
    as [Again Next].
  split; [exact Again | exact (Next _ _ N)].
Defined.

(** ** The parser returns *)

Module ParserFacts.
Import Parser.

Lemma eqb_eq a b : TokenType.eqb a b = true <-> a = b.
Proof. unfold TokenType.eqb. destruct (TokenType.eq_dec a b); split; congruence. Qed.

Lemma eqb_neq a b : TokenType.eqb a b = false <-> a <> b.
Proof. unfold TokenType.eqb. destruct (TokenType.eq_dec a b); split; congruence. Qed.

Section FirstEof.

Variable ts : list Token.
Variable E : Z.
Hypothesis E_eof : exists t, at_index ts E = Some t /\ tok_type t = TokenType.EOF_TOKEN.
Hypothesis E_first : forall i t,
  0 <= i < E -> at_index ts i = Some t -> tok_type t <> TokenType.EOF_TOKEN.


Lemma E_nonneg : 0 <= E.
Proof.
  destruct E_eof as (t & H & _). unfold at_index in H.
  destruct (Z.ltb_spec E 0); [discriminate | assumption].
Qed.

Lemma in_range i : 0 <= i <= E -> exists t, at_index ts i = Some t.
Proof.
  intros Hi. destruct E_eof as (t & H & _). unfold at_index in *.
  destruct (Z.ltb_spec E 0); [discriminate|].
  destruct (Z.ltb_spec i 0); [lia|].
  assert (Z.to_nat E < List.length ts)%nat by (apply nth_error_Some; congruence).
  destruct (nth_error ts (Z.to_nat i)) eqn:N; [eauto|].
  apply nth_error_None in N. lia.
Qed.

(** *** The token-reading functions *)

Lemma peek_at cur : 0 <= cur <= E ->
  exists t, at_index ts cur = Some t /\ peek ts cur = Ok t cur.
Proof.
  intros H. destruct (in_range cur H) as [t Ht]. exists t.
  unfold peek. rewrite Ht. auto.
Qed.

Lemma isAtEnd_at cur : 0 <= cur <= E -> isAtEnd ts cur = Ok (cur =? E) cur.
Proof.
  intros H. destruct (peek_at cur H) as (t & Ht & P).
  unfold isAtEnd, bind. rewrite P. unfold ret. f_equal.
  destruct (Z.eqb_spec cur E) as [->|Hne].
  - destruct E_eof as (t' & Ht' & Te). apply eqb_eq. congruence.
  - apply eqb_neq. apply (E_first cur); [lia | exact Ht].
Qed.

Lemma check_at type cur : 0 <= cur <= E ->
  exists b, check ts type cur = Ok b cur /\ (b = true -> cur < E).
Proof.
  intros H. unfold check, bind. rewrite (isAtEnd_at cur H).
  destruct (Z.eqb_spec cur E) as [->|Hne].
  - exists false. split; [reflexivity | discriminate].
  - destruct (peek_at cur H) as (t & Ht & P). rewrite P.
    eexists. split; [reflexivity | lia].
Qed.

Lemma previous_at cur : 1 <= cur <= E + 1 ->
  exists t, previous ts cur = Ok t cur.
Proof.
  intros H. unfold previous. rewrite CodeFacts.size_t_sub_exact by lia.
  destruct (in_range (cur - 1)) as [t Ht]; [lia|]. rewrite Ht. eauto.
Qed.

Lemma advance_before cur : 0 <= cur < E ->
  exists t, advance ts cur = Ok t (cur + 1).
Proof.
  intros H. unfold advance, bind. rewrite isAtEnd_at by lia.
  destruct (Z.eqb_spec cur E); [lia|].
  destruct (previous_at (cur + 1)) as [t Ht]; [lia|]. rewrite Ht. eauto.
Qed.

Lemma advance_at_eof : 1 <= E -> exists t, advance ts E = Ok t E.
Proof.
  intros H. unfold advance, bind. rewrite isAtEnd_at by lia.
  rewrite Z.eqb_refl. unfold ret.
  destruct (previous_at E) as [t Ht]; [lia|]. rewrite Ht. eauto.
Qed.

Lemma match_at types : forall cur, 0 <= cur <= E ->
  (match_ ts types cur = Ok true (cur + 1) /\ cur < E)
  \/ match_ ts types cur = Ok false cur.
Proof.
  induction types as [|type rest IH]; intros cur H; simpl.
  - right. reflexivity.
  - destruct (check_at type cur H) as (b & Hc & Hb).
    unfold bind. rewrite Hc. destruct b.
    + left. specialize (Hb eq_refl).
      destruct (advance_before cur) as [t Ht]; [lia|].
      rewrite Ht. auto.
    + apply IH. exact H.
Qed.

Lemma consume_at type message cur : 0 <= cur <= E ->
  (exists t, consume ts type message cur = Ok t (cur + 1) /\ cur < E)
  \/ exists e, consume ts type message cur = Throw e cur.
Proof.
  intros H. unfold consume, bind. destruct (check_at type cur H) as ([|] & -> & Hb).
  - left. specialize (Hb eq_refl).
    destruct (advance_before cur) as [t Ht]; [lia|]. eauto.
  - right. destruct (peek_at cur H) as (t & _ & ->). unfold throw. eauto.
Qed.

(** *** Sequencing *)

Lemma fine_bind {A B} (c : P A) (k : A -> P B) d1 d2 cur :
  0 <= d1 -> 0 <= d2 ->
  fine E d1 cur (c cur) ->
  (forall a c1, c cur = Ok a c1 -> fine E d2 c1 (k a c1)) ->
  fine E (d1 + d2) cur (bind c k cur).
Proof.
  intros Hd1 Hd Hc Hk. unfold bind. destruct (c cur) as [a c1|e c1|]; simpl in *.
  - specialize (Hk a c1 eq_refl). destruct (k a c1); simpl in *; lia.
  - exact Hc.
  - exact Hc.
Qed.

Lemma fine_weaken {A} d d' cur cur' (r : Result A) :
  fine E d cur r -> cur' + d' <= cur + d -> cur' <= cur -> fine E d' cur' r.
Proof. destruct r; simpl; lia. Qed.

(** *** Expressions *)

Ltac by_match :=
  match goal with
  | |- context [match_ ts ?tys ?cur] =>
      let R := fresh "R" in
      let L := fresh "Hlt" in
      assert (R : 0 <= cur <= E) by lia;
      destruct (match_at tys cur R) as [[-> L] | ->]; clear R; cbn beta iota
  end.

Ltac by_consume :=
  match goal with
  | |- context [consume ts ?ty ?msg ?cur] =>
      let R := fresh "R" in
      let L := fresh "Hlt" in
      let t := fresh "t" in
      let e := fresh "e" in
      assert (R : 0 <= cur <= E) by lia;
      destruct (consume_at ty msg cur R) as [(t & -> & L) | (e & ->)]; clear R;
      cbn beta iota
  end.

Ltac by_previous :=
  match goal with
  | |- context [previous ts ?cur] =>
      let R := fresh "R" in
      let t := fresh "t" in
      assert (R : 1 <= cur <= E + 1) by lia;
      destruct (previous_at cur R) as [t ->]; clear R; cbn beta iota
  end.

Ltac by_check :=
  match goal with
  | |- context [check ts ?ty ?cur] =>
      let R := fresh "R" in
      let b := fresh "b" in
      let Hb := fresh "Hb" in
      assert (R : 0 <= cur <= E) by lia;
      destruct (check_at ty cur R) as (b & -> & Hb); clear R; cbn beta iota
  end.

Ltac by_peek :=
  match goal with
  | |- context [peek ts ?cur] =>
      let R := fresh "R" in
      let t := fresh "t" in
      assert (R : 0 <= cur <= E) by lia;
      destruct (peek_at cur R) as (t & _ & ->); clear R; cbn beta iota
  end.

Ltac done := cbn [fine]; lia.

Lemma primary_ok expression cur :
  0 <= cur <= E ->
  (forall c, cur < c <= E -> fine E 1 c (expression c)) ->
  fine E 1 cur (primary ts expression cur).
Proof.
  intros H Hexp. unfold primary, bind, ret, throw.
  by_match; [done|].
  by_match; [done|].
  by_match.
  { by_previous. destruct (literal _); done. }
  by_match.
  { by_previous. destruct (literal _); done. }
  by_match.
  { pose proof (Hexp (cur + 1) ltac:(lia)) as He.
    destruct (expression (cur + 1)) as [a c1|e c1|]; cbn [fine] in He;
      [|done|contradiction].
    by_consume; done. }
  by_match.
  { by_previous. done. }
  by_peek. done.
Qed.

Ltac by_call Hspec :=
  let He := fresh "He" in
  pose proof Hspec as He;
  match type of He with
  | fine _ _ _ ?r =>
      let a := fresh "a" in
      let c := fresh "c" in
      destruct r as [a c|? c|]; cbn [fine] in He; [|done|contradiction];
      cbn beta iota
  end.

Ltac by_isAtEnd :=
  match goal with
  | |- context [isAtEnd ts ?cur] =>
      let R := fresh "R" in
      assert (R : 0 <= cur <= E) by lia;
      rewrite (isAtEnd_at cur R); clear R; cbn beta iota;
      destruct (Z.eqb_spec cur E)
  end.

Ltac left_lia := unfold tokens_left in *; lia.

Section Expressions.

Variable expression : P Expr.

Lemma arguments_loop_ok fuel : forall arguments cur,
  0 <= cur <= E ->
  (forall c, cur <= c <= E -> fine E 1 c (expression c)) ->
  (tokens_left E cur < fuel)%nat ->
  fine E 1 cur (arguments_loop ts expression fuel arguments cur).
Proof.
  induction fuel as [|k IH]; intros arguments cur H Hexp Hf; [lia|].
  cbn [arguments_loop]. unfold bind, ret, throw.
  destruct (255 <=? size arguments).
  { by_peek. done. }
  by_call (Hexp cur ltac:(lia)).
  by_match; [|done].
  apply (fine_weaken 1 1 (c + 1) cur); [|lia|lia].
  apply IH; [lia | intros c' Hc'; apply Hexp; lia | left_lia].
Qed.

Lemma finishCall_ok fuel callee cur :
  0 <= cur <= E ->
  (forall c, cur <= c <= E -> fine E 1 c (expression c)) ->
  (tokens_left E cur < fuel)%nat ->
  fine E 1 cur (finishCall ts expression fuel callee cur).
Proof.
  intros H Hexp Hf. unfold finishCall, bind, ret.
  by_check. destruct b; cbn [negb].
  - by_consume; done.
  - by_call (arguments_loop_ok fuel [] cur H Hexp Hf).
    by_consume; done.
Qed.

Lemma call_loop_ok fuel : forall expr cur,
  0 <= cur <= E ->
  (forall c, cur < c <= E -> fine E 1 c (expression c)) ->
  (tokens_left E cur < fuel)%nat ->
  fine E 0 cur (call_loop ts expression fuel expr cur).
Proof.
  induction fuel as [|k IH]; intros expr cur H Hexp Hf; [lia|].
  cbn [call_loop]. unfold bind, ret.
  by_match; [|done].
  assert (Hexp1 : forall c, cur + 1 <= c <= E -> fine E 1 c (expression c))
    by (intros c' Hc'; apply Hexp; lia).
  by_call (finishCall_ok k expr (cur + 1) ltac:(lia) Hexp1 ltac:(left_lia)).
  apply (fine_weaken 0 0 c cur); [|lia|lia].
  apply IH; [lia | intros c' Hc'; apply Hexp; lia | left_lia].
Qed.

Lemma call_ok fuel cur :
  0 <= cur <= E ->
  (forall c, cur < c <= E -> fine E 1 c (expression c)) ->
  (tokens_left E cur < fuel)%nat ->
  fine E 1 cur (call ts expression fuel cur).
Proof.
  intros H Hexp Hf. unfold call, bind.
  by_call (primary_ok expression cur H Hexp).
  apply (fine_weaken 0 1 c cur); [|lia|lia].
  apply call_loop_ok; [lia | intros c' Hc'; apply Hexp; lia | left_lia].
Qed.

Lemma unary_ok fuel : forall cur,
  0 <= cur <= E ->
  (forall c, cur < c <= E -> fine E 1 c (expression c)) ->
  (tokens_left E cur + 1 < fuel)%nat ->
  fine E 1 cur (unary ts expression fuel cur).
Proof.
  induction fuel as [|k IH]; intros cur H Hexp Hf; [lia|].
  cbn [unary]. unfold bind, ret.
  by_match.
  - by_previous.
    assert (Hexp1 : forall c, cur + 1 < c <= E -> fine E 1 c (expression c))
      by (intros c' Hc'; apply Hexp; lia).
    by_call (IH (cur + 1) ltac:(lia) Hexp1 ltac:(left_lia)). done.
  - apply call_ok; [exact H | exact Hexp | left_lia].
Qed.

End Expressions.

Lemma binary_loop_ok next ops fuel : forall expr cur,
  0 <= cur <= E ->
  (forall c, cur < c <= E -> fine E 1 c (next c)) ->
  (tokens_left E cur < fuel)%nat ->
  fine E 0 cur (binary_loop ts next ops fuel expr cur).
Proof.
  induction fuel as [|k IH]; intros expr cur H Hnext Hf; [lia|].
  cbn [binary_loop]. unfold bind, ret.
  by_match; [|done].
  by_previous.
  by_call (Hnext (cur + 1) ltac:(lia)).
  apply (fine_weaken 0 0 c cur); [|lia|lia].
  apply IH; [lia | intros c' Hc'; apply Hnext; lia | left_lia].
Qed.

Lemma binary_level_ok next ops fuel cur :
  0 <= cur <= E ->
  (forall c, cur <= c <= E -> fine E 1 c (next c)) ->
  (tokens_left E cur < fuel)%nat ->
  fine E 1 cur (binary_level ts next ops fuel cur).
Proof.
  intros H Hnext Hf. unfold binary_level, bind.
  by_call (Hnext cur ltac:(lia)).
  apply (fine_weaken 0 1 c cur); [|lia|lia].
  apply binary_loop_ok; [lia | intros c' Hc'; apply Hnext; lia | left_lia].
Qed.

Lemma level_ok (expression next : P Expr) ops fuel :
  (forall cur,
     0 <= cur <= E ->
     (forall c, cur < c <= E -> fine E 1 c (expression c)) ->
     (tokens_left E cur + 1 < fuel)%nat ->
     fine E 1 cur (next cur)) ->
  forall cur,
    0 <= cur <= E ->
    (forall c, cur < c <= E -> fine E 1 c (expression c)) ->
    (tokens_left E cur + 1 < fuel)%nat ->
    fine E 1 cur (binary_level ts next ops fuel cur).
Proof.
  intros Hnext cur H Hexp Hf.
  apply binary_level_ok; [exact H | | left_lia].
  intros c Hc. apply Hnext; [lia | | left_lia].
  intros c' Hc'. apply Hexp. lia.
Qed.

Lemma logicalOr_ok expression fuel cur :
  0 <= cur <= E ->
  (forall c, cur < c <= E -> fine E 1 c (expression c)) ->
  (tokens_left E cur + 1 < fuel)%nat ->
  fine E 1 cur (logicalOr ts expression fuel cur).
Proof.
  revert cur.
  unfold logicalOr, logicalAnd, equality, comparison, term, factor.
  do 6 apply level_ok.
  intros cur H Hexp Hf. apply unary_ok; assumption.
Qed.

Lemma assignment_ok fuel : forall cur,
  0 <= cur <= E ->
  (tokens_left E cur + 2 < fuel)%nat ->
  fine E 1 cur (assignment ts fuel cur).
Proof.
  induction fuel as [|k IH]; intros cur H Hf; [lia|].
  cbn [assignment]. unfold bind, ret, throw.
  assert (Hexp : forall c, cur < c <= E -> fine E 1 c (assignment ts k c)).
  { intros c Hc. apply IH; [lia | left_lia]. }
  by_call (logicalOr_ok (assignment ts k) k cur H Hexp ltac:(left_lia)).
  by_match; [|done].
  by_previous.
  by_call (Hexp (c + 1) ltac:(lia)).
  destruct a; done.
Qed.

(** *** Statements *)

Lemma expression_ok fuel cur :
  0 <= cur <= E ->
  (tokens_left E cur + 2 < fuel)%nat ->
  fine E 1 cur (expression ts fuel cur).
Proof. apply assignment_ok. Qed.

Lemma letDeclaration_ok fuel cur :
  0 <= cur <= E ->
  (tokens_left E cur + 2 < fuel)%nat ->
  fine E 1 cur (letDeclaration ts fuel cur).
Proof.
  intros H Hf. unfold letDeclaration, bind, ret.
  by_consume; [|done].
  by_match.
  - by_call (expression_ok fuel (cur + 1 + 1) ltac:(lia) ltac:(left_lia)).
    by_consume; done.
  - by_consume; done.
Qed.

Lemma params_loop_ok fuel : forall params cur,
  0 <= cur <= E ->
  (tokens_left E cur < fuel)%nat ->
  fine E 1 cur (params_loop ts fuel params cur).
Proof.
  induction fuel as [|k IH]; intros params cur H Hf; [lia|].
  cbn [params_loop]. unfold bind, ret, throw.
  destruct (255 <=? size params).
  { by_peek. done. }
  by_consume; [|done].
  by_match; [|done].
  apply (fine_weaken 1 1 (cur + 1 + 1) cur); [|lia|lia].
  apply IH; [lia | left_lia].
Qed.

Section Statements.

Variable declaration : P Stmt.

Lemma statements_loop_ok fuel : forall statements cur,
  0 <= cur <= E ->
  (forall c, cur <= c <= E -> fine E 1 c (declaration c)) ->
  (tokens_left E cur < fuel)%nat ->
  fine E 0 cur (statements_loop ts declaration fuel statements cur).
Proof.
  induction fuel as [|k IH]; intros statements cur H Hdecl Hf; [lia|].
  cbn [statements_loop]. unfold bind, ret.
  by_check. by_isAtEnd.
  { rewrite andb_false_r. done. }
  destruct b; cbn [negb andb]; [done|].
  by_call (Hdecl cur ltac:(lia)).
  apply (fine_weaken 0 0 c cur); [|lia|lia].
  apply IH; [lia | intros c' Hc'; apply Hdecl; lia | left_lia].
Qed.

Lemma functionDeclaration_ok fuel cur :
  0 <= cur <= E ->
  (forall c, cur <= c <= E -> fine E 1 c (declaration c)) ->
  (tokens_left E cur < fuel)%nat ->
  fine E 1 cur (functionDeclaration ts declaration fuel cur).
Proof.
  intros H Hdecl Hf. unfold functionDeclaration, bind, ret.
  by_consume; [|done].
  by_consume; [|done].
  by_check.
  destruct b; cbn [negb].
  - by_consume; [|done].
    by_consume; [|done].
    by_call (statements_loop_ok fuel [] (cur + 1 + 1 + 1 + 1) ltac:(lia)
               ltac:(intros c' Hc'; apply Hdecl; lia) ltac:(left_lia)).
    by_consume; done.
  - by_call (params_loop_ok fuel [] (cur + 1 + 1) ltac:(lia) ltac:(left_lia)).
    by_consume; [|done].
    by_consume; [|done].
    by_call (statements_loop_ok fuel [] (c + 1 + 1) ltac:(lia)
               ltac:(intros c' Hc'; apply Hdecl; lia) ltac:(left_lia)).
    by_consume; done.
Qed.

Lemma blockStatement_ok fuel cur :
  0 <= cur <= E ->
  (forall c, cur <= c <= E -> fine E 1 c (declaration c)) ->
  (tokens_left E cur < fuel)%nat ->
  fine E 1 cur (blockStatement ts declaration fuel cur).
Proof.
  intros H Hdecl Hf. unfold blockStatement, bind, ret.
  by_call (statements_loop_ok fuel [] cur H Hdecl Hf).
  by_consume; done.
Qed.

End Statements.

Lemma returnStatement_ok fuel cur :
  1 <= cur <= E ->
  (tokens_left E cur + 2 < fuel)%nat ->
  fine E 1 cur (returnStatement ts fuel cur).
Proof.
  intros H Hf. unfold returnStatement, bind, ret.
  by_previous. by_check. destruct b; cbn [negb].
  - by_consume; done.
  - by_call (expression_ok fuel cur ltac:(lia) Hf).
    by_consume; done.
Qed.

Lemma printStatement_ok fuel cur :
  0 <= cur <= E ->
  (tokens_left E cur + 2 < fuel)%nat ->
  fine E 1 cur (printStatement ts fuel cur).
Proof.
  intros H Hf. unfold printStatement, bind, ret.
  by_call (expression_ok fuel cur H Hf).
  by_consume; done.
Qed.

Lemma expressionStatement_ok fuel cur :
  0 <= cur <= E ->
  (tokens_left E cur + 2 < fuel)%nat ->
  fine E 1 cur (expressionStatement ts fuel cur).
Proof.
  intros H Hf. unfold expressionStatement, bind, ret.
  by_call (expression_ok fuel cur H Hf).
  by_consume; done.
Qed.

Lemma statement_ok declaration fuel : forall cur,
  0 <= cur <= E ->
  (forall c, cur < c <= E -> fine E 1 c (declaration c)) ->
  (tokens_left E cur + 3 < fuel)%nat ->
  fine E 1 cur (statement ts declaration fuel cur).
Proof.
  induction fuel as [|k IH]; intros cur H Hdecl Hf; [lia|].
  cbn [statement]. unfold bind, ret.
  by_match.
  { by_consume; [|done].
    by_call (expression_ok k (cur + 1 + 1) ltac:(lia) ltac:(left_lia)).
    by_consume; [|done].
    by_call (IH (c + 1) ltac:(lia) ltac:(intros c' Hc'; apply Hdecl; lia)
               ltac:(left_lia)).
    by_match; [|done].
    by_call (IH (c0 + 1) ltac:(lia) ltac:(intros c' Hc'; apply Hdecl; lia)
               ltac:(left_lia)).
    done. }
  by_match.
  { by_consume; [|done].
    by_call (expression_ok k (cur + 1 + 1) ltac:(lia) ltac:(left_lia)).
    by_consume; [|done].
    by_call (IH (c + 1) ltac:(lia) ltac:(intros c' Hc'; apply Hdecl; lia)
               ltac:(left_lia)).
    done. }
  by_match.
  { apply (fine_weaken 1 1 (cur + 1) cur); [|lia|lia].
    apply returnStatement_ok; [lia | left_lia]. }
  by_match.
  { apply (fine_weaken 1 1 (cur + 1) cur); [|lia|lia].
    apply printStatement_ok; [lia | left_lia]. }
  by_match.
  { apply (fine_weaken 1 1 (cur + 1) cur); [|lia|lia].
    apply blockStatement_ok;
      [lia | intros c' Hc'; apply Hdecl; lia | left_lia]. }
  apply expressionStatement_ok; [lia | left_lia].
Qed.

Lemma declaration_ok fuel : forall cur,
  0 <= cur <= E ->
  (tokens_left E cur + 4 < fuel)%nat ->
  fine E 1 cur (declaration ts fuel cur).
Proof.
  induction fuel as [|k IH]; intros cur H Hf; [lia|].
  cbn [declaration]. unfold bind.
  assert (Hdecl : forall c, cur < c <= E -> fine E 1 c (declaration ts k c)).
  { intros c Hc. apply IH; [lia | left_lia]. }
  by_match.
  { apply (fine_weaken 1 1 (cur + 1) cur); [|lia|lia].
    apply letDeclaration_ok; [lia | left_lia]. }
  by_match.
  { apply (fine_weaken 1 1 (cur + 1) cur); [|lia|lia].
    apply functionDeclaration_ok;
      [lia | intros c' Hc'; apply Hdecl; lia | left_lia]. }
  apply statement_ok; [exact H | exact Hdecl | left_lia].
Qed.

(** *** Recovery and the loop of [parse] *)

Lemma synchronize_loop_ok fuel : forall cur,
  1 <= cur <= E ->
  (tokens_left E cur < fuel)%nat ->
  sure E 0 cur (synchronize_loop ts fuel cur).
Proof.
  induction fuel as [|k IH]; intros cur H Hf; [lia|].
  cbn [synchronize_loop]. unfold bind, ret.
  by_isAtEnd; [cbn [sure]; lia|].
  by_previous.
  destruct (TokenType.eqb (tok_type t) TokenType.SEMICOLON); [cbn [sure]; lia|].
  by_peek.
  assert (Next : sure E 0 cur
                   (match advance ts cur with
                    | Ok _ c1 => synchronize_loop ts k c1
                    | Throw e c1 => Throw e c1
                    | Stuck => Stuck
                    end)).
  { destruct (advance_before cur) as [t1 ->]; [lia|].
    pose proof (IH (cur + 1) ltac:(lia) ltac:(left_lia)) as He.
    destruct (synchronize_loop ts k (cur + 1)); cbn [sure] in *; try contradiction.
    lia. }
  destruct (tok_type t0); first [exact Next | cbn [sure]; lia].
Qed.

(** [synchronize] is called where a [ParseError] was thrown: it returns,
    past that token unless it is the [EOF_TOKEN] one. *)
Lemma synchronize_ok fuel cur :
  0 <= cur <= E -> 1 <= E ->
  (tokens_left E cur < fuel)%nat ->
  exists c, synchronize ts fuel cur = Ok tt c
            /\ cur <= c <= E /\ (cur < E -> cur < c).
Proof.
  intros H HE Hf. unfold synchronize, bind.
  destruct (Z.eq_dec cur E) as [->|Hne].
  - destruct (advance_at_eof HE) as [t ->].
    pose proof (synchronize_loop_ok fuel E ltac:(lia) Hf) as He.
    destruct (synchronize_loop ts fuel E) as [[] c|e c|]; cbn [sure] in He;
      try contradiction.
    exists c. split; [reflexivity | lia].
  - destruct (advance_before cur) as [t ->]; [lia|].
    pose proof (synchronize_loop_ok fuel (cur + 1) ltac:(lia) ltac:(left_lia)) as He.
    destruct (synchronize_loop ts fuel (cur + 1)) as [[] c|e c|]; cbn [sure] in He;
      try contradiction.
    exists c. split; [reflexivity | lia].
Qed.

(** The loop of [parse] returns, at the first [EOF_TOKEN]. *)
Lemma parse_loop_ok fuel callFuel : forall program cerr cur,
  0 <= cur <= E ->
  (tokens_left E cur < fuel)%nat ->
  (tokens_left E 0 + 4 < callFuel)%nat ->
  exists program' cerr',
    parse_loop ts fuel callFuel program cerr cur = Some (program', cerr', E).
Proof.
  induction fuel as [|k IH]; intros program cerr cur H Hf Hc; [lia|].
  cbn [parse_loop]. rewrite (isAtEnd_at cur H).
  destruct (Z.eqb_spec cur E) as [->|Hne]; [eauto|].
  pose proof (declaration_ok callFuel cur H ltac:(left_lia)) as Hd.
  destruct (declaration ts callFuel cur) as [stmt c1|e c1|]; cbn [fine] in Hd;
    [| |contradiction].
  - apply IH; [lia | left_lia | exact Hc].
  - destruct (synchronize_ok callFuel c1 ltac:(lia) ltac:(lia) ltac:(left_lia))
      as (c2 & -> & Hc2 & Hp).
    apply IH; [lia | left_lia | exact Hc].
Qed.

(** [parse] returns. *)
Lemma parse_ok : exists program cerr, parse ts = Some (program, cerr).
Proof.
  unfold parse. cbv zeta.
  assert (Hlen : (Z.to_nat E < List.length ts)%nat).
  { destruct E_eof as (t & Ht & _). unfold at_index in Ht.
    destruct (E <? 0); [discriminate|]. apply nth_error_Some. congruence. }
  pose proof E_nonneg as HE.
  destruct (parse_loop_ok (4 * List.length ts + 8) (4 * List.length ts + 8) [] [] 0)
    as (program & cerr & ->); [lia | left_lia | left_lia |].
  eauto.
Qed.

End FirstEof.
End ParserFacts.

Lemma first_eof (ts : list Token) :
  Exists (fun t => tok_type t = TokenType.EOF_TOKEN) ts ->
  exists E,
    (exists t, at_index ts E = Some t /\ tok_type t = TokenType.EOF_TOKEN)
    /\ forall i t, 0 <= i < E -> at_index ts i = Some t ->
                   tok_type t <> TokenType.EOF_TOKEN.
Proof.
  induction ts as [|x ts IH]; intros H; [inversion H|].
  destruct (TokenType.eq_dec (tok_type x) TokenType.EOF_TOKEN) as [Hx|Hx].
  - exists 0. split; [exists x; split; [reflexivity | exact Hx]|]. intros; lia.
  - destruct IH as (E & (t & Ht & Te) & Hfirst).
    { inversion H; subst; [contradiction | assumption]. }
    assert (0 <= E).
    { unfold at_index in Ht. destruct (Z.ltb_spec E 0); [discriminate | assumption]. }
    exists (E + 1). split.
    + exists t. split; [|exact Te]. unfold at_index in *.
      destruct (Z.ltb_spec E 0); [lia|]. destruct (Z.ltb_spec (E + 1) 0); [lia|].
      replace (Z.to_nat (E + 1)) with (S (Z.to_nat E)) by lia. exact Ht.
    + intros i t' Hi Hat. destruct (Z.eq_dec i 0) as [->|Hne].
      * unfold at_index in Hat. simpl in Hat. congruence.
      * apply (Hfirst (i - 1) t'); [lia|]. unfold at_index in *.
        destruct (Z.ltb_spec i 0); [lia|]. destruct (Z.ltb_spec (i - 1) 0); [lia|].
        replace (Z.to_nat i) with (S (Z.to_nat (i - 1))) in Hat by lia. exact Hat.
Qed.

(** X5. [parse] returns for every token vector that holds an [EOF_TOKEN]
    token: no token is read outside the vector, [previous()] is never called
    at the first token, and every loop and recursion ends. *)
Theorem parse_returns_on_a_vector_with_eof :
  forall (tokens : list Token),
    Exists (fun t => tok_type t = TokenType.EOF_TOKEN) tokens ->
    exists program cerr, Parser.parse tokens = Some (program, cerr).
Proof.
  intros tokens H.
  destruct (first_eof tokens H) as (E & Heof & Hfirst).
  exact (ParserFacts.parse_ok tokens E Heof Hfirst).
Qed.

(** X5 (witness): the vector of the text [;]. *)
Lemma parse_returns_witness :
  Exists (fun t => tok_type t = TokenType.EOF_TOKEN)
         [mkToken TokenType.SEMICOLON ";" 1 2 LitNone;
          mkToken TokenType.EOF_TOKEN EmptyString 1 2 LitNone]
  /\ exists program cerr,
       Parser.parse [mkToken TokenType.SEMICOLON ";" 1 2 LitNone;
                     mkToken TokenType.EOF_TOKEN EmptyString 1 2 LitNone]
       = Some (program, cerr).
Proof.
  assert (H : Exists (fun t => tok_type t = TokenType.EOF_TOKEN)
                [mkToken TokenType.SEMICOLON ";" 1 2 LitNone;
                 mkToken TokenType.EOF_TOKEN EmptyString 1 2 LitNone]).
  { apply Exists_cons_tl. apply Exists_cons_hd. reflexivity. }
  split; [exact H|].
  exact (parse_returns_on_a_vector_with_eof _ H).
Defined.

(** X6. [Compiler::compile] returns exactly when [tokenize] does, that is
    unless [std::stod] throws on a literal of the text (so it returns for
    every text when the library reads every literal). When it returns, the
    parser and the generator were run, and the message it stores is the IR
    generator's or none: what the lexer rejects and the parse errors written
    to [std::cerr] never reach the caller. *)
Theorem compile_reports_lowering_errors_only :
  forall (stod : string -> option float) (source : string) (c : Compiler.State),
    match Lexer.tokenize stod (Lexer.new source) with
    | Some (tokens, _) =>
        exists program cerr irgen chunk,
          Compiler.compile stod source c
          = Some (Compiler.mkCompiled tokens (Some (program, cerr)) (Some irgen)
                                      chunk,
                  Compiler.mkState
                    (if IRGen.m_hadError irgen then IRGen.m_error irgen
                     else EmptyString)
                    (Compiler.m_vm c))
          /\ Parser.parse tokens = Some (program, cerr)
          /\ irgen = snd (IRGen.compile program IRGen.new)
          /\ chunk = (if IRGen.m_hadError irgen then empty_chunk
                      else fst (IRGen.compile program IRGen.new))
    | None =>
        Compiler.compile stod source c = None
        /\ exists text, stod text = None
    end
    /\ ((forall text, stod text <> None) ->
        exists compiled c1, Compiler.compile stod source c = Some (compiled, c1)).
Proof.
  intros stod source c.
  assert (Returns : forall tokens lx,
            Lexer.tokenize stod (Lexer.new source) = Some (tokens, lx) ->
            exists program cerr irgen chunk,
              Compiler.compile stod source c
              = Some (Compiler.mkCompiled tokens (Some (program, cerr))
                                          (Some irgen) chunk,
                      Compiler.mkState
                        (if IRGen.m_hadError irgen then IRGen.m_error irgen
                         else EmptyString)
                        (Compiler.m_vm c))
              /\ Parser.parse tokens = Some (program, cerr)
              /\ irgen = snd (IRGen.compile program IRGen.new)
              /\ chunk = (if IRGen.m_hadError irgen then empty_chunk
                          else fst (IRGen.compile program IRGen.new))).
  { intros tokens lx T. unfold Compiler.compile. rewrite T.
    rewrite (LexerFacts.tokenize_no_error stod _ _ _ T).
    destruct (first_eof tokens (LexerFacts.tokenize_has_eof stod _ _ _ T))
      as (E & Heof & Hfirst).
    destruct (ParserFacts.parse_ok tokens E Heof Hfirst) as (program & cerr & Hp).
    rewrite Hp.
    destruct (IRGen.compile program IRGen.new) as [chunk irgen] eqn:Hc.
    exists program, cerr, irgen.
    destruct (IRGen.m_hadError irgen) eqn:Herr.
    - exists empty_chunk. rewrite Hc. cbn [fst snd].
      repeat split; first [reflexivity | exact Hp].
    - exists chunk. rewrite Hc. cbn [fst snd].
      repeat split; first [reflexivity | exact Hp]. }
  split.
  - destruct (Lexer.tokenize stod (Lexer.new source)) as [[tokens lx]|] eqn:T.
    + exact (Returns tokens lx eq_refl).
    + split; [unfold Compiler.compile; rewrite T; reflexivity|].
      exact (LexerFuel.tokenize_throws stod _ T).
  - intros Reads.
    destruct (LexerFuel.tokenize_returns stod (Lexer.new source) Reads)
      as [[tokens lx] T].
    destruct (Returns tokens lx T) as (program & cerr & irgen & chunk & Hc & _).
    eauto.
Qed.

(** ** The chunk of a compile is well formed *)

Module LoweringSteps.
Import IRGen IRGenFacts CodeFacts.

Section Steps.

Variable R : IRGenerator -> IRGenerator -> Prop.
Hypothesis R_refl : forall g, R g g.
Hypothesis R_trans : forall g1 g2 g3, R g1 g2 -> R g2 g3 -> R g1 g3.
Hypothesis R_plain : forall op g, In op plain_opcodes -> R g (emitByte op 0 g).
Hypothesis R_operand : forall op z g,
  In op operand_opcodes -> R g (emitByte op (to_u8 z) g).
Hypothesis R_error : forall msg g, msg <> EmptyString -> R g (error msg g).
Hypothesis R_constant : forall v g,
  (isNumber v || isString v)%bool = true ->
  R g (with_chunk (ChunkOps.writeConstant v 0 (m_chunk g)) g).

Ltac plain := apply R_plain; unfold plain_opcodes; simpl; tauto.
Ltac message := apply R_error; simpl; discriminate.

Lemma steps_emitBinaryOp op g : R g (emitBinaryOp op g).
Proof.
  unfold emitBinaryOp; destruct (tok_type op);
    first [ plain | message | eapply R_trans; plain ].
Qed.

Lemma steps_emitUnaryOp op g : R g (emitUnaryOp op g).
Proof.
  unfold emitUnaryOp; destruct (tok_type op); first [plain | message].
Qed.

Lemma steps_local op name g :
  In op [OP_GET_LOCAL; OP_SET_LOCAL] ->
  R g (let local := resolveLocal (lexeme name) g in
       if negb (local =? -1) then emitByte op (to_u8 local) g
       else error (String.append "Undefined variable: " (lexeme name)) g).
Proof.
  intros Hop. cbv zeta. destruct (negb _); [|message].
  apply R_operand. unfold operand_opcodes. simpl in *. tauto.
Qed.

Lemma steps_compileExpr e : forall g, R g (compileExpr e g).
Proof.
  destruct e as [e|]; [|intros g; plain].
  induction e using Expr_tree_ind; intros g.
  - rewrite compileExpr_Binary.
    eapply R_trans; [|apply steps_emitBinaryOp].
    eapply R_trans.
    + destruct l; [apply H | plain].
    + destruct r; [apply H0 | plain].
  - rewrite compileExpr_Unary.
    eapply R_trans; [|apply steps_emitUnaryOp].
    destruct r; [apply H | plain].
  - destruct v as [d|s|[|]|]; simpl;
      first [apply R_constant; reflexivity | plain].
  - apply (steps_local OP_GET_LOCAL). simpl; tauto.
  - rewrite compileExpr_Assign.
    eapply R_trans; [destruct v; [apply H | plain]|].
    apply (steps_local OP_SET_LOCAL). simpl; tauto.
  - rewrite compileExpr_Call.
    eapply R_trans; [|apply R_operand; unfold operand_opcodes; simpl; tauto].
    eapply R_trans; [destruct callee; [apply H | plain]|].
    apply (walk_fold_left R R_refl R_trans compileExpr).
    eapply Forall_impl; [|exact H0].
    intros [a|] Ha g'; [apply Ha | plain].
  - rewrite compileExpr_Grouping.
    destruct e; [apply H | plain].
Qed.

Hypothesis R_declare : forall name g, R g (declareVariable name g).
Hypothesis R_mark : forall g, R g (markInitialized g).
Hypothesis R_begin : forall g, R g (beginScope g).
Hypothesis R_end : forall g, R g (endScope g).
Hypothesis R_jump : forall op g, In op jump_opcodes -> R g (emitJump op g).
Hypothesis R_loop : forall start g, R g (emitLoop start g).
Hypothesis R_patch : forall op offset g,
  In op jump_opcodes ->
  at_index (code (m_chunk g)) offset = Some (mkInstruction op 255 VNil) ->
  R g (patchJump offset g).

Ltac jump := apply R_jump; unfold jump_opcodes; simpl; tauto.

Lemma steps_compileStmt s : forall g, R g (compileStmt s g).
Proof.
  destruct s as [s|]; [|intros g; apply R_refl].
  induction s using Stmt_tree_ind; intros g.
  - simpl. eapply R_trans; [apply steps_compileExpr | plain].
  - rewrite compileStmt_Let.
    eapply R_trans; [apply R_declare|].
    eapply R_trans; [apply steps_compileExpr | apply R_mark].
  - simpl; unfold compileFunctionStmt.
    eapply R_trans; [apply R_declare|].
    eapply R_trans; [apply R_mark | plain].
  - rewrite (JumpFacts.if_final g c t e).
    eapply R_trans;
      [|apply (R_patch OP_JUMP);
        [unfold jump_opcodes; simpl; tauto | apply JumpFacts.if_else_placeholder]].
    eapply R_trans; [|destruct e; [apply H0 | apply R_refl]].
    eapply R_trans;
      [|apply (R_patch OP_JUMP_IF_FALSE);
        [unfold jump_opcodes; simpl; tauto | apply JumpFacts.if_then_placeholder]].
    eapply R_trans; [|jump].
    eapply R_trans; [|destruct t; [apply H | apply R_refl]].
    eapply R_trans; [apply steps_compileExpr | jump].
  - rewrite (JumpFacts.while_final g c b).
    eapply R_trans;
      [|apply (R_patch OP_JUMP_IF_FALSE); [unfold jump_opcodes; simpl; tauto|]].
    + eapply R_trans; [|apply R_loop].
      eapply R_trans; [|destruct b; [apply H | apply R_refl]].
      eapply R_trans; [apply steps_compileExpr | jump].
    + eapply extends_at_index; [apply extends_emitLoop|].
      apply JumpFacts.while_placeholder.
  - rewrite compileStmt_Return.
    eapply R_trans; [apply steps_compileExpr | plain].
  - simpl. eapply R_trans; [apply steps_compileExpr | plain].
  - rewrite compileStmt_Block.
    eapply R_trans; [apply R_begin|].
    eapply R_trans; [|apply R_end].
    apply (walk_fold_left R R_refl R_trans compileStmt).
    eapply Forall_impl; [|exact H].
    intros [a|] Ha g'; [apply Ha | apply R_refl].
Qed.

(** [IRGenerator::compile] from its starting state. *)
Lemma steps_compile program : forall g,
  R g (match compile_loop program g with
       | inr g1 => g1
       | inl g1 => emitByte OP_RETURN 0 (endScope g1)
       end).
Proof.
  induction program as [|s rest IH]; intros g; simpl.
  - eapply R_trans; [apply R_end | plain].
  - destruct (m_hadError (compileStmt s g)) eqn:Herr.
    + apply steps_compileStmt.
    + eapply R_trans; [apply steps_compileStmt | apply IH].
Qed.

End Steps.

End LoweringSteps.

Module ChunkFacts.
Import IRGen IRGenFacts CodeFacts.

Lemma to_u8_byte z : 0 <= to_u8 z <= 255.
Proof. unfold to_u8. pose proof (Z.mod_pos_bound z 256 ltac:(lia)). lia. Qed.

Lemma to_u8_le z : 0 <= z -> to_u8 z <= z.
Proof. intros H. unfold to_u8. apply Z.mod_le; lia. Qed.

Lemma write_ok op x c :
  In op emitted_opcodes -> 0 <= x <= 255 -> op <> OP_CONSTANT ->
  well_formed c -> well_formed (ChunkOps.write op 0 x c).
Proof.
  intros Hop Hx Hne [Hl Hc]. split.
  - unfold size in *. simpl. rewrite !length_app. simpl. lia.
  - simpl. apply Forall_app. split; [exact Hc|].
    constructor; [|constructor]. repeat split; simpl; auto; try lia.
    intros E. contradiction.
Qed.

Lemma emitByte_ok op x g :
  In op emitted_opcodes -> 0 <= x <= 255 -> op <> OP_CONSTANT ->
  well_formed (m_chunk g) -> well_formed (m_chunk (emitByte op x g)).
Proof. intros. simpl. apply write_ok; assumption. Qed.

Lemma writeConstant_ok v c :
  well_formed c -> well_formed (ChunkOps.writeConstant v 0 c).
Proof.
  intros [Hl Hc]. unfold ChunkOps.writeConstant, ChunkOps.addConstant, ChunkOps.write.
  cbn [code lines constants].
  assert (S1 : size (constants c ++ [v]) = size (constants c) + 1).
  { unfold size. rewrite length_app. simpl. lia. }
  assert (S0 : 0 <= size (constants c)) by (unfold size; lia).
  rewrite S1, size_t_sub_exact by lia.
  split.
  - unfold size in *. cbn [code lines]. rewrite !length_app. simpl. lia.
  - cbn [code constants]. rewrite S1. apply Forall_app. split.
    + eapply Forall_impl; [|exact Hc].
      intros i (H1 & H2 & H3). repeat split; auto; try lia.
      intros E. specialize (H3 E). lia.
    + constructor; [|constructor]. split; [|split]; cbn [opcode operand].
      * unfold emitted_opcodes. simpl. tauto.
      * replace (size (constants c) + 1 - 1) with (size (constants c)) by lia.
        apply to_u8_byte.
      * intros _. replace (size (constants c) + 1 - 1) with (size (constants c)) by lia.
        pose proof (to_u8_le _ S0). lia.
Qed.

Lemma endScope_loop_ok fuel : forall g,
  well_formed (m_chunk g) -> well_formed (m_chunk (endScope_loop fuel g)).
Proof.
  induction fuel as [|k IH]; intros g H; simpl; [exact H|].
  destruct (back (m_locals g)); [|exact H].
  destruct (m_scopeDepth g <? depth l); [|exact H].
  cbv zeta. apply IH. cbn [m_chunk with_locals].
  apply emitByte_ok; [unfold emitted_opcodes; simpl; tauto | lia | discriminate | exact H].
Qed.

Lemma set_operand_ok n l : forall k v,
  0 <= v <= 255 ->
  (forall i, nth_error l k = Some i -> opcode i <> OP_CONSTANT) ->
  Forall (instruction_ok n) l -> Forall (instruction_ok n) (set_operand l k v).
Proof.
  induction l as [|x l IH]; intros k v Hv Hk H; [destruct k; constructor|].
  inversion H as [|? ? Hx Hl]; subst.
  destruct k as [|k]; simpl.
  - constructor; [|exact Hl]. destruct Hx as (H1 & H2 & H3).
    repeat split; simpl; auto; try lia.
    intros E. exfalso. apply (Hk x); [reflexivity | exact E].
  - constructor; [exact Hx|]. apply IH; auto.
Qed.

Lemma patchJump_ok op offset g :
  In op jump_opcodes ->
  at_index (code (m_chunk g)) offset = Some (mkInstruction op 255 VNil) ->
  well_formed (m_chunk g) -> well_formed (m_chunk (patchJump offset g)).
Proof.
  intros Hop Hat [Hl Hc]. unfold patchJump. cbv zeta.
  destruct (255 <? _); [split; assumption|].
  split; cbn [m_chunk with_chunk code lines constants].
  - unfold size in *. rewrite set_operand_length. exact Hl.
  - apply set_operand_ok; [apply to_u8_byte | | exact Hc].
    intros i Hi. unfold at_index in Hat.
    destruct (offset <? 0); [discriminate|].
    rewrite Hi in Hat. injection Hat as ->. simpl.
    unfold jump_opcodes in Hop. simpl in Hop.
    destruct Hop as [<-|[<-|[]]]; discriminate.
Qed.

(** Every step of the lowering keeps the chunk well formed. *)
Lemma compileStmt_ok s g :
  well_formed (m_chunk g) -> well_formed (m_chunk (compileStmt s g)).
Proof.
  revert g.
  apply (LoweringSteps.steps_compileStmt
           (fun g g' => well_formed (m_chunk g) -> well_formed (m_chunk g')));
    cbv beta.
  - auto.
  - auto.
  - intros op g Hop. apply emitByte_ok; [|lia|].
    + unfold emitted_opcodes. right. right. apply in_or_app. left. exact Hop.
    + unfold plain_opcodes in Hop. simpl in Hop.
      intros E. subst op. repeat (destruct Hop as [Hop|Hop]; [discriminate|]). exact Hop.
  - intros op z g Hop. apply emitByte_ok; [|apply to_u8_byte|].
    + unfold emitted_opcodes. right. right. apply in_or_app. right.
      apply in_or_app. left. exact Hop.
    + unfold operand_opcodes in Hop. simpl in Hop.
      intros E. subst op. repeat (destruct Hop as [Hop|Hop]; [discriminate|]). exact Hop.
  - auto.
  - intros v g _. apply writeConstant_ok.
  - intros name g. rewrite LocalsFacts.declareVariable_chunk. auto.
  - intros g. rewrite LocalsFacts.markInitialized_chunk. auto.
  - auto.
  - intros g H. unfold endScope. cbv zeta. apply endScope_loop_ok. exact H.
  - intros op g Hop. unfold emitJump. apply emitByte_ok; [|lia|].
    + unfold emitted_opcodes. right. right. apply in_or_app. right.
      apply in_or_app. right. exact Hop.
    + unfold jump_opcodes in Hop. simpl in Hop.
      intros E. subst op. repeat (destruct Hop as [Hop|Hop]; [discriminate|]). exact Hop.
  - intros start g H. unfold emitLoop. cbv zeta. destruct (255 <? _); [exact H|].
    apply emitByte_ok; [unfold emitted_opcodes; simpl; tauto | apply to_u8_byte
                       | discriminate | exact H].
  - intros op offset g. apply patchJump_ok.
Qed.

Lemma compile_loop_ok program : forall g,
  well_formed (m_chunk g) ->
  match compile_loop program g with
  | inl g1 => well_formed (m_chunk g1)
  | inr g1 => well_formed (m_chunk g1)
  end.
Proof.
  induction program as [|s rest IH]; intros g H; cbn [compile_loop]; [exact H|].
  pose proof (compileStmt_ok s g H) as H1.
  destruct (m_hadError (compileStmt s g)); [exact H1 | apply IH; exact H1].
Qed.

End ChunkFacts.

Module SafeRun.
Import VMOps.

Section WithLibrary.

Variable fmod : float -> float -> float.
Variable format_double : float -> string.

Lemma at_index_in {A} (l : list A) i x : at_index l i = Some x -> In x l.
Proof.
  unfold at_index. destruct (i <? 0); [discriminate|]. apply nth_error_In.
Qed.

Lemma at_index_below {A} (l : list A) i :
  0 <= i < size l -> exists x, at_index l i = Some x.
Proof.
  intros H. unfold at_index, size in *. destruct (Z.ltb_spec i 0); [lia|].
  destruct (nth_error l (Z.to_nat i)) eqn:N; [eauto|].
  apply nth_error_None in N. lia.
Qed.

(** One turn on a well-formed chunk. *)
Lemma step_expected chunk vm :
  well_formed chunk ->
  match step fmod format_double chunk vm with
  | Continue _ => True
  | Return r vm' => expected_outcome (Finished r vm')
  | Undefined _ => False
  end.
Proof.
  intros [_ Hc]. unfold step, readInstruction.
  destruct (size (code chunk) <=? m_ip vm); [exact I|].
  destruct (at_index (code chunk) (m_ip vm)) as [instr|] eqn:Hat; [|exact I].
  apply at_index_in in Hat. rewrite Forall_forall in Hc.
  destruct (Hc instr Hat) as (Hop & Hx & Hk).
  destruct instr as [op x cst]. cbn [opcode operand] in *.
  unfold emitted_opcodes, plain_opcodes, operand_opcodes, jump_opcodes in Hop.
  cbn [In app] in Hop.
  destruct vm as [stack ip err out]. cbn [m_stack m_ip m_error m_output with_ip].
  destruct op; try (exfalso; intuition discriminate); clear Hop Hat Hc.
  all: unfold numericBinary, pop, peek, push, runtimeError, with_stack, with_ip,
         expected_outcome, runtime_messages;
       cbn [In m_stack m_ip m_error m_output].
  all: try exact I.
  - destruct (at_index_below (constants chunk) x) as [v ->];
      [specialize (Hk eq_refl); lia | exact I].
  - destruct stack as [|[|?|?|?] [|[|?|?|?] ?]]; cbn; tauto.
  - destruct stack as [|[|?|?|?] [|[|?|?|?] ?]]; cbn; tauto.
  - destruct stack as [|[|?|?|?] [|[|?|?|?] ?]]; cbn; tauto.
  - destruct stack as [|[|?|?|?] [|[|?|?|?] ?]]; cbn;
      try match goal with |- context [if ?b then _ else _] => destruct b end; tauto.
  - destruct stack as [|[|?|?|?] [|[|?|?|?] ?]]; cbn;
      try match goal with |- context [if ?b then _ else _] => destruct b end; tauto.
  - destruct stack as [|[|?|?|?] ?]; cbn; tauto.
  - destruct stack as [|? [|? ?]]; cbn; exact I.
  - destruct stack as [|[|?|?|?] [|[|?|?|?] ?]]; cbn; tauto.
  - destruct stack as [|[|?|?|?] [|[|?|?|?] ?]]; cbn; tauto.
  - destruct stack as [|? ?]; cbn; exact I.
  - destruct stack as [|? [|? ?]]; cbn; exact I.
  - destruct stack as [|? [|? ?]]; cbn; exact I.
  - tauto.
  - tauto.
  - destruct stack as [|? ?]; cbn; exact I.
  - destruct (isFalsey _); exact I.
  - tauto.
  - destruct stack as [|? ?]; cbn; exact I.
Qed.

(** A run on a well-formed chunk. *)
Lemma run_expected fuel : forall chunk vm,
  well_formed chunk -> expected_outcome (run fmod format_double fuel chunk vm).
Proof.
  induction fuel as [|k IH]; intros chunk vm H; simpl; [exact I|].
  pose proof (step_expected chunk vm H) as S.
  destruct (step fmod format_double chunk vm) as [vm1|r vm1|vm1].
  - apply IH. exact H.
  - exact S.
  - contradiction.
Qed.

End WithLibrary.
End SafeRun.

(** X7. Whatever the program, the chunk [compile] returns is well formed:
    [lines] has one entry per instruction, every opcode is one the
    generator has an emitter for (never [OP_NOT_EQUAL], [OP_LESS_EQUAL],
    [OP_GREATER_EQUAL], [OP_GET_GLOBAL] or [OP_SET_GLOBAL]), every operand
    is a byte, and the operand of every [OP_CONSTANT] is an index of the
    constant pool. *)
Theorem compile_returns_a_well_formed_chunk :
  forall (program : Program) (g : IRGen.IRGenerator),
    well_formed (fst (IRGen.compile program g)).
Proof.
  intros program g. unfold IRGen.compile.
  pose proof (ChunkFacts.compile_loop_ok program (IRGen.beginScope (IRGen.reset g))) as H.
  destruct (IRGen.compile_loop program (IRGen.beginScope (IRGen.reset g))) as [g1|g1];
    cbn [fst].
  - apply ChunkFacts.emitByte_ok;
      [unfold emitted_opcodes; simpl; tauto | lia | discriminate|].
    unfold IRGen.endScope. cbv zeta. apply ChunkFacts.endScope_loop_ok.
    apply H. split; [reflexivity | constructor].
  - apply H. split; [reflexivity | constructor].
Qed.

(** X8. [interpret] on a chunk returned by [compile] never reads the
    constant pool out of range and never meets an opcode it does not know,
    however long it runs: when it returns, it returns [OK], or
    [RUNTIME_ERROR] with one of seven messages (operand types, division or
    modulo by zero, locals or calls not implemented). *)
Theorem interpret_is_safe_on_a_compiled_chunk :
  forall (fmod : float -> float -> float) (format_double : float -> string)
         (program : Program) (g : IRGen.IRGenerator) (fuel : nat) (vm : VMOps.VM),
    expected_outcome
      (VMOps.interpret fmod format_double fuel (fst (IRGen.compile program g)) vm).
Proof.
  intros fmod format_double program g fuel vm. unfold VMOps.interpret.
  apply SafeRun.run_expected. unfold IRGen.compile.
  pose proof (ChunkFacts.compile_loop_ok program (IRGen.beginScope (IRGen.reset g))) as H.
  assert (Start : well_formed (IRGen.m_chunk (IRGen.beginScope (IRGen.reset g))))
    by (split; [reflexivity | constructor]).
  destruct (IRGen.compile_loop program (IRGen.beginScope (IRGen.reset g))) as [g1|g1];
    cbn [fst]; [|exact (H Start)].
  apply ChunkFacts.emitByte_ok;
    [unfold emitted_opcodes; simpl; tauto | lia | discriminate|].
  unfold IRGen.endScope. cbv zeta. apply ChunkFacts.endScope_loop_ok. exact (H Start).
Qed.

Module MessageFacts.
Import IRGen IRGenFacts.

Lemma error_matches msg g : msg <> EmptyString -> flag_matches_message (error msg g).
Proof.
  intros H. unfold flag_matches_message. simpl.
  apply String.eqb_neq in H. rewrite H. reflexivity.
Qed.

Lemma compileStmt_matches s g :
  flag_matches_message g -> flag_matches_message (compileStmt s g).
Proof.
  revert g.
  apply (LoweringSteps.steps_compileStmt
           (fun g g' => flag_matches_message g -> flag_matches_message g'));
    cbv beta.
  - auto.
  - auto.
  - auto.
  - auto.
  - intros msg g Hmsg _. apply error_matches. exact Hmsg.
  - auto.
  - intros name g H. unfold declareVariable.
    destruct (m_scopeDepth g =? 0); [exact H|].
    destruct (declared_in_scope _ _ _); [|exact H].
    apply error_matches. simpl. discriminate.
  - intros g H. unfold flag_matches_message.
    destruct (ErrorFlag.markInitialized_flag g) as [-> ->]. exact H.
  - auto.
  - intros g H. unfold flag_matches_message.
    destruct (ErrorFlag.endScope_flag g) as [-> ->]. exact H.
  - auto.
  - intros start g H. unfold emitLoop. cbv zeta.
    destruct (255 <? _); [apply error_matches; discriminate | exact H].
  - intros op offset g _ _ H. unfold patchJump. cbv zeta.
    destruct (255 <? _); [apply error_matches; discriminate | exact H].
Qed.

Lemma compile_loop_matches program : forall g,
  flag_matches_message g ->
  match compile_loop program g with
  | inl g1 => flag_matches_message g1 /\ m_hadError g1 = m_hadError g
  | inr g1 => flag_matches_message g1 /\ m_hadError g1 = true
  end.
Proof.
  induction program as [|s rest IH]; intros g H; cbn [compile_loop]; [auto|].
  pose proof (compileStmt_matches s g H) as H1.
  destruct (m_hadError (compileStmt s g)) eqn:Herr; [auto|].
  pose proof (ErrorFlag.sticky_compileStmt s g) as St. unfold sticky in St.
  specialize (IH _ H1).
  destruct (compile_loop rest (compileStmt s g)); [|exact IH].
  destruct IH as [IH1 IH2]. split; [exact IH1|].
  rewrite IH2, Herr. destruct (m_hadError g); [specialize (St eq_refl); congruence | reflexivity].
Qed.

End MessageFacts.

(** X9. After [compile], [hadError()] is true exactly when [getError()] is
    not empty, for every program: every message the generator stores has
    text, and nothing else writes the message. The chunk ends in [OP_RETURN]
    exactly when no error was raised. *)
Theorem generator_flag_matches_its_message :
  forall (program : Program) (g : IRGen.IRGenerator),
    let chunk := fst (IRGen.compile program g) in
    let after := snd (IRGen.compile program g) in
    IRGen.m_hadError after = negb (String.eqb (IRGen.m_error after) EmptyString)
    /\ (IRGen.m_hadError after = false ->
        back (code chunk) = Some (mkInstruction OP_RETURN 0 VNil)).
Proof.
  intros program g. cbv zeta. unfold IRGen.compile.
  assert (Start : flag_matches_message (IRGen.beginScope (IRGen.reset g)))
    by reflexivity.
  pose proof (MessageFacts.compile_loop_matches program _ Start) as H.
  destruct (IRGen.compile_loop program (IRGen.beginScope (IRGen.reset g))) as [g1|g1];
    cbn [fst snd]; destruct H as [H1 H2].
  - split.
    + unfold flag_matches_message in H1. cbn [IRGen.emitByte IRGen.with_chunk IRGen.m_hadError IRGen.m_error].
      destruct (ErrorFlag.endScope_flag g1) as [-> ->]. exact H1.
    + intros _. cbn [IRGen.emitByte IRGen.with_chunk IRGen.m_chunk ChunkOps.write code].
      unfold back. rewrite map_app. cbn [map]. apply last_last.
  - split; [exact H1|]. intros Hf. congruence.
Qed.

(** ** Resolving a name *)

Module ResolveFacts.
Import IRGen.

Lemma to_int_small z : - 2 ^ 31 <= z < 2 ^ 31 -> to_int z = z.
Proof. intros H. unfold to_int. rewrite Z.mod_small; lia. Qed.

(** Below [2 ^ 31] locals the cast to [int] changes nothing: the scan
    starts at the last local. *)
Lemma resolveLocal_small name g :
  size (m_locals g) < 2 ^ 31 ->
  resolveLocal name g
  = resolve_from (rev (m_locals g)) (size (m_locals g) - 1) name.
Proof.
  intros H. unfold resolveLocal. cbv zeta.
  assert (S0 : 0 <= size (m_locals g)) by (unfold size; lia).
  rewrite to_int_small by lia.
  replace (Z.to_nat (size (m_locals g) - 1 + 1)) with (List.length (m_locals g))
    by (unfold size; lia).
  rewrite firstn_all. reflexivity.
Qed.

End ResolveFacts.

(** X10. With fewer than [2 ^ 31] locals (the [int] of its loop holds their
    number), [resolveLocal] answers the index of the last local of that
    name, the innermost declaration, and [-1] when no local has the name. *)
Theorem resolveLocal_finds_the_innermost_declaration :
  forall (name : string) (g : IRGen.IRGenerator),
    size (IRGen.m_locals g) < 2 ^ 31 ->
    let i := IRGen.resolveLocal name g in
    (i = -1 /\ Forall (fun x => local_name x <> name) (IRGen.m_locals g))
    \/ (0 <= i < size (IRGen.m_locals g)
        /\ (exists x, at_index (IRGen.m_locals g) i = Some x /\ local_name x = name)
        /\ forall j x, i < j -> at_index (IRGen.m_locals g) j = Some x ->
                       local_name x <> name).
Proof.
  intros name g Small. rewrite (ResolveFacts.resolveLocal_small name g Small).
  clear Small. generalize (IRGen.m_locals g). clear g.
  induction l as [|y l IH] using rev_ind; cbv zeta.
  - left. split; [reflexivity | constructor].
  - rewrite rev_app_distr. cbn [rev app IRGen.resolve_from].
    assert (Sz : size (l ++ [y]) = size l + 1).
    { unfold size. rewrite length_app. simpl. lia. }
    assert (S0 : 0 <= size l) by (unfold size; lia).
    rewrite Sz.
    assert (Last : at_index (l ++ [y]) (size l) = Some y).
    { unfold at_index, size. destruct (Z.ltb_spec (Z.of_nat (List.length l)) 0); [lia|].
      rewrite Nat2Z.id, nth_error_app2, Nat.sub_diag by lia. reflexivity. }
    assert (Old : forall j, j < size l -> at_index (l ++ [y]) j = at_index l j).
    { intros j Hj. unfold at_index, size in *. destruct (Z.ltb_spec j 0); [reflexivity|].
      apply nth_error_app1. lia. }
    assert (Beyond : forall j x, size l < j -> at_index (l ++ [y]) j = Some x -> False).
    { intros j x Hj Hat. unfold at_index, size in *.
      destruct (Z.ltb_spec j 0); [discriminate|].
      assert (Z.to_nat j < List.length (l ++ [y]))%nat
        by (apply nth_error_Some; congruence).
      rewrite length_app in *. simpl in *. lia. }
    destruct (String.eqb_spec (local_name y) name) as [Hy|Hy].
    + right. replace (size l + 1 - 1) with (size l) by lia.
      split; [lia|]. split; [exists y; auto|].
      intros j x Hj Hat. exfalso. eapply Beyond; eassumption.
    + replace (size l + 1 - 1 - 1) with (size l - 1) by lia.
      cbv zeta in IH. destruct IH as [[-> Hall] | (Hi & (x & Hx & Hn) & Hlater)].
      * left. split; [reflexivity|]. apply Forall_app. split; [exact Hall|].
        constructor; [exact Hy | constructor].
      * right. split; [lia|]. split.
        { exists x. rewrite Old by lia. auto. }
        intros j z Hj Hat.
        destruct (Z.lt_trichotomy j (size l)) as [Hlt|[->|Hgt]].
        -- rewrite Old in Hat by lia. eapply Hlater; eassumption.
        -- rewrite Last in Hat. injection Hat as <-. exact Hy.
        -- exfalso. eapply Beyond; eassumption.
Qed.

(** X10 (witness): three locals, of which the first and the last are called
    [x]: the last one is found. *)
Lemma resolveLocal_witness :
  let g := IRGen.mkIRGenerator empty_chunk
             [mkLocal "x" 1 false; mkLocal "y" 1 false; mkLocal "x" 2 false]
             2 false EmptyString in
  size (IRGen.m_locals g) < 2 ^ 31
  /\ IRGen.resolveLocal "x" g = 2
  /\ let i := IRGen.resolveLocal "x" g in
     (i = -1 /\ Forall (fun x => local_name x <> "x") (IRGen.m_locals g))
     \/ (0 <= i < size (IRGen.m_locals g)
         /\ (exists x, at_index (IRGen.m_locals g) i = Some x /\ local_name x = "x")
         /\ forall j x, i < j -> at_index (IRGen.m_locals g) j = Some x ->
                        local_name x <> "x").
Proof.
  cbv zeta.
  assert (H : size (IRGen.m_locals
                      (IRGen.mkIRGenerator empty_chunk
                         [mkLocal "x" 1 false; mkLocal "y" 1 false;
                          mkLocal "x" 2 false]
                         2 false EmptyString)) < 2 ^ 31) by (cbn; lia).
  split; [exact H|]. split; [reflexivity|].
  exact (resolveLocal_finds_the_innermost_declaration "x" _ H).
Defined.

Module InitializerFacts.
Import IRGen.


End InitializerFacts.



(** ** Where the jumps land *)

Module LandingFacts.
Import VMOps.

Section WithLibrary.

Variable fmod : float -> float -> float.
Variable format_double : float -> string.

Lemma size_t_add_exact a b : a + b < 2 ^ 64 -> size_t_add a b = a + b.
Proof. intros H. unfold size_t_add. destruct (Z.leb_spec (2 ^ 64) (a + b)); lia. Qed.

(** A turn at a conditional jump, a jump and a loop instruction. *)
Lemma step_jump_if_false chunk vm ip d :
  at_index (code chunk) ip = Some (mkInstruction OP_JUMP_IF_FALSE d VNil) ->
  0 <= d -> ip + 1 + d < 2 ^ 64 ->
  step fmod format_double chunk (with_ip ip vm)
  = Continue (with_ip (if isFalsey (peek vm) then ip + 1 + d else ip + 1) vm).
Proof.
  intros Hat Hd Hlt. unfold step.
  rewrite (VMFacts.readInstruction_at chunk (with_ip ip vm) _ Hat).
  cbn [opcode operand m_ip with_ip]. rewrite (size_t_add_exact ip 1) by lia.
  change (peek (with_ip (ip + 1) (with_ip ip vm))) with (peek vm).
  destruct (isFalsey (peek vm)); [rewrite size_t_add_exact by lia|]; reflexivity.
Qed.

Lemma step_jump chunk vm ip d :
  at_index (code chunk) ip = Some (mkInstruction OP_JUMP d VNil) ->
  0 <= d -> ip + 1 + d < 2 ^ 64 ->
  step fmod format_double chunk (with_ip ip vm) = Continue (with_ip (ip + 1 + d) vm).
Proof.
  intros Hat Hd Hlt. unfold step.
  rewrite (VMFacts.readInstruction_at chunk (with_ip ip vm) _ Hat).
  cbn [opcode operand m_ip with_ip]. rewrite (size_t_add_exact ip 1) by lia.
  rewrite size_t_add_exact by lia. reflexivity.
Qed.

Lemma step_loop chunk vm ip d :
  at_index (code chunk) ip = Some (mkInstruction OP_LOOP d VNil) ->
  0 <= d <= ip + 1 -> ip + 1 < 2 ^ 64 ->
  step fmod format_double chunk (with_ip ip vm) = Continue (with_ip (ip + 1 - d) vm).
Proof.
  intros Hat Hd Hlt. unfold step.
  rewrite (VMFacts.readInstruction_at chunk (with_ip ip vm) _ Hat).
  cbn [opcode operand m_ip with_ip]. rewrite (size_t_add_exact ip 1) by lia.
  rewrite CodeFacts.size_t_sub_exact by lia. reflexivity.
Qed.

End WithLibrary.
End LandingFacts.

(** X12. In the code of an [if] that compiled without error, the
    conditional jump after the condition lands, when the value on top of the
    stack is falsey, on the instruction after the [OP_JUMP] that ends the
    then-branch (the first instruction of the else-branch), and goes on into
    the then-branch otherwise; that [OP_JUMP] lands just after the
    statement. Neither turn pops the value of the condition. *)
Theorem if_jumps_land_on_the_branches :
  forall (fmod : float -> float -> float) (format_double : float -> string)
         (g : IRGen.IRGenerator) (c : option Expr) (t e : option Stmt)
         (vm : VMOps.VM),
    let g1 := IRGen.emitJump OP_JUMP_IF_FALSE (IRGen.compileExpr c g) in
    let g2 := IRGen.emitJump OP_JUMP (IRGen.compileStmt t g1) in
    let final := IRGen.compileStmt (Some (IfStmt c t e)) g in
    let chunk := IRGen.m_chunk final in
    let thenJump := size (code (IRGen.m_chunk g1)) - 1 in
    let elseJump := size (code (IRGen.m_chunk g2)) - 1 in
    IRGen.m_hadError final = false ->
    size (code chunk) < 2 ^ 64 ->
    VMOps.step fmod format_double chunk (VMOps.with_ip thenJump vm)
    = VMOps.Continue
        (VMOps.with_ip (if VMOps.isFalsey (VMOps.peek vm) then elseJump + 1
                        else thenJump + 1) vm)
    /\ VMOps.step fmod format_double chunk (VMOps.with_ip elseJump vm)
       = VMOps.Continue (VMOps.with_ip (size (code chunk)) vm).
Proof.
  intros fmod format_double g c t e vm g1 g2 final chunk thenJump elseJump Hok Hsize.
  pose (g2s := IRGen.compileStmt t g1).
  pose (g3 := IRGen.patchJump thenJump g2).
  pose (g4 := IRGen.compileStmt e g3).
  destruct (JumpFacts.if_sizes g c t) as (S1 & S2 & Hn & H0).
  destruct (JumpFacts.if_else_distance g c t e) as [Ho Hd].
  fold g1 g2 g2s thenJump elseJump g3 g4 in S1, S2, Hn, Ho, Hd.
  assert (Sf : size (code chunk) = size (code (IRGen.m_chunk g4))).
  { unfold chunk, final. rewrite (JumpFacts.if_final g c t e).
    apply CodeFacts.patchJump_size. }
  assert (Hm : 0 <= emitted g3 g4).
  { apply CodeFacts.extends_size. apply CodeFacts.extends_compileStmt. }
  assert (S3 : size (code (IRGen.m_chunk g3)) = size (code (IRGen.m_chunk g2)))
    by apply CodeFacts.patchJump_size.
  assert (Hthen : emitted g1 g2s <= 254).
  { destruct (Z.le_gt_cases (emitted g1 g2s) 254) as [H|H]; [exact H|].
    destruct (JumpFacts.if_then_long g c t e ltac:(fold g1 g2s; lia)) as (_ & Bad & _).
    fold final in Bad. congruence. }
  assert (Helse : emitted g3 g4 <= 255).
  { destruct (Z.le_gt_cases (emitted g3 g4) 255) as [H|H]; [exact H|].
    pose proof (JumpFacts.if_else_long g c t e ltac:(fold g1 g2 thenJump g3 g4; lia))
      as Bad.
    fold final in Bad. rewrite Bad in Hok. discriminate Hok. }
  destruct (JumpFacts.if_then_short g c t e Hthen) as (_ & _ & At1).
  destruct (JumpFacts.if_else_short g c t e Helse) as (_ & _ & At2).
  fold g1 g2 g2s thenJump elseJump g3 g4 final chunk in At1, At2.
  unfold emitted in *.
  split.
  - rewrite (LandingFacts.step_jump_if_false fmod format_double chunk vm thenJump _ At1)
      by (unfold thenJump; lia).
    replace (thenJump + 1 + (size (code (IRGen.m_chunk g2s))
                             - size (code (IRGen.m_chunk g1)) + 1))
      with (elseJump + 1) by (unfold thenJump, elseJump; lia).
    reflexivity.
  - rewrite (LandingFacts.step_jump fmod format_double chunk vm elseJump _ At2)
      by (unfold elseJump; lia).
    replace (elseJump + 1 + (size (code (IRGen.m_chunk g4))
                             - size (code (IRGen.m_chunk g3))))
      with (size (code chunk)) by (unfold elseJump; lia).
    reflexivity.
Qed.

(** X12 (witness): [if (true) ;] with no branch at all, at the start of a
    chunk: the code is [OP_TRUE], the conditional jump and the jump. *)
Lemma if_jumps_witness :
  let g := IRGen.new in
  let c := Some (LiteralExpr (LBool true)) in
  let g1 := IRGen.emitJump OP_JUMP_IF_FALSE (IRGen.compileExpr c g) in
  let g2 := IRGen.emitJump OP_JUMP (IRGen.compileStmt None g1) in
  let final := IRGen.compileStmt (Some (IfStmt c None None)) g in
  let chunk := IRGen.m_chunk final in
  let thenJump := size (code (IRGen.m_chunk g1)) - 1 in
  let elseJump := size (code (IRGen.m_chunk g2)) - 1 in
  IRGen.m_hadError final = false
  /\ size (code chunk) < 2 ^ 64
  /\ (VMOps.step Sample.fmod Sample.format_double chunk (VMOps.with_ip thenJump VMOps.new)
      = VMOps.Continue
          (VMOps.with_ip (if VMOps.isFalsey (VMOps.peek VMOps.new) then elseJump + 1
                          else thenJump + 1) VMOps.new)
      /\ VMOps.step Sample.fmod Sample.format_double chunk
           (VMOps.with_ip elseJump VMOps.new)
         = VMOps.Continue (VMOps.with_ip (size (code chunk)) VMOps.new)).
Proof.
  cbv zeta.
  assert (H1 : IRGen.m_hadError
                 (IRGen.compileStmt
                    (Some (IfStmt (Some (LiteralExpr (LBool true))) None None))
                    IRGen.new) = false) by reflexivity.
  assert (H2 : size (code (IRGen.m_chunk
                 (IRGen.compileStmt
                    (Some (IfStmt (Some (LiteralExpr (LBool true))) None None))
                    IRGen.new))) < 2 ^ 64) by reflexivity.
  split; [exact H1|]. split; [exact H2|].
  exact (if_jumps_land_on_the_branches Sample.fmod Sample.format_double IRGen.new
           (Some (LiteralExpr (LBool true))) None None VMOps.new H1 H2).
Defined.

(** X13. In the code of a [while] that compiled without error, the
    conditional jump after the condition lands just after the [OP_LOOP] when
    the value on top of the stack is falsey and goes on into the body
    otherwise, and the [OP_LOOP] that ends the body lands on the second
    instruction of the loop, one past the first instruction of the
    condition: [emitLoop] counts from the [OP_LOOP] itself, and the VM
    subtracts after it has stepped over it. *)
Theorem while_loop_lands_one_past_its_start :
  forall (fmod : float -> float -> float) (format_double : float -> string)
         (g : IRGen.IRGenerator) (c : option Expr) (b : option Stmt)
         (vm : VMOps.VM),
    let loopStart := size (code (IRGen.m_chunk g)) in
    let g1 := IRGen.emitJump OP_JUMP_IF_FALSE (IRGen.compileExpr c g) in
    let g2 := IRGen.compileStmt b g1 in
    let final := IRGen.compileStmt (Some (WhileStmt c b)) g in
    let chunk := IRGen.m_chunk final in
    let exitJump := size (code (IRGen.m_chunk g1)) - 1 in
    let loop := size (code (IRGen.m_chunk g2)) in
    IRGen.m_hadError final = false ->
    size (code chunk) < 2 ^ 64 ->
    size (code chunk) = loop + 1
    /\ VMOps.step fmod format_double chunk (VMOps.with_ip exitJump vm)
       = VMOps.Continue
           (VMOps.with_ip (if VMOps.isFalsey (VMOps.peek vm) then loop + 1
                           else exitJump + 1) vm)
    /\ VMOps.step fmod format_double chunk (VMOps.with_ip loop vm)
       = VMOps.Continue (VMOps.with_ip (loopStart + 1) vm).
Proof.
  intros fmod format_double g c b vm loopStart g1 g2 final chunk exitJump loop Hok Hsize.
  destruct (JumpFacts.while_sizes g c b) as (S1 & Hc & Hn & Hs & H0).
  fold g1 g2 in S1, Hn, Hs.
  assert (Hshort : emitted g g2 <= 255).
  { destruct (Z.le_gt_cases (emitted g g2) 255) as [H|H]; [exact H|].
    destruct (JumpFacts.while_long g c b ltac:(fold g1 g2; lia)) as (Bad & _).
    fold final in Bad. congruence. }
  destruct (JumpFacts.while_short g c b Hshort) as (_ & _ & At1 & At2).
  fold g1 g2 exitJump final chunk loop in At1, At2.
  assert (Sf : size (code chunk) = loop + 1).
  { unfold chunk, final. rewrite (JumpFacts.while_final g c b).
    rewrite CodeFacts.patchJump_size.
    rewrite (JumpFacts.while_loop_emitted g c b Hshort).
    apply CodeFacts.size_emitByte. }
  unfold emitted in *. fold loopStart loop in Hs, Hshort, Hc, Hn, At2.
  split; [exact Sf|]. split.
  - rewrite (LandingFacts.step_jump_if_false fmod format_double chunk vm exitJump _ At1)
      by (unfold exitJump; fold loop; lia).
    replace (exitJump + 1 + (size (code (IRGen.m_chunk g2))
                             - size (code (IRGen.m_chunk g1)) + 1))
      with (loop + 1) by (unfold exitJump, loop; lia).
    reflexivity.
  - rewrite (LandingFacts.step_loop fmod format_double chunk vm loop _ At2) by lia.
    replace (loop + 1 - (loop - loopStart)) with (loopStart + 1) by lia.
    reflexivity.
Qed.

(** X13 (witness): [while (true) ;] at the start of a chunk: [OP_TRUE], the
    conditional jump and [OP_LOOP 2], which lands on the conditional jump:
    the condition is not evaluated again. *)
Lemma while_loop_witness :
  let g := IRGen.new in
  let c := Some (LiteralExpr (LBool true)) in
  let loopStart := size (code (IRGen.m_chunk g)) in
  let g1 := IRGen.emitJump OP_JUMP_IF_FALSE (IRGen.compileExpr c g) in
  let g2 := IRGen.compileStmt None g1 in
  let final := IRGen.compileStmt (Some (WhileStmt c None)) g in
  let chunk := IRGen.m_chunk final in
  let exitJump := size (code (IRGen.m_chunk g1)) - 1 in
  let loop := size (code (IRGen.m_chunk g2)) in
  IRGen.m_hadError final = false
  /\ size (code chunk) < 2 ^ 64
  /\ loopStart + 1 = exitJump
  /\ (size (code chunk) = loop + 1
      /\ VMOps.step Sample.fmod Sample.format_double chunk
           (VMOps.with_ip exitJump VMOps.new)
         = VMOps.Continue
             (VMOps.with_ip (if VMOps.isFalsey (VMOps.peek VMOps.new) then loop + 1
                             else exitJump + 1) VMOps.new)
      /\ VMOps.step Sample.fmod Sample.format_double chunk (VMOps.with_ip loop VMOps.new)
         = VMOps.Continue (VMOps.with_ip (loopStart + 1) VMOps.new)).
Proof.
  cbv zeta.
  assert (H1 : IRGen.m_hadError
                 (IRGen.compileStmt
                    (Some (WhileStmt (Some (LiteralExpr (LBool true))) None))
                    IRGen.new) = false) by reflexivity.
  assert (H2 : size (code (IRGen.m_chunk
                 (IRGen.compileStmt
                    (Some (WhileStmt (Some (LiteralExpr (LBool true))) None))
                    IRGen.new))) < 2 ^ 64) by reflexivity.
  split; [exact H1|]. split; [exact H2|]. split; [reflexivity|].
  exact (while_loop_lands_one_past_its_start Sample.fmod Sample.format_double IRGen.new
           (Some (LiteralExpr (LBool true))) None VMOps.new H1 H2).
Defined.

(** ** The locals of a block *)

Module BlockFacts.
Import IRGen IRGenFacts ScopeFacts.

Lemma declares_refl g : declares_in_scope g g.
Proof.
  split; [reflexivity|]. exists []. split; [symmetry; apply app_nil_r | constructor].
Qed.

Lemma declares_trans g1 g2 g3 :
  declares_in_scope g1 g2 -> declares_in_scope g2 g3 -> declares_in_scope g1 g3.
Proof.
  intros (D1 & a1 & L1 & F1) (D2 & a2 & L2 & F2). split; [congruence|].
  exists (a1 ++ a2). split; [rewrite L2, L1; symmetry; apply app_assoc|].
  apply Forall_app. split; [exact F1|]. rewrite D1 in F2. exact F2.
Qed.

Lemma declares_same g g' :
  m_locals g' = m_locals g -> m_scopeDepth g' = m_scopeDepth g ->
  declares_in_scope g g'.
Proof.
  intros L D. split; [exact D|]. exists []. rewrite app_nil_r. split; [exact L | constructor].
Qed.

Lemma back_last {A} (l : list A) x : back (l ++ [x]) = Some x.
Proof. unfold back. rewrite map_app. cbn [map]. apply last_last. Qed.

Lemma set_back_depth_same l d :
  (forall x, back l = Some x -> depth x = d) -> set_back_depth l d = l.
Proof.
  destruct l as [|x l] using rev_ind; [reflexivity|]. intros H.
  rewrite LocalsFacts.set_back_depth_app.
  rewrite <- (H x (back_last l x)). destruct x; reflexivity.
Qed.

Lemma markInitialized_same g :
  (forall x, back (m_locals g) = Some x -> depth x = m_scopeDepth g) ->
  markInitialized g = g.
Proof.
  intros H. unfold markInitialized, with_locals.
  rewrite (set_back_depth_same _ _ H). destruct g as [ch l d he e].
  destruct l; reflexivity.
Qed.

Lemma declared_first rl d name :
  declared_in_scope rl d name = true ->
  exists it rest, rl = it :: rest /\ depth it = d.
Proof.
  destruct rl as [|it rest]; simpl; [discriminate|].
  destruct (Z.eqb_spec (depth it) d); [eauto | discriminate].
Qed.

(** After [declareVariable] at a depth that is not 0, the last local is one
    of the current depth: the new one, or the one that made it fail. *)
Lemma declareVariable_back name g :
  m_scopeDepth g <> 0 ->
  declares_in_scope g (declareVariable name g)
  /\ forall x, back (m_locals (declareVariable name g)) = Some x ->
               depth x = m_scopeDepth g.
Proof.
  intros Hd. unfold declareVariable.
  destruct (Z.eqb_spec (m_scopeDepth g) 0); [contradiction|].
  destruct (declared_in_scope _ _ _) eqn:E.
  - split; [apply declares_same; reflexivity|].
    cbn [error m_locals]. intros x Hx.
    destruct (declared_first _ _ _ E) as (it & rest & Hr & Hit).
    rewrite back_rev, Hr in Hx. injection Hx as <-. exact Hit.
  - split.
    + split; [reflexivity|]. eexists. split; [reflexivity|].
      constructor; [reflexivity | constructor].
    + cbn [with_locals m_locals]. intros x Hx. rewrite back_last in Hx.
      injection Hx as <-. reflexivity.
Qed.

(** [endScope]'s loop pops the locals deeper than the scope it returns to,
    and stops at the first one that is not. *)
Lemma endScope_loop_pops added : forall base g fuel,
  m_locals g = base ++ added ->
  Forall (fun l => m_scopeDepth g < depth l) added ->
  (forall x, back base = Some x -> depth x <= m_scopeDepth g) ->
  (List.length added <= fuel)%nat ->
  m_locals (endScope_loop fuel g) = base
  /\ m_scopeDepth (endScope_loop fuel g) = m_scopeDepth g
  /\ code (m_chunk (endScope_loop fuel g))
     = code (m_chunk g) ++ repeat (mkInstruction OP_POP 0 VNil) (List.length added).
Proof.
  induction added as [|x added IH] using rev_ind; intros base g fuel HL Hdeep Hbase Hf.
  - rewrite app_nil_r in HL. cbn [List.length repeat]. rewrite app_nil_r.
    destruct fuel as [|k]; cbn [endScope_loop]; [auto|].
    rewrite HL. destruct (back base) as [y|] eqn:B; [|rewrite <- HL; auto].
    specialize (Hbase y eq_refl).
    destruct (Z.ltb_spec (m_scopeDepth g) (depth y)); [lia|]. rewrite <- HL. auto.
  - rewrite length_app in *. cbn [List.length] in *.
    destruct fuel as [|k]; [lia|]. cbn [endScope_loop].
    rewrite HL, app_assoc, back_last.
    apply Forall_app in Hdeep. destruct Hdeep as [Hdeep Hx].
    inversion Hx as [|? ? Hx' _]; subst.
    destruct (Z.ltb_spec (m_scopeDepth g) (depth x)); [|lia].
    cbv zeta. cbn [m_locals emitByte with_chunk].
    rewrite HL, app_assoc. unfold pop_back. rewrite removelast_last.
    destruct (IH base (with_locals (base ++ added) (emitByte OP_POP 0 g)) k)
      as (A & B & C); [reflexivity | exact Hdeep | exact Hbase | lia|].
    split; [exact A|]. split; [exact B|].
    rewrite C. cbn [m_chunk with_locals emitByte with_chunk ChunkOps.write code].
    rewrite <- app_assoc. f_equal.
    replace (List.length added + 1)%nat with (S (List.length added)) by lia.
    reflexivity.
Qed.

(** What lowering the statements of a block one after the other does to the
    locals, when each of them only declares in its scope. *)
Lemma declares_fold stmts :
  Forall (fun s => forall g, locals_ordered g -> m_scopeDepth g <> 0 ->
                             m_scopeDepth g + ptr_nesting s < 2 ^ 64 ->
                             declares_in_scope g (compileStmt s g)) stmts ->
  forall g, locals_ordered g -> m_scopeDepth g <> 0 ->
    m_scopeDepth g + fold_right (fun p n => Z.max (ptr_nesting p) n) 0 stmts < 2 ^ 64 ->
    declares_in_scope g (fold_left (fun g s => compileStmt s g) stmts g)
    /\ locals_ordered (fold_left (fun g s => compileStmt s g) stmts g).
Proof.
  induction 1 as [|s stmts Hs _ IH]; intros g Hg Hd Hn; cbn [fold_left].
  - split; [apply declares_refl | exact Hg].
  - cbn [fold_right] in Hn.
    pose proof (Hs g Hg Hd ltac:(lia)) as D1.
    destruct (ordered_compileStmt s g Hg ltac:(lia)) as [O1 E1].
    destruct (IH (compileStmt s g) O1) as [D2 O2]; [congruence | rewrite E1; lia|].
    split; [eapply declares_trans; eassumption | exact O2].
Qed.

Lemma ordered_back g x :
  locals_ordered g -> back (m_locals g) = Some x -> depth x <= m_scopeDepth g.
Proof.
  intros [Hd _] Hx. rewrite back_rev in Hx.
  destruct (rev (m_locals g)); [discriminate|]. injection Hx as ->.
  simpl in Hd. tauto.
Qed.

(** A block, given that its statements only declare in their scope. *)
Lemma block_restores stmts g :
  Forall (fun s => forall g, locals_ordered g -> m_scopeDepth g <> 0 ->
                             m_scopeDepth g + ptr_nesting s < 2 ^ 64 ->
                             declares_in_scope g (compileStmt s g)) stmts ->
  locals_ordered g ->
  m_scopeDepth g + ptr_nesting (Some (BlockStmt stmts)) < 2 ^ 64 ->
  let inner := fold_left (fun g s => compileStmt s g) stmts (beginScope g) in
  m_locals (compileStmt (Some (BlockStmt stmts)) g) = m_locals g
  /\ m_scopeDepth (compileStmt (Some (BlockStmt stmts)) g) = m_scopeDepth g
  /\ exists added,
       m_locals inner = m_locals g ++ added
       /\ code (m_chunk (compileStmt (Some (BlockStmt stmts)) g))
          = code (m_chunk inner)
            ++ repeat (mkInstruction OP_POP 0 VNil) (List.length added).
Proof.
  intros Hs Hg Hn inner. rewrite compileStmt_Block. fold inner.
  change (ptr_nesting (Some (BlockStmt stmts)))
    with (1 + fold_right (fun p n => Z.max (ptr_nesting p) n) 0 stmts) in Hn.
  assert (N : 0 <= fold_right (fun p n => Z.max (ptr_nesting p) n) 0 stmts).
  { clear. induction stmts; simpl; lia. }
  destruct (ordered_beginScope g Hg) as [G1 D1]; [lia|].
  assert (Hpos : 0 <= m_scopeDepth g) by (destruct Hg; lia).
  destruct (declares_fold stmts Hs (beginScope g) G1) as [(D2 & added & L2 & F2) O2];
    [lia | rewrite D1; lia|].
  fold inner in D2, L2, O2.
  unfold endScope. cbv zeta.
  rewrite D2, D1, CodeFacts.size_t_sub_exact by lia.
  replace (m_scopeDepth g + 1 - 1) with (m_scopeDepth g) by lia.
  destruct (endScope_loop_pops added (m_locals g)
              (with_scopeDepth (m_scopeDepth g) inner)
              (List.length (m_locals (with_scopeDepth (m_scopeDepth g) inner))))
    as (R1 & R2 & R3).
  - exact L2.
  - eapply Forall_impl; [|exact F2]. intros l Hl. cbn [m_scopeDepth with_scopeDepth].
    rewrite Hl, D1. lia.
  - intros x Hx. cbn [m_scopeDepth with_scopeDepth]. apply (ordered_back g x Hg Hx).
  - cbn [m_locals with_scopeDepth]. rewrite L2, length_app. lia.
  - split; [exact R1|]. split; [exact R2|]. exists added. split; [exact L2 | exact R3].
Qed.

(** Every statement only declares in its scope. *)
Lemma declares_compileStmt s : forall g,
  locals_ordered g -> m_scopeDepth g <> 0 ->
  m_scopeDepth g + ptr_nesting s < 2 ^ 64 ->
  declares_in_scope g (compileStmt s g).
Proof.
  destruct s as [s|]; [|intros; apply declares_refl].
  induction s using Stmt_tree_ind; intros g Hg Hd Hn.
  - cbn [compileStmt compileStmtNode]. destruct (compileExpr_scope e g).
    apply declares_same; assumption.
  - rewrite compileStmt_Let.
    destruct (declareVariable_back (lexeme name) g Hd) as [D1 B1].
    destruct (compileExpr_scope init (declareVariable (lexeme name) g)) as [L2 S2].
    rewrite markInitialized_same.
    + eapply declares_trans; [exact D1 | apply declares_same; assumption].
    + rewrite L2, S2. destruct D1 as [-> _]. exact B1.
  - cbn [compileStmt compileStmtNode]. unfold compileFunctionStmt.
    destruct (declareVariable_back (lexeme name) g Hd) as [D1 B1].
    rewrite markInitialized_same.
    + eapply declares_trans; [exact D1 | apply declares_same; reflexivity].
    + destruct D1 as [-> _]. exact B1.
  - rewrite compileStmt_If. cbv zeta. simpl in Hn.
    fold (ptr_nesting t) (ptr_nesting e) in Hn.
    set (g1 := emitJump OP_JUMP_IF_FALSE (compileExpr c g)).
    destruct (compileExpr_scope c g) as [L0 S0].
    assert (Dg1 : m_scopeDepth g1 = m_scopeDepth g) by exact S0.
    assert (O1 : locals_ordered g1) by (apply (ordered_same_scope g); assumption).
    assert (D1 : declares_in_scope g g1) by (apply declares_same; assumption).
    assert (T : declares_in_scope g1 (compileStmt t g1)).
    { destruct t as [t|]; [|apply declares_refl].
      apply H; [exact O1 | congruence | rewrite Dg1; lia]. }
    destruct (ordered_compileStmt t g1 O1) as [O2 E2]; [rewrite Dg1; lia|].
    set (g2 := emitJump OP_JUMP (compileStmt t g1)) in *.
    match goal with
    | |- context [compileStmt e ?x] => set (g3 := x)
    end.
    destruct (patchJump_scope (size_t_sub (size (code (m_chunk g1))) 1) g2) as [L3 S3].
    fold g3 in L3, S3.
    assert (O3 : locals_ordered g3).
    { apply (ordered_same_scope (compileStmt t g1)); [exact L3 | exact S3 | exact O2]. }
    assert (D3 : declares_in_scope (compileStmt t g1) g3)
      by (apply declares_same; assumption).
    assert (Dep3 : m_scopeDepth g3 = m_scopeDepth g).
    { rewrite S3. unfold g2. cbn [emitJump with_chunk m_scopeDepth].
      rewrite E2. exact Dg1. }
    assert (El : declares_in_scope g3 (compileStmt e g3)).
    { destruct e as [e|]; [|apply declares_refl].
      apply H0; [exact O3 | congruence | rewrite Dep3; lia]. }
    match goal with
    | |- context [patchJump ?o ?x] => destruct (patchJump_scope o x) as [L5 S5]
    end.
    eapply declares_trans; [exact D1|].
    eapply declares_trans; [exact T|].
    eapply declares_trans; [exact D3|].
    eapply declares_trans; [exact El|].
    apply declares_same; assumption.
  - rewrite compileStmt_While. cbv zeta. simpl in Hn.
    fold (ptr_nesting b) in Hn.
    set (g1 := emitJump OP_JUMP_IF_FALSE (compileExpr c g)).
    destruct (compileExpr_scope c g) as [L0 S0].
    assert (Dg1 : m_scopeDepth g1 = m_scopeDepth g) by exact S0.
    assert (O1 : locals_ordered g1) by (apply (ordered_same_scope g); assumption).
    assert (D1 : declares_in_scope g g1) by (apply declares_same; assumption).
    assert (B : declares_in_scope g1 (compileStmt b g1)).
    { destruct b as [b|]; [|apply declares_refl].
      apply H; [exact O1 | congruence | rewrite Dg1; lia]. }
    destruct (emitLoop_scope (size (code (m_chunk g))) (compileStmt b g1)) as [L3 S3].
    match goal with
    | |- context [patchJump ?o ?x] => destruct (patchJump_scope o x) as [L4 S4]
    end.
    eapply declares_trans; [exact D1|].
    eapply declares_trans; [exact B|].
    apply declares_same; congruence.
  - rewrite compileStmt_Return. destruct (compileExpr_scope v g).
    apply declares_same; assumption.
  - cbn [compileStmt compileStmtNode]. destruct (compileExpr_scope e g).
    apply declares_same; assumption.
  - destruct (block_restores stmts g) as (R1 & R2 & _); [|exact Hg | exact Hn|].
    + eapply Forall_impl; [|exact H].
      intros [a|] Ha g' Hg' Hd' Hn'; [apply Ha; assumption | apply declares_refl].
    + apply declares_same; assumption.
Qed.

End BlockFacts.

(** X14. Under the ordering of the locals that every state of a compile has,
    every statement leaves the scope depth as it found it and removes no
    local: it only adds locals, of the current depth. A block leaves the
    locals exactly as it found them: its [endScope] emits one [OP_POP] for
    each local declared in the block and removes it. *)
Theorem block_pops_the_locals_it_declared :
  forall (stmts : list (option Stmt)) (g : IRGen.IRGenerator),
    locals_ordered g ->
    IRGen.m_scopeDepth g + ptr_nesting (Some (BlockStmt stmts)) < 2 ^ 64 ->
    let inner :=
      fold_left (fun g s => IRGen.compileStmt s g) stmts (IRGen.beginScope g) in
    let after := IRGen.compileStmt (Some (BlockStmt stmts)) g in
    IRGen.m_locals after = IRGen.m_locals g
    /\ IRGen.m_scopeDepth after = IRGen.m_scopeDepth g
    /\ (exists added,
          IRGen.m_locals inner = IRGen.m_locals g ++ added
          /\ Forall (fun l => depth l = IRGen.m_scopeDepth g + 1) added
          /\ code (IRGen.m_chunk after)
             = code (IRGen.m_chunk inner)
               ++ repeat (mkInstruction OP_POP 0 VNil) (List.length added)).
Proof.
  intros stmts g Hg Hn inner after.
  assert (Each : Forall (fun s => forall g, locals_ordered g ->
                           IRGen.m_scopeDepth g <> 0 ->
                           IRGen.m_scopeDepth g + ptr_nesting s < 2 ^ 64 ->
                           declares_in_scope g (IRGen.compileStmt s g)) stmts).
  { apply Forall_forall. intros s _. apply BlockFacts.declares_compileStmt. }
  destruct (BlockFacts.block_restores stmts g Each Hg Hn) as (R1 & R2 & added & L & C).
  fold inner after in R1, R2, L, C.
  split; [exact R1|]. split; [exact R2|]. exists added.
  split; [exact L|]. split; [|exact C].
  change (ptr_nesting (Some (BlockStmt stmts)))
    with (1 + fold_right (fun p n => Z.max (ptr_nesting p) n) 0 stmts) in Hn.
  assert (N : 0 <= fold_right (fun p n => Z.max (ptr_nesting p) n) 0 stmts).
  { clear. induction stmts; simpl; lia. }
  destruct (ScopeFacts.ordered_beginScope g Hg) as [G1 D1]; [lia|].
  assert (Hpos : 0 <= IRGen.m_scopeDepth g) by (destruct Hg; lia).
  destruct (BlockFacts.declares_fold stmts Each (IRGen.beginScope g) G1)
    as [(_ & added' & L' & F') _]; [lia | rewrite D1; lia|].
  fold inner in L'. rewrite L in L'. apply app_inv_head in L'. subst added'.
  rewrite D1 in F'. exact F'.
Qed.

(** X14 (witness): the block [{ let y; }] after a top-level [x]. *)
Lemma block_pops_witness :
  let y := mkToken TokenType.IDENTIFIER "y" 1 1 LitNone in
  let stmts := [Some (LetStmt y None)] in
  let g := IRGen.mkIRGenerator empty_chunk [mkLocal "x" 1 false] 1 false EmptyString in
  let inner :=
    fold_left (fun g s => IRGen.compileStmt s g) stmts (IRGen.beginScope g) in
  let after := IRGen.compileStmt (Some (BlockStmt stmts)) g in
  locals_ordered g
  /\ IRGen.m_scopeDepth g + ptr_nesting (Some (BlockStmt stmts)) < 2 ^ 64
  /\ (IRGen.m_locals after = IRGen.m_locals g
      /\ IRGen.m_scopeDepth after = IRGen.m_scopeDepth g
      /\ (exists added,
            IRGen.m_locals inner = IRGen.m_locals g ++ added
            /\ Forall (fun l => depth l = IRGen.m_scopeDepth g + 1) added
            /\ code (IRGen.m_chunk after)
               = code (IRGen.m_chunk inner)
                 ++ repeat (mkInstruction OP_POP 0 VNil) (List.length added))).
Proof.
  cbv zeta.
  assert (H1 : locals_ordered
                 (IRGen.mkIRGenerator empty_chunk [mkLocal "x" 1 false] 1 false
                                      EmptyString)).
  { unfold locals_ordered. simpl. lia. }
  assert (H2 : IRGen.m_scopeDepth
                 (IRGen.mkIRGenerator empty_chunk [mkLocal "x" 1 false] 1 false
                                      EmptyString)
               + ptr_nesting
                   (Some (BlockStmt
                            [Some (LetStmt (mkToken TokenType.IDENTIFIER "y" 1 1 LitNone)
                                           None)]))
               < 2 ^ 64) by reflexivity.
  split; [exact H1|]. split; [exact H2|].
  exact (block_pops_the_locals_it_declared
           [Some (LetStmt (mkToken TokenType.IDENTIFIER "y" 1 1 LitNone) None)]
           (IRGen.mkIRGenerator empty_chunk [mkLocal "x" 1 false] 1 false EmptyString)
           H1 H2).
Defined.

(** ** A run without a loop *)

Module ForwardRun.
Import VMOps.

Section WithLibrary.

Variable fmod : float -> float -> float.
Variable format_double : float -> string.

Lemma pop_ip vm : m_ip (snd (pop vm)) = m_ip vm.
Proof. unfold pop. destruct (m_stack vm); reflexivity. Qed.

(** Apart from [OP_LOOP], a turn that goes on moves the pointer forward. *)
Lemma step_forward chunk vm vm1 :
  well_formed chunk ->
  Forall (fun i => opcode i <> OP_LOOP) (code chunk) ->
  0 <= m_ip vm -> size (code chunk) + 256 < 2 ^ 64 ->
  step fmod format_double chunk vm = Continue vm1 ->
  m_ip vm < m_ip vm1.
Proof.
  intros [_ Hc] Hl Hip Hsize. unfold step, readInstruction.
  destruct (Z.leb_spec (size (code chunk)) (m_ip vm)); [discriminate|].
  destruct (at_index (code chunk) (m_ip vm)) as [instr|] eqn:Hat; [|discriminate].
  apply SafeRun.at_index_in in Hat. rewrite Forall_forall in Hc, Hl.
  destruct (Hc instr Hat) as (_ & Hx & _). specialize (Hl instr Hat).
  destruct instr as [op x cst]. cbn [opcode operand] in *.
  assert (A1 : size_t_add (m_ip vm) 1 = m_ip vm + 1)
    by (apply LandingFacts.size_t_add_exact; lia).
  assert (A2 : size_t_add (m_ip vm + 1) x = m_ip vm + 1 + x)
    by (apply LandingFacts.size_t_add_exact; lia).
  rewrite A1. clear Hc Hat A1.
  set (vm0 := with_ip (m_ip vm + 1) vm).
  assert (I0 : m_ip vm0 = m_ip vm + 1) by reflexivity.
  clearbody vm0.
  destruct op; try contradiction; unfold numericBinary.
  all: repeat match goal with
           | |- context [pop ?v] =>
               let E := fresh "E" in
               let a := fresh "a" in
               let w := fresh "w" in
               pose proof (pop_ip v) as E; destruct (pop v) as [a w];
               cbn [snd] in E
           end.
  all: repeat match goal with
           | |- context [match ?v with VNil => _ | _ => _ end] => destruct v
           | |- context [if ?b then _ else _] => destruct b
           | |- context [match ?o with Some _ => _ | None => _ end] => destruct o
           end.
  all: try discriminate.
  all: intros [= <-].
  all: cbn [m_ip push with_stack with_ip]; try rewrite I0; try rewrite A2; lia.
Qed.

(** With no [OP_LOOP], a run ends within one turn per instruction left,
    and one more. *)
Lemma run_forward chunk fuel : forall vm,
  well_formed chunk ->
  Forall (fun i => opcode i <> OP_LOOP) (code chunk) ->
  0 <= m_ip vm -> size (code chunk) + 256 < 2 ^ 64 ->
  (Z.to_nat (size (code chunk) - m_ip vm) < fuel)%nat ->
  exists r vm', run fmod format_double fuel chunk vm = Finished r vm'.
Proof.
  induction fuel as [|k IH]; intros vm Hw Hl Hip Hsize Hf; [lia|].
  cbn [run].
  pose proof (SafeRun.step_expected fmod format_double chunk vm Hw) as Hs.
  pose proof (step_forward chunk vm) as Hfw.
  destruct (step fmod format_double chunk vm) as [vm1|r vm1|vm1] eqn:E.
  - specialize (Hfw vm1 Hw Hl Hip Hsize eq_refl).
    apply IH; try assumption; [lia|].
    assert (m_ip vm < size (code chunk)).
    { unfold step, readInstruction in E.
      destruct (Z.leb_spec (size (code chunk)) (m_ip vm)); [discriminate | assumption]. }
    lia.
  - eauto.
  - contradiction.
Qed.

End WithLibrary.
End ForwardRun.

(** X15. On a well-formed chunk that holds no [OP_LOOP], [interpret]
    returns, within one turn per instruction and one more: every other
    instruction moves the instruction pointer forward, and reading past the
    end of the code is a return with [OK]. *)
Theorem interpret_returns_on_a_chunk_without_loop :
  forall (fmod : float -> float -> float) (format_double : float -> string)
         (chunk : Chunk) (vm : VMOps.VM),
    well_formed chunk ->
    Forall (fun i => opcode i <> OP_LOOP) (code chunk) ->
    size (code chunk) + 256 < 2 ^ 64 ->
    exists r vm',
      VMOps.interpret fmod format_double (S (List.length (code chunk))) chunk vm
      = VMOps.Finished r vm'.
Proof.
  intros fmod format_double chunk vm Hw Hl Hsize. unfold VMOps.interpret.
  apply ForwardRun.run_forward; try assumption.
  - cbn. lia.
  - cbn [VMOps.reset VMOps.m_ip]. unfold size. lia.
Qed.

(** X15 (witness): the three instructions that pop, push [true] and
    print. *)
Lemma interpret_returns_witness :
  well_formed Programs.pop_then_print
  /\ Forall (fun i => opcode i <> OP_LOOP) (code Programs.pop_then_print)
  /\ size (code Programs.pop_then_print) + 256 < 2 ^ 64
  /\ exists r vm',
       VMOps.interpret Sample.fmod Sample.format_double
         (S (List.length (code Programs.pop_then_print))) Programs.pop_then_print
         VMOps.new
       = VMOps.Finished r vm'.
Proof.
  assert (H1 : well_formed Programs.pop_then_print).
  { split; [reflexivity|].
    constructor; [|constructor; [|constructor; [|constructor]]];
      (split; [cbn; tauto | split; [cbn; lia | discriminate]]). }
  assert (H2 : Forall (fun i => opcode i <> OP_LOOP) (code Programs.pop_then_print)).
  { repeat constructor; discriminate. }
  assert (H3 : size (code Programs.pop_then_print) + 256 < 2 ^ 64) by reflexivity.
  split; [exact H1|]. split; [exact H2|]. split; [exact H3|].
  exact (interpret_returns_on_a_chunk_without_loop Sample.fmod Sample.format_double
           Programs.pop_then_print VMOps.new H1 H2 H3).
Defined.

(** ** Printing a number *)

Module StrFacts.
Import Str.

Lemma find_app c p q :
  find c p = None -> find c (String.append p (String c q)) = Some (String.length p).
Proof.
  induction p as [|a p IH]; cbn [find String.append String.length].
  - rewrite Ascii.eqb_refl. reflexivity.
  - destruct (Ascii.eqb a c); [discriminate|].
    destruct (find c p); [discriminate|]. intros _. rewrite IH; reflexivity.
Qed.

Lemma find_last_not_of_copies c k :
  find_last_not_of c (Sample.copies k (String c EmptyString)) = None.
Proof.
  induction k as [|k IH]; cbn [Sample.copies String.append find_last_not_of];
    [reflexivity|].
  rewrite IH, Ascii.eqb_refl. reflexivity.
Qed.

Lemma find_last_not_of_app c s a k :
  a <> c ->
  find_last_not_of c
    (String.append s (String a (Sample.copies k (String c EmptyString))))
  = Some (String.length s).
Proof.
  intros Ha. induction s as [|x s IH]; cbn [String.append find_last_not_of String.length].
  - rewrite find_last_not_of_copies.
    apply Ascii.eqb_neq in Ha. rewrite Ha. reflexivity.
  - rewrite IH. reflexivity.
Qed.

Lemma erase_app s t : erase (String.length s) (String.append s t) = s.
Proof.
  unfold erase. induction s as [|x s IH]; cbn [String.length String.append substring].
  - destruct t; reflexivity.
  - rewrite IH. reflexivity.
Qed.

Lemma back_app s a : back (String.append s (String a EmptyString)) = Some a.
Proof.
  induction s as [|x s IH]; cbn [String.append back]; [reflexivity|].
  destruct (String.append s (String a EmptyString)) eqn:E; [|exact IH].
  destruct s; discriminate.
Qed.

Lemma length_append s t :
  String.length (String.append s t) = (String.length s + String.length t)%nat.
Proof. induction s as [|x s IH]; cbn; [reflexivity | rewrite IH; reflexivity]. Qed.

Lemma append_assoc s t u :
  String.append (String.append s t) u = String.append s (String.append t u).
Proof. induction s as [|x s IH]; cbn; [reflexivity | rewrite IH; reflexivity]. Qed.

End StrFacts.

(** X16. When the text [std::format] gives for a number has a ['.'] and
    its last character other than ['0'] comes after it, [valueToString] cuts
    every ['0'] that follows, wherever that is: the zeros of a fraction, and
    also the final zeros of an exponent. *)
Theorem valueToString_cuts_the_final_zeros :
  forall (format_double : float -> string)
         (n : float) (p r : string) (c : ascii) (k : nat),
    format_double n
    = String.append p
        (String "." (String.append r
                       (String c (Sample.copies k (String "0" EmptyString))))) ->
    Str.find "." p = None ->
    c <> "0"%char -> c <> "."%char ->
    VMOps.valueToString format_double (VNumber n)
    = String.append p (String "." (String.append r (String c EmptyString))).
Proof.
  intros format_double n p r c k Hs Hp Hc0 Hcdot.
  cbn [VMOps.valueToString]. unfold VMOps.numberToString. cbv zeta. rewrite Hs.
  rewrite (StrFacts.find_app "." p _ Hp).
  set (zeros := Sample.copies k (String "0" EmptyString)).
  assert (E : String.append p (String "." (String.append r (String c zeros)))
              = String.append (String.append p (String "." r)) (String c zeros)).
  { rewrite StrFacts.append_assoc. reflexivity. }
  rewrite E. unfold zeros. rewrite (StrFacts.find_last_not_of_app "0" _ c k Hc0).
  rewrite StrFacts.length_append. cbn [String.length].
  destruct (Nat.ltb_spec (String.length p) (String.length p + S (String.length r)));
    [|lia].
  assert (Cut : Str.erase (S (String.length p + S (String.length r)))
                  (String.append (String.append p (String "." r))
                     (String c (Sample.copies k (String "0" EmptyString))))
                = String.append (String.append p (String "." r)) (String c EmptyString)).
  { assert (Eq2 : String.append (String.append p (String "." r))
                     (String c (Sample.copies k (String "0" EmptyString)))
                   = String.append
                       (String.append (String.append p (String "." r))
                                      (String c EmptyString))
                       (Sample.copies k (String "0" EmptyString))).
    { rewrite (StrFacts.append_assoc (String.append p (String "." r))). reflexivity. }
    rewrite Eq2.
    replace (S (String.length p + S (String.length r)))
      with (String.length (String.append (String.append p (String "." r))
                                          (String c EmptyString))).
    - apply StrFacts.erase_app.
    - rewrite !StrFacts.length_append. cbn [String.length]. lia. }
  rewrite Cut, StrFacts.back_app.
  assert (Keep : match c with
                 | "."%char => Str.pop_back
                     (String.append (String.append p (String "." r)) (String c EmptyString))
                 | _ => String.append (String.append p (String "." r)) (String c EmptyString)
                 end
                 = String.append (String.append p (String "." r)) (String c EmptyString)).
  { destruct c as [[|] [|] [|] [|] [|] [|] [|] [|]]; try reflexivity.
    contradiction Hcdot. reflexivity. }
  rewrite StrFacts.append_assoc in *. exact Keep.
Qed.

(** X16 (witness): if [std::format] writes 1.5e20 as [1.5e+20], it is
    printed as [1.5e+2]. *)
Lemma valueToString_cuts_witness :
  let format_double := fun _ : float => "1.5e+20" in
  format_double 150000000000000000000%float
  = String.append "1"
      (String "." (String.append "5e+"
                     (String "2" (Sample.copies 1 (String "0" EmptyString)))))
  /\ Str.find "." "1" = None
  /\ "2"%char <> "0"%char /\ "2"%char <> "."%char
  /\ VMOps.valueToString format_double (VNumber 150000000000000000000%float)
     = "1.5e+2".
Proof.
  cbv zeta.
  assert (H3 : "2"%char <> "0"%char) by discriminate.
  assert (H4 : "2"%char <> "."%char) by discriminate.
  split; [reflexivity|]. split; [reflexivity|]. split; [exact H3|]. split; [exact H4|].
  exact (valueToString_cuts_the_final_zeros (fun _ => "1.5e+20")
           150000000000000000000%float "1" "5e+" "2" 1 eq_refl eq_refl H3 H4).
Defined.

(** ** Names, equality, division and [Compiler::run] *)

(** X17. [typeString] tells the token types apart: two tokens have the same
    name exactly when they have the same type, and no token is named
    [UNKNOWN]. *)
Theorem typeString_tells_the_types_apart :
  forall (a b : Token),
    String.eqb (typeString a) (typeString b)
    = TokenType.eqb (tok_type a) (tok_type b)
    /\ String.eqb (typeString a) "UNKNOWN" = false.
Proof.
  intros a b. unfold typeString.
  destruct (tok_type a); (split; [destruct (tok_type b); reflexivity | reflexivity]).
Qed.

Module EqualFacts.

Lemma SFeqb_sym x y : SFeqb x y = SFeqb y x.
Proof.
  unfold SFeqb, SFcompare.
  destruct x as [[|]|[|]| |[|] mx ex], y as [[|]|[|]| |[|] my ey]; try reflexivity.
  - rewrite (Z.compare_antisym ex ey).
    change (Pos.compare_cont Eq my mx) with (Pos.compare_cont (CompOpp Eq) my mx).
    rewrite <- (Pos.compare_cont_antisym mx my Eq).
    destruct (ex ?= ey); cbn; try reflexivity.
    destruct (Pos.compare_cont Eq mx my); reflexivity.
  - rewrite (Z.compare_antisym ex ey).
    change (Pos.compare_cont Eq my mx) with (Pos.compare_cont (CompOpp Eq) my mx).
    rewrite <- (Pos.compare_cont_antisym mx my Eq).
    destruct (ex ?= ey); cbn; try reflexivity.
    destruct (Pos.compare_cont Eq mx my); reflexivity.
Qed.

Lemma eqb_sym (x y : float) : PrimFloat.eqb x y = PrimFloat.eqb y x.
Proof. rewrite !eqb_spec. apply SFeqb_sym. Qed.

Lemma eqb_nan (x : float) : Prim2SF x = S754_nan -> PrimFloat.eqb x x = false.
Proof. intros H. rewrite eqb_spec, H. reflexivity. Qed.

Lemma eqb_zero (y : float) s : Prim2SF y = S754_zero s -> PrimFloat.eqb y 0 = true.
Proof. intros H. rewrite eqb_spec, H. reflexivity. Qed.

Lemma eqb_zero_only (y : float) :
  PrimFloat.eqb y 0 = true -> exists s, Prim2SF y = S754_zero s.
Proof.
  rewrite eqb_spec. change (Prim2SF 0) with (S754_zero false).
  destruct (Prim2SF y) as [s|s| |s m e]; [eauto| | |];
    unfold SFeqb, SFcompare; try destruct s; discriminate.
Qed.

End EqualFacts.

(** X18. The comparison behind [==] and [!=] is symmetric; values of
    different types are never equal (the number 1 and the string "1" are
    not), and a number that is not a number is not equal to itself. *)
Theorem valuesEqual_is_symmetric_and_typed :
  forall (a b : Value),
    VMOps.valuesEqual a b = VMOps.valuesEqual b a
    /\ (value_type a <> value_type b -> VMOps.valuesEqual a b = false)
    /\ (forall n, Prim2SF n = S754_nan ->
                  VMOps.valuesEqual (VNumber n) (VNumber n) = false).
Proof.
  intros a b. split; [|split].
  - destruct a as [|x|x|x], b as [|y|y|y]; cbn [VMOps.valuesEqual]; try reflexivity.
    + destruct x, y; reflexivity.
    + apply EqualFacts.eqb_sym.
    + apply String.eqb_sym.
  - destruct a, b; cbn; intros H; try reflexivity; contradiction H; reflexivity.
  - intros n Hn. cbn [VMOps.valuesEqual]. apply EqualFacts.eqb_nan. exact Hn.
Qed.

(** The NaN of the kernel is such a number. *)
Example nan_is_not_equal_to_itself :
  VMOps.valuesEqual (VNumber nan) (VNumber nan) = false.
Proof. reflexivity. Qed.

(** X19. With two numbers on the stack, [OP_DIVIDE] and [OP_MODULO] stop
    with [RUNTIME_ERROR] and their message exactly when the divisor is a
    zero, positive or negative, whatever the dividend (0 / 0 included); for
    every other divisor, an infinity or a NaN included, they push the
    quotient or the remainder. Both operands are popped either way. *)
Theorem division_stops_exactly_at_a_zero_divisor :
  forall (fmod : float -> float -> float) (format_double : float -> string)
         (chunk : Chunk) (vm : VMOps.VM) (op : OpCode) (operand : Z) (cst : Value)
         (x y : float) (rest : list Value),
    In op [OP_DIVIDE; OP_MODULO] ->
    at_index (code chunk) (VMOps.m_ip vm) = Some (mkInstruction op operand cst) ->
    VMOps.m_stack vm = VNumber y :: VNumber x :: rest ->
    let next := size_t_add (VMOps.m_ip vm) 1 in
    ((exists s, Prim2SF y = S754_zero s) ->
     VMOps.step fmod format_double chunk vm
     = VMOps.Return InterpretResult.RUNTIME_ERROR
         (VMOps.mkVM rest next (zero_message op) (VMOps.m_output vm)))
    /\ (~ (exists s, Prim2SF y = S754_zero s) ->
        VMOps.step fmod format_double chunk vm
        = VMOps.Continue
            (VMOps.mkVM (VNumber (quotient fmod op x y) :: rest) next
                        (VMOps.m_error vm) (VMOps.m_output vm))).
Proof.
  intros fmod format_double chunk vm op operand cst x y rest Hop Hat Hstack next.
  assert (Step : VMOps.step fmod format_double chunk vm
                 = if PrimFloat.eqb y 0
                   then VMOps.Return InterpretResult.RUNTIME_ERROR
                          (VMOps.mkVM rest next (zero_message op) (VMOps.m_output vm))
                   else VMOps.Continue
                          (VMOps.mkVM (VNumber (quotient fmod op x y) :: rest) next
                                      (VMOps.m_error vm) (VMOps.m_output vm))).
  { unfold VMOps.step. rewrite (VMFacts.readInstruction_at chunk vm _ Hat).
    destruct vm as [stack ip err out]. cbn in Hstack. subst stack.
    destruct Hop as [<-|[<-|[]]]; cbn; destruct (PrimFloat.eqb y 0); reflexivity. }
  rewrite Step. split.
  - intros [s Hs]. rewrite (EqualFacts.eqb_zero y s Hs). reflexivity.
  - intros Hn. destruct (PrimFloat.eqb y 0) eqn:Hz; [|reflexivity].
    exfalso. apply Hn. apply EqualFacts.eqb_zero_only. exact Hz.
Qed.

(** X19 (witness): [1 / -0] at the start of a chunk. *)
Lemma division_witness :
  let chunk := mkChunk [mkInstruction OP_DIVIDE 0 VNil] [0] [] in
  let vm := VMOps.mkVM [VNumber (-0)%float; VNumber 1%float] 0 EmptyString [] in
  let next := size_t_add (VMOps.m_ip vm) 1 in
  In OP_DIVIDE [OP_DIVIDE; OP_MODULO]
  /\ at_index (code chunk) (VMOps.m_ip vm) = Some (mkInstruction OP_DIVIDE 0 VNil)
  /\ VMOps.m_stack vm = [VNumber (-0)%float; VNumber 1%float]
  /\ (exists s, Prim2SF (-0)%float = S754_zero s)
  /\ VMOps.step Sample.fmod Sample.format_double chunk vm
     = VMOps.Return InterpretResult.RUNTIME_ERROR
         (VMOps.mkVM [] next (zero_message OP_DIVIDE) (VMOps.m_output vm)).
Proof.
  cbv zeta.
  assert (H1 : In OP_DIVIDE [OP_DIVIDE; OP_MODULO]) by (left; reflexivity).
  assert (H4 : exists s, Prim2SF (-0)%float = S754_zero s)
    by (exists true; reflexivity).
  split; [exact H1|]. split; [reflexivity|]. split; [reflexivity|]. split; [exact H4|].
  exact (proj1 (division_stops_exactly_at_a_zero_divisor
                  Sample.fmod Sample.format_double
                  (mkChunk [mkInstruction OP_DIVIDE 0 VNil] [0] [])
                  (VMOps.mkVM [VNumber (-0)%float; VNumber 1%float] 0 EmptyString [])
                  OP_DIVIDE 0 VNil 1%float (-0)%float [] H1 eq_refl eq_refl) H4).
Defined.

Module RunFacts.

Lemma compile_matches program g :
  flag_matches_message (snd (IRGen.compile program g)).
Proof.
  unfold IRGen.compile.
  assert (Start : flag_matches_message (IRGen.beginScope (IRGen.reset g)))
    by reflexivity.
  pose proof (MessageFacts.compile_loop_matches program _ Start) as H.
  destruct (IRGen.compile_loop program (IRGen.beginScope (IRGen.reset g))) as [g1|g1];
    cbn [snd]; destruct H as [H1 _]; [|exact H1].
  unfold flag_matches_message in *.
  cbn [IRGen.emitByte IRGen.with_chunk IRGen.m_hadError IRGen.m_error].
  destruct (ErrorFlag.endScope_flag g1) as [-> ->]. exact H1.
Qed.

End RunFacts.

(** X20. [Compiler::run] on a source text does not return when the
    exception of [std::stod] leaves [tokenize]. Otherwise it returns
    [COMPILE_ERROR] exactly when the IR generator raised an error, with the
    generator's message and without touching the VM, and runs the chunk when
    it raised none. [hadError()] of the compiler, which tests the message,
    agrees with the generator's flag. *)
Theorem run_reports_a_compile_error_exactly_when_lowering_failed :
  forall (stod : string -> option float) (fmod : float -> float -> float)
         (format_double : float -> string) (fuel : nat) (source : string)
         (c : Compiler.State),
    match Lexer.tokenize stod (Lexer.new source) with
    | Some _ =>
        exists compiled c1 irgen,
          Compiler.compile stod source c = Some (compiled, c1)
          /\ Compiler.lowered compiled = Some irgen
          /\ Compiler.hadError c1 = IRGen.m_hadError irgen
          /\ Compiler.run stod fmod format_double fuel source c
             = Some (if IRGen.m_hadError irgen
                     then Compiler.Ran InterpretResult.COMPILE_ERROR
                            (Compiler.mkState (IRGen.m_error irgen)
                                              (Compiler.m_vm c))
                     else Compiler.runChunk fmod format_double fuel
                            (Compiler.chunk compiled)
                            (Compiler.mkState EmptyString (Compiler.m_vm c)))
    | None => Compiler.run stod fmod format_double fuel source c = None
    end.
Proof.
  intros stod fmod format_double fuel source c.
  unfold Compiler.run, Compiler.compile.
  destruct (Lexer.tokenize stod (Lexer.new source)) as [[tokens lx]|] eqn:T;
    [|reflexivity].
  rewrite (LexerFacts.tokenize_no_error stod _ _ _ T).
  destruct (first_eof tokens (LexerFacts.tokenize_has_eof stod _ _ _ T))
    as (E & Heof & Hfirst).
  destruct (ParserFacts.parse_ok tokens E Heof Hfirst) as (program & cerr & ->).
  pose proof (RunFacts.compile_matches program IRGen.new) as M.
  destruct (IRGen.compile program IRGen.new) as [chunk irgen]. cbn [snd] in M.
  unfold flag_matches_message in M.
  destruct (IRGen.m_hadError irgen) eqn:Herr.
  - do 2 eexists. exists irgen. split; [reflexivity|]. split; [reflexivity|].
    unfold Compiler.hadError. cbn [Compiler.m_error]. rewrite <- M, Herr.
    split; reflexivity.
  - do 2 eexists. exists irgen. split; [reflexivity|]. split; [reflexivity|].
    unfold Compiler.hadError. cbn [Compiler.m_error]. rewrite Herr.
    split; reflexivity.
Qed.

(** ** [compileExpression] *)

Module ExpressionFacts.
Import IRGen IRGenFacts.

Lemma sticky_compileExpr e g : sticky g (compileExpr e g).
Proof.
  revert g. apply walk_compileExpr; unfold sticky; intros; auto.
Qed.

Lemma sticky_fold args : forall g,
  sticky g (fold_left (fun g arg => compileExpr arg g) args g).
Proof.
  induction args as [|a args IH]; intros g H; simpl; [exact H|].
  apply IH. apply sticky_compileExpr. exact H.
Qed.

Lemma sticky_emitBinaryOp op g : sticky g (emitBinaryOp op g).
Proof. unfold sticky, emitBinaryOp. destruct (tok_type op); auto. Qed.

Lemma sticky_emitUnaryOp op g : sticky g (emitUnaryOp op g).
Proof. unfold sticky, emitUnaryOp. destruct (tok_type op); auto. Qed.

Lemma locals_fold args : forall g,
  m_locals (fold_left (fun g arg => compileExpr arg g) args g) = m_locals g.
Proof.
  induction args as [|a args IH]; intros g; simpl; [reflexivity|].
  rewrite IH. apply ScopeFacts.compileExpr_scope.
Qed.

Lemma no_local name g : m_locals g = [] -> resolveLocal name g = -1.
Proof. unfold resolveLocal. intros ->. reflexivity. Qed.

(** With no local declared, an expression that names a variable raises an
    error. *)
Lemma undefined_variable e : forall g,
  m_locals g = [] -> names_variable e = true -> m_hadError (compileExprNode e g) = true.
Proof.
  induction e using Expr_tree_ind; intros g Hl Hn;
    match goal with
    | |- m_hadError (compileExprNode ?x g) = true =>
        change (m_hadError (compileExpr (Some x) g) = true)
    end.
  - rewrite compileExpr_Binary. cbn [names_variable] in Hn.
    apply sticky_emitBinaryOp.
    apply orb_true_iff in Hn. destruct Hn as [Hn|Hn].
    + apply sticky_compileExpr. destruct l as [l|]; [|discriminate].
      apply H; assumption.
    + destruct r as [r|]; [|discriminate]. apply H0; [|exact Hn].
      rewrite (proj1 (ScopeFacts.compileExpr_scope l g)). exact Hl.
  - rewrite compileExpr_Unary. cbn [names_variable] in Hn.
    apply sticky_emitUnaryOp. destruct r as [r|]; [|discriminate].
    apply H; assumption.
  - discriminate Hn.
  - cbn [compileExpr compileExprNode]. unfold compileVariableExpr.
    rewrite (no_local _ _ Hl). reflexivity.
  - rewrite compileExpr_Assign. unfold emitAssign.
    rewrite no_local; [reflexivity|].
    rewrite (proj1 (ScopeFacts.compileExpr_scope v g)). exact Hl.
  - rewrite compileExpr_Call. cbn [names_variable] in Hn.
    cbn [emitByte with_chunk m_hadError].
    apply orb_true_iff in Hn. destruct Hn as [Hn|Hn].
    + apply sticky_fold. destruct callee as [c|]; [|discriminate].
      apply H; assumption.
    + assert (L : m_locals (compileExpr callee g) = [])
        by (rewrite (proj1 (ScopeFacts.compileExpr_scope callee g)); exact Hl).
      revert Hn L. generalize (compileExpr callee g).
      induction H0 as [|a args Ha _ IH]; intros g' Hn L; [discriminate|].
      cbn [existsb fold_left] in Hn |- *.
      apply orb_true_iff in Hn. destruct Hn as [Hn|Hn].
      * apply sticky_fold. destruct a as [a|]; [|discriminate].
        apply Ha; assumption.
      * apply IH; [exact Hn|].
        rewrite (proj1 (ScopeFacts.compileExpr_scope a g')). exact L.
  - rewrite compileExpr_Grouping. cbn [names_variable] in Hn.
    destruct e as [e|]; [|discriminate]. apply H; assumption.
Qed.

End ExpressionFacts.

(** X21. [compileExpression], the entry point for one expression: the chunk
    it returns is the code of the expression followed by [OP_RETURN], error
    or not, with no [OP_POP] in between, since an expression declares no
    local. As it starts without locals, every expression that reads or
    assigns a variable anywhere raises an error. *)
Theorem compileExpression_knows_no_variable :
  forall (expr : option Expr) (g : IRGen.IRGenerator),
    let lowered := IRGen.compileExpr expr (IRGen.beginScope (IRGen.reset g)) in
    let chunk := fst (IRGen.compileExpression expr g) in
    let after := snd (IRGen.compileExpression expr g) in
    code chunk = code (IRGen.m_chunk lowered) ++ [mkInstruction OP_RETURN 0 VNil]
    /\ IRGen.m_locals after = []
    /\ IRGen.m_scopeDepth after = 0
    /\ IRGen.m_hadError after = IRGen.m_hadError lowered
    /\ (ptr_names_variable expr = true -> IRGen.m_hadError after = true).
Proof.
  intros expr g lowered chunk after.
  destruct (ScopeFacts.compileExpr_scope expr (IRGen.beginScope (IRGen.reset g)))
    as [Hl Hd].
  fold lowered in Hl, Hd. cbn in Hl, Hd.
  assert (End : IRGen.endScope lowered = IRGen.with_scopeDepth 0 lowered).
  { unfold IRGen.endScope. cbv zeta.
    cbn [IRGen.with_scopeDepth IRGen.m_locals IRGen.m_scopeDepth].
    rewrite Hl, Hd. reflexivity. }
  assert (After : after = IRGen.emitByte OP_RETURN 0 (IRGen.with_scopeDepth 0 lowered)).
  { unfold after, IRGen.compileExpression. cbv zeta. cbn [snd].
    fold lowered. rewrite End. reflexivity. }
  assert (Chunk : chunk = IRGen.m_chunk after) by reflexivity.
  assert (Flag : IRGen.m_hadError after = IRGen.m_hadError lowered)
    by (rewrite After; reflexivity).
  split; [rewrite Chunk, After; reflexivity|].
  split; [rewrite After; exact Hl|].
  split; [rewrite After; reflexivity|].
  split; [exact Flag|].
  intros Hn. rewrite Flag. destruct expr as [e|]; [|discriminate].
  apply ExpressionFacts.undefined_variable; [reflexivity | exact Hn].
Qed.
